(** * e8yes-cg: the path-tracing integrators of [corelib/src/pathtracer.cpp]

    A shallow embedding of the integrator family (random walk, direct
    illumination transport, the unidirectional and bidirectional estimators)
    together with the properties of the design document that can be settled on
    the code.

    Conventions of the embedding.
    - Arithmetic is kept abstract behind the class [Scalar]: the code computes
      in IEEE single precision, and every theorem below holds for any
      interpretation of the operators.  Concrete runs use Rocq's primitive
      floats ([Floats.PrimFloat], binary64).
    - The random number generator is an explicit state threaded through every
      sampler, in the order in which the C++ code draws from it.
    - Raw pointers to scratch arrays ([sampled_pathlet *]) are functions from
      indices; [std::vector]s are lists updated in place.
    - The recursive estimators terminate only through Russian roulette, hence
      they carry a recursion budget and return [None] when it is exhausted.
    - [unsigned] counters are natural numbers; no path length comes near the
      32-bit wrap-around. *)

From Stdlib Require Import PrimFloat Uint63 ZArith.
From stdpp Require Import base option list functions gmap strings.

Set Default Proof Using "Type".

(** ** Scalars ([float]) *)

Class Scalar (F : Type) : Type := {
  c_0 : F;                      (* 0.0f *)
  c_1 : F;                      (* 1.0f *)
  c_half : F;                   (* 0.5f *)
  c_2 : F;                      (* 2.0f *)
  c_1e_4 : F;                   (* 1e-4f *)
  c_1e_3 : F;                   (* 1e-3f *)
  fadd : F -> F -> F;
  fsub : F -> F -> F;
  fmul : F -> F -> F;
  fdiv : F -> F -> F;
  fneg : F -> F;
  fsqrt : F -> F;
  fltb : F -> F -> bool;        (* a < b *)
  fleb : F -> F -> bool;        (* a <= b *)
  feqb : F -> F -> bool;        (* a == b *)
  fequals : F -> F -> bool;     (* e8util::equals(a, b) *)
  of_uint : nat -> F;           (* conversion unsigned -> float *)
}.

(** ** Tensors ([e8util::vec2], [e8util::vec3], [e8util::color3]) *)

Section Tensor.
Context {F : Type} `{Scalar F}.

Record vec3 : Type := mk_vec3 { vx : F; vy : F; vz : F }.
Record vec2 : Type := mk_vec2 { ux : F; uy : F }.

(** [vec3(s)] and the implicit conversion of a float to a vector. *)
Definition vconst (s : F) : vec3 := mk_vec3 s s s.

(** A default-constructed vector.  [tensor.h] is not among the sources; the
    code accumulates into freshly declared vectors ([color3 rad; rad += ...]),
    so the default constructor clears the components. *)
Definition vzero : vec3 := vconst c_0.

Definition vmap2 (op : F -> F -> F) (a b : vec3) : vec3 :=
    mk_vec3 (op (vx a) (vx b)) (op (vy a) (vy b)) (op (vz a) (vz b)).

Definition vadd : vec3 -> vec3 -> vec3 := vmap2 fadd.
Definition vsub : vec3 -> vec3 -> vec3 := vmap2 fsub.
Definition vmul : vec3 -> vec3 -> vec3 := vmap2 fmul.
Definition vdiv : vec3 -> vec3 -> vec3 := vmap2 fdiv.
Definition vneg (a : vec3) : vec3 := mk_vec3 (fneg (vx a)) (fneg (vy a)) (fneg (vz a)).
(** [a * s], [s * a], [a / s], [a + s] for a scalar [s]. *)
Definition vscale (a : vec3) (s : F) : vec3 := mk_vec3 (fmul (vx a) s) (fmul (vy a) s) (fmul (vz a) s).
Definition sscale (s : F) (a : vec3) : vec3 := mk_vec3 (fmul s (vx a)) (fmul s (vy a)) (fmul s (vz a)).
Definition vsdiv (a : vec3) (s : F) : vec3 := mk_vec3 (fdiv (vx a) s) (fdiv (vy a) s) (fdiv (vz a) s).
Definition vsadd (a : vec3) (s : F) : vec3 := mk_vec3 (fadd (vx a) s) (fadd (vy a) s) (fadd (vz a) s).

Definition inner (a b : vec3) : F :=
    fadd (fadd (fmul (vx a) (vx b)) (fmul (vy a) (vy b))) (fmul (vz a) (vz b)).
Definition norm (a : vec3) : F := fsqrt (inner a a).

(** A vector is finite-valued under a predicate on scalars when all three
    components are. *)
Definition vall (P : F -> bool) (a : vec3) : bool := P (vx a) && P (vy a) && P (vz a).
End Tensor.

Arguments vec3 F : clear implicits.
Arguments vec2 F : clear implicits.

(** [e8util::color3] is a [vec3] used for radiance. *)
Abbreviation color3 := vec3.

(** ** Records and the interfaces the integrators consume *)

Section Model.
Context {F : Type} `{Scalar F}.
(** The generator state, geometry handles, and [e8util::equals] on vectors
    (declared in headers that are not among the sources). *)
Context {rng geometry : Type}.
Variable rng_draw : rng -> F * rng.
Variable vequals : vec3 F -> vec3 F -> bool.

Record ray : Type := mk_ray { ray_o : vec3 F; ray_v : vec3 F }.

(** [e8::intersect_info].  Its header is absent: [valid()] is a function of
    the record's state and is kept as a field. *)
Record intersect_info : Type := mk_intersect_info {
    valid : bool;
    vertex : vec3 F;
    normal : vec3 F;
    uv : vec2 F;
    hit_t : F;
    geo : geometry;
  }.

(** [if_geometry::surface_sample], [if_light::emission_surface_sample] and
    [if_light::emission_sample]. *)
Record surface_sample : Type := mk_surface_sample {
    p : vec3 F;
    n : vec3 F;
    area_dens : F;
  }.
Record emission_surface_sample : Type := mk_emission_surface_sample {
    ess_surface : surface_sample;
  }.
Record emission_sample : Type := mk_emission_sample {
    surface : surface_sample;
    w : vec3 F;
    solid_angle_dens : F;
  }.

(** [if_material]: [eval(uv, n, o, i)] and [sample(rng, &dens, uv, n, o)]. *)
Record if_material : Type := mk_material {
    mat_eval : vec2 F -> vec3 F -> vec3 F -> vec3 F -> color3 F;
    mat_sample : rng -> vec2 F -> vec3 F -> vec3 F -> vec3 F * F * rng;
  }.

(** [if_material_container], with [geo->material_id()]. *)
Record if_material_container : Type := mk_material_container {
    material_id : geometry -> nat;
    find : nat -> if_material;
  }.

(** [if_light]. *)
Record if_light : Type := mk_light {
    light_eval : vec3 F -> vec3 F -> vec3 F -> color3 F;
    radiance : vec3 F -> vec3 F -> color3 F;
    projected_radiance : vec3 F -> vec3 F -> color3 F;
    sample_emssion_surface : rng -> emission_surface_sample * rng;
    sample_emssion : rng -> emission_sample * rng;
  }.

(** [if_light_sources]: [sample_light(rng, &prob_mass)] and [obj_light(geo)]. *)
Record if_light_sources : Type := mk_light_sources {
    sample_light : rng -> if_light * F * rng;
    obj_light : geometry -> option if_light;
  }.

(** [if_path_space].  The out-parameter [t] of [has_intersect] is never read. *)
Record if_path_space : Type := mk_path_space {
    intersect : ray -> intersect_info;
    has_intersect : ray -> F -> F -> bool;
    aabb_min : vec3 F;
    aabb_max : vec3 F;
  }.

(** [if_path_tracer::first_hits::hit]. *)
Record hit : Type := mk_hit {
    hit_intersect : intersect_info;
    hit_light : option if_light;
  }.

(** *** [sampled_pathlet] *)

Record sampled_pathlet : Type := mk_sampled_pathlet {
    v : vec3 F;
    dens : F;
    vert : intersect_info;
    light : option if_light;
  }.

(** The four-argument constructor [sampled_pathlet(away, vert, light, dens)]. *)
Definition sampled_pathlet_of (away : vec3 F) (vert0 : intersect_info)
      (light0 : option if_light) (dens0 : F) : sampled_pathlet :=
    mk_sampled_pathlet away dens0 vert0 light0.

Definition towards_prev (sp : sampled_pathlet) : vec3 F := v sp.
Definition towards (sp : sampled_pathlet) : vec3 F := vneg (v sp).

Section Scene.
Variable path_space : if_path_space.
Variable mats : if_material_container.
Variable light_sources : if_light_sources.

Definition pathlet_sample_brdf (r : rng) (sp : sampled_pathlet) : vec3 F * F * rng :=
      let mat := find mats (material_id mats (geo (vert sp))) in
      mat_sample mat r (uv (vert sp)) (normal (vert sp)) (towards_prev sp).

Definition sample_brdf (r : rng) (vert0 : intersect_info) (o : vec3 F) : vec3 F * F * rng :=
      let mat := find mats (material_id mats (geo vert0)) in
      mat_sample mat r (uv vert0) (normal vert0) o.

Definition brdf (vert0 : intersect_info) (o i : vec3 F) : color3 F :=
      let mat := find mats (material_id mats (geo vert0)) in
      mat_eval mat (uv vert0) (normal vert0) o i.

Definition projected_brdf (current next : sampled_pathlet) : color3 F :=
      let mat := find mats (material_id mats (geo (vert current))) in
      let cos_w := inner (normal (vert current)) (towards next) in
      vscale (mat_eval mat (uv (vert current)) (normal (vert current))
                (towards next) (towards_prev current)) cos_w.

Definition projected_adjoint_brdf (current next : sampled_pathlet) : color3 F :=
      let mat := find mats (material_id mats (geo (vert current))) in
      let cos_w := inner (normal (vert current)) (towards next) in
      vscale (mat_eval mat (uv (vert current)) (normal (vert current))
                (towards_prev current) (towards next)) cos_w.

    (** *** The random walk [sample_path] *)

    (** The scratch array of pathlets behind the pointer [sampled_path]. *)
Abbreviation path_buf := (nat -> sampled_pathlet).

    (** The recursive core.  One unit of [fuel] is one activation of the C++
        function.  It is only entered with [1 <= depth]. *)
Fixpoint sample_path (fuel : nat) (r : rng) (sampled_path : path_buf)
        (depth max_depth : nat) : option (nat * path_buf * rng) :=
      match fuel with
      | O => None
      | S fuel' =>
        if Nat.eqb depth max_depth then Some (depth, sampled_path, r) else
        let '(i, w_dens, r1) := pathlet_sample_brdf r (sampled_path (depth - 1)) in
        if fequals w_dens c_0 then Some (depth, sampled_path, r1) else
        let next_vert :=
          intersect path_space (mk_ray (vertex (vert (sampled_path (depth - 1)))) i) in
        if valid next_vert && fltb c_0 (inner (normal next_vert) (vneg i)) then
          sample_path fuel' r1
            (<[depth := sampled_pathlet_of (vneg i) next_vert None w_dens]> sampled_path)
            (depth + 1) max_depth
        else Some (depth, sampled_path, r1)
      end.

    (** The entry form conditioned on the ray [r0] of density [dens0]. *)
Definition sample_path_dens0 (fuel : nat) (r : rng) (sampled_path : path_buf)
        (r0 : ray) (dens0 : F) (max_depth : nat) : option (nat * path_buf * rng) :=
      let vert0 := intersect path_space r0 in
      if negb (valid vert0) || fleb (inner (normal vert0) (vneg (ray_v r0))) c_0
         || Nat.eqb max_depth 0
      then Some (0, sampled_path, r)
      else sample_path fuel r
             (<[0 := sampled_pathlet_of (vneg (ray_v r0)) vert0 None dens0]> sampled_path)
             1 max_depth.

    (** The entry form bootstrapped from a precomputed first hit. *)
Definition sample_path_first_hit (fuel : nat) (r : rng) (sampled_path : path_buf)
        (r0 : ray) (h : hit) (max_depth : nat) : option (nat * path_buf * rng) :=
      if negb (valid (hit_intersect h)) || Nat.eqb max_depth 0
      then Some (0, sampled_path, r)
      else sample_path fuel r
             (<[0 := sampled_pathlet_of (vneg (ray_v r0)) (hit_intersect h) (hit_light h) c_1]>
                sampled_path)
             1 max_depth.

(** The overloads of [sample_path] as one function of the way the walk is
    entered: conditioned on a ray of known density, bootstrapped from a first
    hit, or continuing a walk that already holds [depth] pathlets. *)
Inductive entry_form : Type :=
| from_direction (r0 : ray) (dens0 : F)
| from_first_hit (r0 : ray) (h : hit)
| continue_walk (depth : nat).

Definition sample_path_entry (fuel : nat) (r : rng) (sampled_path : path_buf)
    (e : entry_form) (max_depth : nat) : option (nat * path_buf * rng) :=
  match e with
  | from_direction r0 dens0 => sample_path_dens0 fuel r sampled_path r0 dens0 max_depth
  | from_first_hit r0 h => sample_path_first_hit fuel r sampled_path r0 h max_depth
  | continue_walk depth => sample_path fuel r sampled_path depth max_depth
  end.

(** *** Direct illumination transport *)

Definition transport_illum_source (lt : if_light) (p_illum n_illum : vec3 F)
    (target_vert : intersect_info) (target_o_ray : vec3 F) : color3 F :=
  let l := vsub (vertex target_vert) p_illum in
  let illum := light_eval lt l n_illum (normal target_vert) in
  if vequals illum (vconst c_0) then vconst c_0 else
  let distance := norm l in
  let i := vsdiv (vneg l) distance in
  let light_ray := mk_ray (vertex target_vert) i in
  if negb (has_intersect path_space light_ray c_1e_4 (fsub distance c_1e_3))
  then vmul illum (brdf target_vert target_o_ray i)
  else vconst c_0.

Record light_sample : Type := mk_light_sample {
  ls_light : if_light;
  ls_emission : emission_surface_sample;
}.

Definition sample_light_source (r : rng) (target_vert : intersect_info) : light_sample * rng :=
  let '(lt, light_prob_mass, r1) := sample_light light_sources r in
  let '(em, r2) := sample_emssion_surface lt r1 in
  let s := ess_surface em in
  let em' := mk_emission_surface_sample
               (mk_surface_sample (p s) (n s) (fmul (area_dens s) light_prob_mass)) in
  (mk_light_sample lt em', r2).

(** One iteration of the sampling loop of [transport_direct_illum]: the
    contribution that is added to [rad]. *)
Definition direct_illum_term (sample : light_sample) (target_o_ray : vec3 F)
    (target_vert : intersect_info) : color3 F :=
  let s := ess_surface (ls_emission sample) in
  vsdiv (transport_illum_source (ls_light sample) (p s) (n s) target_vert target_o_ray)
        (area_dens s).

Fixpoint direct_illum_loop (count : nat) (r : rng) (target_o_ray : vec3 F)
    (target_vert : intersect_info) (rad : color3 F) : color3 F * rng :=
  match count with
  | O => (rad, r)
  | S count' =>
    let '(sample, r1) := sample_light_source r target_vert in
    direct_illum_loop count' r1 target_o_ray target_vert
      (vadd rad (direct_illum_term sample target_o_ray target_vert))
  end.

Definition transport_direct_illum (r : rng) (target_o_ray : vec3 F)
    (target_vert : intersect_info) (multi_light_samps : nat) : color3 F * rng :=
  let '(rad, r1) := direct_illum_loop multi_light_samps r target_o_ray target_vert vzero in
  (vsdiv rad (of_uint multi_light_samps), r1).

(** *** [light_transport_info] *)

Record light_transport_info : Type := mk_light_transport_info {
  m_prefix_transport : list (color3 F);
  m_cond_density : list F;
}.

(** The factor by which the running transport is multiplied at step [k]. *)
Definition transport_factor (IMPORTANCE : bool) (path : path_buf) (k : nat) : color3 F :=
  if IMPORTANCE
  then vsdiv (projected_brdf (path k) (path (k + 1))) (dens (path (k + 1)))
  else vsdiv (projected_adjoint_brdf (path k) (path (k + 1))) (dens (path (k + 1))).

(** [for (k = ...; k < len - 1; k++)], entered with [count] iterations left. *)
Fixpoint prefix_transport_loop (IMPORTANCE : bool) (path : path_buf) (count k : nat)
    (transport : color3 F) (prefix : list (color3 F)) : list (color3 F) :=
  match count with
  | O => prefix
  | S count' =>
    let transport' := vmul transport (transport_factor IMPORTANCE path k) in
    prefix_transport_loop IMPORTANCE path count' (k + 1) transport'
      (<[k + 1 := transport']> prefix)
  end.

Definition cond_density_at (path : path_buf) (k : nat) : F :=
  fdiv (fmul (dens (path k)) (inner (normal (vert (path k))) (towards_prev (path k))))
       (fmul (hit_t (vert (path k))) (hit_t (vert (path k)))).

Fixpoint cond_density_loop (path : path_buf) (count k : nat) (cd : list F) : list F :=
  match count with
  | O => cd
  | S count' => cond_density_loop path count' (k + 1) (<[k := cond_density_at path k]> cd)
  end.

Definition make_light_transport_info (IMPORTANCE : bool) (path : path_buf) (len : nat)
    : light_transport_info :=
  let prefix0 := replicate len vzero in
  let cd0 := replicate len c_0 in
  if Nat.eqb len 0 then mk_light_transport_info prefix0 cd0 else
  let transport := vconst c_1 in
  let prefix1 := <[0 := vconst c_1]> prefix0 in
  mk_light_transport_info
    (prefix_transport_loop IMPORTANCE path (len - 1) 0 transport prefix1)
    (cond_density_loop path len 0 cd0).

(** [m_prefix_transport[subpath_len]]; an index past the end is outside the
    model and reads as the default vector. *)
Definition transport (info : light_transport_info) (subpath_len : nat) : color3 F :=
  default vzero (m_prefix_transport info !! subpath_len).

Definition conditional_density (info : light_transport_info) (i : nat) : F :=
  default c_0 (m_cond_density info !! i).

(** *** [transport_all_connectible_subpaths] *)

Section Connect.
Variable cam_path : path_buf.
Variable max_cam_path_len : nat.
Variable light_path : path_buf.
Variable max_light_path_len : nat.
Variable emission : emission_sample.
Variable lt : if_light.
Variable cam_transport : light_transport_info.
Variable light_transport : light_transport_info.

(** The path radiance of the true bidirectional join, when the two join
    vertices see each other. *)
Definition join_radiance (cam_plen light_plen : nat) : option (color3 F) :=
  let light_join_vert := light_path (light_plen - 1) in
  let cam_join_vert := cam_path (cam_plen - 1) in
  let join_path0 := vsub (vertex (vert cam_join_vert)) (vertex (vert light_join_vert)) in
  let join_distance := norm join_path0 in
  let join_path := vsdiv join_path0 join_distance in
  let join_ray := mk_ray (vertex (vert light_join_vert)) join_path in
  let cos_wo := inner (normal (vert light_join_vert)) join_path in
  let cos_wi := inner (normal (vert cam_join_vert)) (vneg join_path) in
  if fltb c_0 cos_wo && fltb c_0 cos_wi
     && negb (has_intersect path_space join_ray c_1e_3 (fsub join_distance c_1e_3))
  then
    let light_emission :=
      vsdiv (projected_radiance lt (towards (light_path 0)) (n (surface emission)))
            (fmul (dens (light_path 0)) (area_dens (surface emission))) in
    let light_subpath_importance :=
      vmul light_emission (transport light_transport (light_plen - 1)) in
    let to_area_differential :=
      fdiv (fmul cos_wi cos_wo) (fmul join_distance join_distance) in
    let light_join_weight :=
      brdf (vert light_join_vert) join_path (towards_prev light_join_vert) in
    let cam_join_weight :=
      brdf (vert cam_join_vert) (towards_prev cam_join_vert) (vneg join_path) in
    let transported_importance :=
      vscale (vmul (vmul light_subpath_importance light_join_weight) cam_join_weight)
             to_area_differential in
    Some (vsdiv (vmul transported_importance (transport cam_transport (cam_plen - 1)))
                (dens (cam_path 0)))
  else None.

(** The body of the [while] loop for one strategy [(cam_plen, light_plen)],
    acting on [(partition_rad_sum, partition_weight_sum)]. *)
Definition strategy_step (cur_path_weight : F) (cam_plen light_plen : nat)
    (sums : color3 F * F) : color3 F * F :=
  let '(partition_rad_sum, partition_weight_sum) := sums in
  if Nat.eqb light_plen 0 && Nat.eqb cam_plen 0 then
    let rad_sum' :=
      match light (cam_path 0) with
      | Some l0 =>
        let path_rad := radiance l0 (towards_prev (cam_path 0)) (normal (vert (cam_path 0))) in
        vadd partition_rad_sum (sscale cur_path_weight path_rad)
      | None => partition_rad_sum
      end in
    (rad_sum', fadd partition_weight_sum cur_path_weight)
  else if Nat.eqb light_plen 0 then
    let cam_join_vert := cam_path (cam_plen - 1) in
    let transported_importance :=
      vsdiv (transport_illum_source lt (p (surface emission)) (n (surface emission))
               (vert cam_join_vert) (towards_prev cam_join_vert))
            (area_dens (surface emission)) in
    let path_rad :=
      vsdiv (vmul transported_importance (transport cam_transport (cam_plen - 1)))
            (dens (cam_path 0)) in
    (vadd partition_rad_sum (sscale cur_path_weight path_rad),
     fadd partition_weight_sum cur_path_weight)
  else if Nat.eqb cam_plen 0 then
    (* The chance of the light path hitting the camera is zero. *)
    (partition_rad_sum, partition_weight_sum)
  else
    let rad_sum' :=
      match join_radiance cam_plen light_plen with
      | Some cam_subpath_radiance =>
        vadd partition_rad_sum (sscale cur_path_weight cam_subpath_radiance)
      | None => partition_rad_sum
      end in
    (rad_sum', fadd partition_weight_sum cur_path_weight).

(** [while (static_cast<int>(cam_plen) >= 0 && light_plen <= max_light_path_len)].
    Decrementing [cam_plen] at zero wraps around, which the cast reads as [-1]:
    the loop is left after the strategy with [cam_plen = 0]. *)
Fixpoint strategy_loop (cur_path_weight : F) (cam_plen light_plen : nat)
    (sums : color3 F * F) {struct cam_plen} : color3 F * F :=
  if negb (Nat.leb light_plen max_light_path_len) then sums else
  let sums' := strategy_step cur_path_weight cam_plen light_plen sums in
  match cam_plen with
  | O => sums'
  | S cam_plen' => strategy_loop cur_path_weight cam_plen' (light_plen + 1) sums'
  end.

(** The sums [(partition_rad_sum, partition_weight_sum)] of the partition of
    path length [plen]. *)
Definition partition_sums (plen : nat) : color3 F * F :=
  let cam_plen := Nat.min (plen - 1) max_cam_path_len in
  let light_plen := plen - 1 - cam_plen in
  strategy_loop c_1 cam_plen light_plen (vconst c_0, c_0).

Definition partition_step (plen : nat) (rad : color3 F) : color3 F :=
  let '(partition_rad_sum, partition_weight_sum) := partition_sums plen in
  if fltb c_0 partition_weight_sum
  then vadd rad (vsdiv partition_rad_sum partition_weight_sum)
  else rad.

(** [for (plen = ...; plen <= max_cam_path_len + max_light_path_len + 1; plen++)],
    entered with [count] iterations left. *)
Fixpoint partition_loop (count plen : nat) (rad : color3 F) : color3 F :=
  match count with
  | O => rad
  | S count' => partition_loop count' (plen + 1) (partition_step plen rad)
  end.

End Connect.

Definition transport_all_connectible_subpaths (cam_path : path_buf) (max_cam_path_len : nat)
    (light_path : path_buf) (max_light_path_len : nat) (emission : emission_sample)
    (lt : if_light) : color3 F :=
  if Nat.eqb max_cam_path_len 0 then vconst c_0 else
  let cam_transport := make_light_transport_info false cam_path max_cam_path_len in
  let light_transport := make_light_transport_info true light_path max_light_path_len in
  partition_loop cam_path max_cam_path_len light_path max_light_path_len emission lt
    cam_transport light_transport
    (max_cam_path_len + max_light_path_len + 1) 1 vzero.

(** *** The integrators

    Every [sample] method fills [rad] pixel by pixel.  The vectors [rays] and
    [first_hits.hits] are indexed unchecked by the C++ code; the driver passes
    one hit per ray, and a read past the end (outside the model) leaves the
    pixel as it is. *)

(** [if_path_tracer::compute_first_hit].  [no_intersect] stands for the
    default-constructed [intersect_info()], whose header is absent; a fresh
    [hit] carries no light.  The loop fills [results.hits[i]] from [rays[i]]
    alone. *)
Definition first_hit_of (no_intersect : intersect_info) (ry : ray) : hit :=
  let isect := intersect path_space ry in
  if fleb (inner (normal isect) (vneg (ray_v ry))) c_0 then mk_hit no_intersect None
  else if valid isect then mk_hit isect (obj_light light_sources (geo isect))
  else mk_hit isect None.

Definition compute_first_hit (no_intersect : intersect_info) (rays : list ray) : list hit :=
  map (first_hit_of no_intersect) rays.

(** A loop over pixels whose body cannot fail. *)
Fixpoint pixel_loop (body : nat -> list (vec3 F) -> list (vec3 F)) (count i : nat)
    (rad : list (vec3 F)) : list (vec3 F) :=
  match count with
  | O => rad
  | S count' => pixel_loop body count' (i + 1) (body i rad)
  end.

(** A loop over pixels whose body draws random numbers and recurses under a
    budget. *)
Fixpoint sampling_loop (body : nat -> rng -> list (vec3 F) -> option (list (vec3 F) * rng))
    (count i : nat) (r : rng) (rad : list (vec3 F)) : option (list (vec3 F) * rng) :=
  match count with
  | O => Some (rad, r)
  | S count' =>
    match body i r rad with
    | None => None
    | Some (rad', r') => sampling_loop body count' (i + 1) r' rad'
    end
  end.

Definition position_pixel (first_hits : list hit) (i : nat) (rad : list (vec3 F))
    : list (vec3 F) :=
  match first_hits !! i with
  | None => rad
  | Some h =>
    if valid (hit_intersect h) then
      let range := vsub (aabb_max path_space) (aabb_min path_space) in
      let p0 := vdiv (vsub (vertex (hit_intersect h)) (aabb_min path_space)) range in
      <[i := mk_vec3 (vx p0) (vy p0) (vz p0)]> rad
    else <[i := vconst c_0]> rad
  end.

Definition position_tracer_sample (r : rng) (rays : list ray) (first_hits : list hit)
    : list (vec3 F) * rng :=
  (pixel_loop (position_pixel first_hits) (length first_hits) 0
     (replicate (length first_hits) vzero), r).

Definition normal_pixel (first_hits : list hit) (i : nat) (rad : list (vec3 F))
    : list (vec3 F) :=
  match first_hits !! i with
  | None => rad
  | Some h =>
    if valid (hit_intersect h) then
      let p0 := vsdiv (vsadd (normal (hit_intersect h)) c_1) c_2 in
      <[i := mk_vec3 (vx p0) (vy p0) (vz p0)]> rad
    else <[i := vconst c_0]> rad
  end.

Definition normal_tracer_sample (r : rng) (rays : list ray) (first_hits : list hit)
    : list (vec3 F) * rng :=
  (pixel_loop (normal_pixel first_hits) (length first_hits) 0
     (replicate (length first_hits) vzero), r).

(** [direct_path_tracer] *)

Definition direct_pixel (rays : list ray) (first_hits : list hit) (i : nat) (r : rng)
    (rad : list (color3 F)) : option (list (color3 F) * rng) :=
  match rays !! i, first_hits !! i with
  | Some ry, Some h =>
    if valid (hit_intersect h) then
      let '(d, r1) := transport_direct_illum r (vneg (ray_v ry)) (hit_intersect h) 1 in
      match hit_light h with
      | Some l0 =>
        Some (<[i := vadd d (projected_radiance l0 (vneg (ray_v ry))
                               (normal (hit_intersect h)))]> rad, r1)
      | None => Some (<[i := d]> rad, r1)
      end
    else Some (rad, r)
  | _, _ => Some (rad, r)
  end.

Definition direct_path_tracer_sample (r : rng) (rays : list ray) (first_hits : list hit)
    : option (list (color3 F) * rng) :=
  sampling_loop (direct_pixel rays first_hits) (length rays) 0 r
    (replicate (length first_hits) vzero).

(** Russian roulette as the three recursive estimators perform it: the result
    is [(killed, p_survive, rng)]. *)
Definition russian_roulette (mutate_depth depth : nat) (r : rng) : bool * F * rng :=
  if Nat.leb mutate_depth depth then
    let '(d, r1) := rng_draw r in (fleb c_half d, c_half, r1)
  else (false, c_1, r).

(** [unidirect_path_tracer] *)

Fixpoint unidirect_sample_indirect_illum (fuel : nat) (r : rng) (o : vec3 F)
    (vert0 : intersect_info) (depth : nat) : option (color3 F * rng) :=
  match fuel with
  | O => None
  | S fuel' =>
    let '(killed, p_survive, r1) := russian_roulette 2 depth r in
    if killed then Some (vconst c_0, r1) else
    let light_emission :=
      match obj_light light_sources (geo vert0) with
      | Some l0 => radiance l0 o (normal vert0)
      | None => vzero
      end in
    let '(i, proj_solid_dens, r2) := sample_brdf r1 vert0 o in
    if feqb proj_solid_dens c_0 then Some (vsdiv light_emission p_survive, r2) else
    let indirect_vert := intersect path_space (mk_ray (vertex vert0) i) in
    if negb (valid indirect_vert) || fleb (inner (normal indirect_vert) (vneg i)) c_0
    then Some (vsdiv light_emission p_survive, r2) else
    match unidirect_sample_indirect_illum fuel' r2 (vneg i) indirect_vert (depth + 1) with
    | None => None
    | Some (p_depth_to_inf, r3) =>
      let cos_w := inner (normal vert0) i in
      let indirect :=
        vsdiv (vscale (vmul p_depth_to_inf (brdf vert0 o i)) cos_w) proj_solid_dens in
      Some (vsdiv (vadd light_emission indirect) p_survive, r3)
    end
  end.

Definition unidirect_pixel (fuel : nat) (rays : list ray) (first_hits : list hit) (i : nat)
    (r : rng) (rad : list (color3 F)) : option (list (color3 F) * rng) :=
  match rays !! i, first_hits !! i with
  | Some ry, Some h =>
    if valid (hit_intersect h) then
      match unidirect_sample_indirect_illum fuel r (vneg (ray_v ry)) (hit_intersect h) 0 with
      | None => None
      | Some (p_inf, r1) => Some (<[i := p_inf]> rad, r1)
      end
    else Some (rad, r)
  | _, _ => Some (rad, r)
  end.

Definition unidirect_path_tracer_sample (fuel : nat) (r : rng) (rays : list ray)
    (first_hits : list hit) : option (list (color3 F) * rng) :=
  sampling_loop (unidirect_pixel fuel rays first_hits) (length rays) 0 r
    (replicate (length rays) vzero).

(** [unidirect_lt1_path_tracer] *)

(** The splitting loop [for (k = ...; k < multi_indirect_samps; k++)] with its
    two [break]s; [recurse] is the recursive call of the estimator. *)
Fixpoint lt1_indirect_loop
    (recurse : rng -> vec3 F -> intersect_info -> option (color3 F * rng))
    (count : nat) (r : rng) (o : vec3 F) (vert0 : intersect_info)
    (multi_indirect : vec3 F) : option (vec3 F * rng) :=
  match count with
  | O => Some (multi_indirect, r)
  | S count' =>
    let '(i, proj_solid_dens, r1) := sample_brdf r vert0 o in
    if feqb proj_solid_dens c_0 then Some (multi_indirect, r1) else
    let indirect_vert := intersect path_space (mk_ray (vertex vert0) i) in
    if negb (valid indirect_vert) || fleb (inner (normal indirect_vert) (vneg i)) c_0
    then Some (multi_indirect, r1) else
    match recurse r1 (vneg i) indirect_vert with
    | None => None
    | Some (indirect, r2) =>
      let cos_w := inner (normal vert0) i in
      lt1_indirect_loop recurse count' r2 o vert0
        (vadd multi_indirect
           (vsdiv (vscale (vmul indirect (brdf vert0 o i)) cos_w) proj_solid_dens))
    end
  end.

Fixpoint unidirect_lt1_sample_indirect_illum (fuel : nat) (r : rng) (o : vec3 F)
    (vert0 : intersect_info) (depth multi_light_samps multi_indirect_samps : nat)
    : option (color3 F * rng) :=
  match fuel with
  | O => None
  | S fuel' =>
    let '(killed, p_survive, r1) := russian_roulette 2 depth r in
    if killed then Some (vconst c_0, r1) else
    let multi_indirect_samps' := if Nat.leb 1 depth then 1 else multi_indirect_samps in
    let '(direct, r2) := transport_direct_illum r1 o vert0 multi_light_samps in
    match lt1_indirect_loop
            (fun r' o' vert' =>
               unidirect_lt1_sample_indirect_illum fuel' r' o' vert' (depth + 1)
                 multi_light_samps multi_indirect_samps')
            multi_indirect_samps' r2 o vert0 vzero with
    | None => None
    | Some (multi_indirect, r3) =>
      Some (vsdiv (vadd direct (vsdiv multi_indirect (of_uint multi_indirect_samps')))
                  p_survive, r3)
    end
  end.

Definition unidirect_lt1_pixel (fuel : nat) (rays : list ray) (first_hits : list hit)
    (i : nat) (r : rng) (rad : list (color3 F)) : option (list (color3 F) * rng) :=
  match rays !! i, first_hits !! i with
  | Some ry, Some h =>
    if valid (hit_intersect h) then
      match unidirect_lt1_sample_indirect_illum fuel r (vneg (ray_v ry))
              (hit_intersect h) 0 1 1 with
      | None => None
      | Some (p2_inf, r1) =>
        match hit_light h with
        | Some l0 =>
          Some (<[i := vadd p2_inf (radiance l0 (vneg (ray_v ry))
                                      (normal (hit_intersect h)))]> rad, r1)
        | None => Some (<[i := p2_inf]> rad, r1)
        end
      end
    else Some (rad, r)
  | _, _ => Some (rad, r)
  end.

Definition unidirect_lt1_path_tracer_sample (fuel : nat) (r : rng) (rays : list ray)
    (first_hits : list hit) : option (list (color3 F) * rng) :=
  sampling_loop (unidirect_lt1_pixel fuel rays first_hits) (length rays) 0 r
    (replicate (length rays) vzero).

(** [bidirect_lt2_path_tracer] *)

(** The connection of [join_with_light_paths] between the one-bounce light
    vertex [terminate] and the point of interest: [Some p2_direct] when the
    three cosines are positive and the join segment is unoccluded. *)
Definition lt2_connection (o : vec3 F) (poi : intersect_info) (lt : if_light)
    (light_prob_mass : F) (emission : emission_sample) (terminate : intersect_info)
    : option (color3 F) :=
  let light_illum :=
    vsdiv (projected_radiance lt (w emission) (n (surface emission)))
          (fmul (fmul light_prob_mass (area_dens (surface emission)))
                (solid_angle_dens emission)) in
  let tray := vneg (w emission) in
  let join_path0 := vsub (vertex poi) (vertex terminate) in
  let distance := norm join_path0 in
  let join_path := vsdiv join_path0 distance in
  let join_ray := mk_ray (vertex terminate) join_path in
  let cos_w2 := inner (normal terminate) tray in
  let cos_wo := inner (normal terminate) join_path in
  let cos_wi := inner (normal poi) (vneg join_path) in
  if fltb c_0 cos_wo && fltb c_0 cos_wi && fltb c_0 cos_w2
     && negb (has_intersect path_space join_ray c_1e_4 (fsub distance c_1e_3))
  then
    let f2 := vscale (vmul light_illum (brdf terminate join_path tray)) cos_w2 in
    Some (vscale (vmul (vsdiv (vscale f2 cos_wo) (fmul distance distance))
                       (brdf poi o (vneg join_path)))
                 cos_wi)
  else None.

Definition join_with_light_paths (r : rng) (o : vec3 F) (poi : intersect_info)
    (cam_path_len : nat) : color3 F * rng :=
  let '(p1_direct, r1) := transport_direct_illum r o poi 1 in
  let '(lt, light_prob_mass, r2) := sample_light light_sources r1 in
  let '(emission, r3) := sample_emssion lt r2 in
  let light_path := mk_ray (p (surface emission)) (w emission) in
  let light_info := intersect path_space light_path in
  if negb (valid light_info) then (vconst c_0, r3) else
  match lt2_connection o poi lt light_prob_mass emission light_info with
  | Some p2_direct =>
    if Nat.eqb cam_path_len 0
    then (vadd p1_direct (sscale c_half p2_direct), r3)
    else (sscale c_half (vadd p1_direct p2_direct), r3)
  | None => (p1_direct, r3)
  end.

Fixpoint bidirect_lt2_sample_indirect_illum (fuel : nat) (r : rng) (o : vec3 F)
    (vert0 : intersect_info) (depth : nat) : option (color3 F * rng) :=
  match fuel with
  | O => None
  | S fuel' =>
    let '(killed, p_survive, r1) := russian_roulette 1 depth r in
    if killed then Some (vconst c_0, r1) else
    let '(bidirect, r2) := join_with_light_paths r1 o vert0 depth in
    let '(i, mat_pdf, r3) := sample_brdf r2 vert0 o in
    let indirect_info := intersect path_space (mk_ray (vertex vert0) i) in
    if valid indirect_info then
      match bidirect_lt2_sample_indirect_illum fuel' r3 (vneg i) indirect_info (depth + 1) with
      | None => None
      | Some (indirect, r4) =>
        let cos_w := inner (normal vert0) i in
        if fltb cos_w c_0 then Some (vconst c_0, r4) else
        let r_ := vsdiv (vscale (vmul indirect (brdf vert0 o i)) cos_w) mat_pdf in
        Some (vsdiv (vadd bidirect r_) p_survive, r4)
      end
    else Some (vsdiv (vadd bidirect vzero) p_survive, r3)
  end.

Definition bidirect_lt2_pixel (fuel : nat) (rays : list ray) (first_hits : list hit)
    (i : nat) (r : rng) (rad : list (color3 F)) : option (list (color3 F) * rng) :=
  match rays !! i, first_hits !! i with
  | Some ry, Some h =>
    if valid (hit_intersect h) then
      match bidirect_lt2_sample_indirect_illum fuel r (vneg (ray_v ry))
              (hit_intersect h) 0 with
      | None => None
      | Some (p2_inf, r1) =>
        match hit_light h with
        | Some l0 =>
          Some (<[i := vadd p2_inf (projected_radiance l0 (vneg (ray_v ry))
                                      (normal (hit_intersect h)))]> rad, r1)
        | None => Some (<[i := p2_inf]> rad, r1)
        end
      end
    else Some (rad, r)
  | _, _ => Some (rad, r)
  end.

Definition bidirect_lt2_path_tracer_sample (fuel : nat) (r : rng) (rays : list ray)
    (first_hits : list hit) : option (list (color3 F) * rng) :=
  sampling_loop (bidirect_lt2_pixel fuel rays first_hits) (length rays) 0 r
    (replicate (length rays) vzero).

(** [bidirect_mis_path_tracer] *)

Definition sample_illum_source (r : rng) : if_light * emission_sample * rng :=
  let '(lt, light_prob_mass, r1) := sample_light light_sources r in
  let '(em, r2) := sample_emssion lt r1 in
  let s := surface em in
  (lt,
   mk_emission_sample (mk_surface_sample (p s) (n s) (fmul (area_dens s) light_prob_mass))
     (w em) (solid_angle_dens em),
   r2).

(** The state carried from pixel to pixel by [bidirect_mis_path_tracer::sample]:
    the radiance vector, the two scratch arrays and the generator. *)
Record mis_state : Type := mk_mis_state {
  mis_rad : list (color3 F);
  mis_cam_path : path_buf;
  mis_light_path : path_buf;
  mis_rng : rng;
}.

(** The walks are run with a budget of [m_max_path_len] activations, which
    always suffices (see [sample_path_total]). *)
Definition bidirect_mis_pixel (m_max_path_len : nat) (rays : list ray) (first_hits : list hit)
    (i : nat) (st : mis_state) : option mis_state :=
  match rays !! i, first_hits !! i with
  | Some cam_path0, Some h =>
    match sample_path_first_hit m_max_path_len (mis_rng st) (mis_cam_path st) cam_path0 h
            m_max_path_len with
    | None => None
    | Some (cam_path_len, cam_path, r1) =>
      let '(lt, emission_sample0, r2) := sample_illum_source r1 in
      let light_path0 := mk_ray (p (surface emission_sample0)) (w emission_sample0) in
      match sample_path_dens0 m_max_path_len r2 (mis_light_path st) light_path0
              (solid_angle_dens emission_sample0) m_max_path_len with
      | None => None
      | Some (light_path_len, light_path, r3) =>
        Some (mk_mis_state
                (<[i := transport_all_connectible_subpaths cam_path cam_path_len
                          light_path light_path_len emission_sample0 lt]> (mis_rad st))
                cam_path light_path r3)
      end
    end
  | _, _ => Some st
  end.

Fixpoint bidirect_mis_loop (m_max_path_len : nat) (rays : list ray) (first_hits : list hit)
    (count i : nat) (st : mis_state) : option mis_state :=
  match count with
  | O => Some st
  | S count' =>
    match bidirect_mis_pixel m_max_path_len rays first_hits i st with
    | None => None
    | Some st' => bidirect_mis_loop m_max_path_len rays first_hits count' (i + 1) st'
    end
  end.

(** [new sampled_pathlet[m_max_path_len]] default-constructs the pathlets; the
    initial contents [cam_buf] and [light_buf] are never read before being
    written and are left as parameters. *)
Definition bidirect_mis_path_tracer_sample (m_max_path_len : nat) (cam_buf light_buf : path_buf)
    (r : rng) (rays : list ray) (first_hits : list hit) : option (list (color3 F) * rng) :=
  match bidirect_mis_loop m_max_path_len rays first_hits (length rays) 0
          (mk_mis_state (replicate (length rays) vzero) cam_buf light_buf r) with
  | None => None
  | Some st => Some (mis_rad st, mis_rng st)
  end.

End Scene.
End Model.

(** * Vocabulary of the properties *)

Section Vocabulary.
Context {F : Type} `{Scalar F} {rng geometry : Type}.
Variable vequals : vec3 F -> vec3 F -> bool.
Variable path_space : if_path_space (F:=F) (geometry:=geometry).
Variable mats : if_material_container (F:=F) (rng:=rng) (geometry:=geometry).
Variable light_sources : if_light_sources (F:=F) (rng:=rng) (geometry:=geometry).

Abbreviation path_buf := (nat -> sampled_pathlet (F:=F) (rng:=rng) (geometry:=geometry)).

(** ** The random walk *)

(** What the recursive core guarantees of a pathlet it writes. *)
Definition walk_pathlet_ok (sp : sampled_pathlet (F:=F) (rng:=rng) (geometry:=geometry)) : Prop :=
  valid (vert sp) = true
  /\ fltb c_0 (inner (normal (vert sp)) (v sp)) = true
  /\ fequals (dens sp) c_0 = false
  /\ light sp = None.

(** The walk cannot be continued from the last pathlet of [buf] (at index
    [len - 1]) when the generator is in state [r]: the material reports a zero
    density, or the sampled ray misses or reaches a back face. *)
Definition walk_blocked (buf : path_buf) (len : nat) (r : rng) : Prop :=
  let '(i, w_dens, _) := pathlet_sample_brdf mats r (buf (len - 1)) in
  fequals w_dens c_0 = true
  \/ (let next_vert := intersect path_space (mk_ray (vertex (vert (buf (len - 1)))) i) in
      valid next_vert && fltb c_0 (inner (normal next_vert) (vneg i)) = false).

(** The state of the generator after the walk has sampled a direction at each
    of the [n] pathlets [depth - 1], [depth], ... of [buf] in turn, starting
    in state [r]: one draw of the material per activation of the core that
    passes the depth test. *)
Fixpoint walk_rng (buf : path_buf) (r : rng) (depth n : nat) : rng :=
  match n with
  | O => r
  | S n' => walk_rng buf (pathlet_sample_brdf mats r (buf (depth - 1))).2 (depth + 1) n'
  end.

(** The entry is well formed for [max_depth]: a continued walk holds at least
    the bootstrap pathlet and no more than [max_depth] pathlets. *)
Definition entry_wf (e : entry_form (F:=F) (rng:=rng) (geometry:=geometry))
    (max_depth : nat) : Prop :=
  match e with
  | continue_walk depth => 1 <= depth <= max_depth
  | _ => True
  end.

(** The bootstrap of the entry is refused: the first hit is a miss or, for a
    ray of known density, a back face. *)
Definition bootstrap_refused (e : entry_form (F:=F) (rng:=rng) (geometry:=geometry)) : Prop :=
  match e with
  | from_direction r0 _ =>
    let vert0 := intersect path_space r0 in
    valid vert0 = false \/ fleb (inner (normal vert0) (vneg (ray_v r0))) c_0 = true
  | from_first_hit _ h => valid (hit_intersect h) = false
  | continue_walk _ => False
  end.

(** The first index that the recursive core may write. *)
Definition first_walk_index (e : entry_form (F:=F) (rng:=rng) (geometry:=geometry)) : nat :=
  match e with
  | continue_walk depth => depth
  | _ => 1
  end.

(** ** Direct illumination transport *)

(** The design document's account of [transport_direct_illum], step by step.
    Step 1: select a light with probability mass [p_L], sample a point of its
    surface, and scale the area density of the point by [p_L]. *)
Definition spec_light_point (r : rng) : if_light (F:=F) (rng:=rng) * surface_sample (F:=F) * rng :=
  let '(lt, p_L, r1) := sample_light light_sources r in
  let '(em, r2) := sample_emssion_surface lt r1 in
  let s := ess_surface em in
  (lt, mk_surface_sample (p s) (n s) (fmul (area_dens s) p_L), r2).

(** The [N] points drawn one after the other. *)
Fixpoint spec_light_points (N : nat) (r : rng)
    : list (if_light (F:=F) (rng:=rng) * surface_sample (F:=F)) * rng :=
  match N with
  | O => ([], r)
  | S N' =>
    let '(lt, s, r1) := spec_light_point r in
    let '(rest, r2) := spec_light_points N' r1 in
    ((lt, s) :: rest, r2)
  end.

(** Steps 2 to 5 for one point: zero when the light's [eval] is zero or the
    shadow ray is occluded, [illum * f_r(vert, o, i)] otherwise, divided by the
    scaled area density. *)
Definition spec_direct_sample (o : vec3 F) (vert0 : intersect_info (F:=F) (geometry:=geometry))
    (sample : if_light (F:=F) (rng:=rng) * surface_sample (F:=F)) : color3 F :=
  let '(lt, s) := sample in
  let l := vsub (vertex vert0) (p s) in
  let distance := norm l in
  let i := vsdiv (vneg l) distance in
  let illum := light_eval lt l (n s) (normal vert0) in
  let occluded :=
    has_intersect path_space (mk_ray (vertex vert0) i) c_1e_4 (fsub distance c_1e_3) in
  let contribution :=
    if vequals illum (vconst c_0) || occluded
    then vconst c_0
    else vmul illum (brdf mats vert0 o i) in
  vsdiv contribution (area_dens s).

(** The average over the [N] samples. *)
Definition spec_transport_direct_illum (r : rng) (o : vec3 F)
    (vert0 : intersect_info (F:=F) (geometry:=geometry)) (N : nat) : color3 F * rng :=
  let '(samples, r') := spec_light_points N r in
  (vsdiv (foldl vadd vzero (map (spec_direct_sample o vert0) samples)) (of_uint N), r').

(** ** The bidirectional integrator with one fixed connection *)

(** The connection between the light vertex [terminate] and the point of
    interest is open: the cosines at [terminate] towards the join and back
    along the emitted ray, and the cosine at the point of interest towards
    [terminate], are positive, and nothing lies on the join segment. *)
Definition connection_open (poi : intersect_info (F:=F) (geometry:=geometry))
    (emission : emission_sample (F:=F))
    (terminate : intersect_info (F:=F) (geometry:=geometry)) : bool :=
  let join0 := vsub (vertex poi) (vertex terminate) in
  let distance := norm join0 in
  let join := vsdiv join0 distance in
  fltb c_0 (inner (normal terminate) join)
  && fltb c_0 (inner (normal poi) (vneg join))
  && fltb c_0 (inner (normal terminate) (vneg (w emission)))
  && negb (has_intersect path_space (mk_ray (vertex terminate) join) c_1e_4
             (fsub distance c_1e_3)).

(** The estimator of the connection:
    [light_illum * f_r(terminate, join, -w) * cos_w2 * cos_wo / distance^2
     * f_r(poi, o, -join) * cos_wi]. *)
Definition connection_radiance (o : vec3 F) (poi : intersect_info (F:=F) (geometry:=geometry))
    (lt : if_light (F:=F) (rng:=rng)) (light_prob_mass : F) (emission : emission_sample (F:=F))
    (terminate : intersect_info (F:=F) (geometry:=geometry)) : color3 F :=
  let join0 := vsub (vertex poi) (vertex terminate) in
  let distance := norm join0 in
  let join := vsdiv join0 distance in
  let tray := vneg (w emission) in
  let light_illum :=
    vsdiv (projected_radiance lt (w emission) (n (surface emission)))
          (fmul (fmul light_prob_mass (area_dens (surface emission)))
                (solid_angle_dens emission)) in
  vscale
    (vmul
       (vsdiv
          (vscale (vscale (vmul light_illum (brdf mats terminate join tray))
                          (inner (normal terminate) tray))
                  (inner (normal terminate) join))
          (fmul distance distance))
       (brdf mats poi o (vneg join)))
    (inner (normal poi) (vneg join)).

(** ** The debugging tracers *)

(** The colour that the position tracer gives to a first hit. *)
Definition position_colour (h : hit (F:=F) (rng:=rng) (geometry:=geometry)) : vec3 F :=
  if valid (hit_intersect h)
  then vdiv (vsub (vertex (hit_intersect h)) (aabb_min path_space))
            (vsub (aabb_max path_space) (aabb_min path_space))
  else vconst c_0.

(** The colour that the normal tracer gives to a first hit. *)
Definition normal_colour (h : hit (F:=F) (rng:=rng) (geometry:=geometry)) : vec3 F :=
  if valid (hit_intersect h)
  then vsdiv (vsadd (normal (hit_intersect h)) c_1) c_2
  else vconst c_0.

(** ** Strategies of the bidirectional MIS integrator *)

Section StrategyVocabulary.
Variable cam_path : path_buf.
Variable max_cam_path_len : nat.
Variable light_path : path_buf.
Variable max_light_path_len : nat.
Variable emission : emission_sample (F:=F).
Variable lt : if_light (F:=F) (rng:=rng).
Variable cam_transport : light_transport_info (F:=F).
Variable light_transport : light_transport_info (F:=F).

(** The strategies that the [while] loop visits, in order, when it is entered
    with [(cam_plen, light_plen)]. *)
Fixpoint visited (cam_plen light_plen : nat) : list (nat * nat) :=
  if negb (Nat.leb light_plen max_light_path_len) then [] else
  (cam_plen, light_plen) ::
  match cam_plen with
  | O => []
  | S cam_plen' => visited cam_plen' (light_plen + 1)
  end.

(** The strategies of the partition [plen]. *)
Definition strategies (plen : nat) : list (nat * nat) :=
  let cam_plen := Nat.min (plen - 1) max_cam_path_len in
  visited cam_plen (plen - 1 - cam_plen).

(** The path radiance that a strategy adds to [partition_rad_sum], when it
    adds one. *)
Definition strategy_radiance (cam_plen light_plen : nat) : option (color3 F) :=
  if Nat.eqb light_plen 0 then
    if Nat.eqb cam_plen 0 then
      match light (cam_path 0) with
      | Some l0 => Some (radiance l0 (towards_prev (cam_path 0)) (normal (vert (cam_path 0))))
      | None => None
      end
    else
      let cam_join_vert := cam_path (cam_plen - 1) in
      Some (vsdiv (vmul (vsdiv (transport_illum_source vequals path_space mats lt
                                  (p (surface emission)) (n (surface emission))
                                  (vert cam_join_vert) (towards_prev cam_join_vert))
                               (area_dens (surface emission)))
                        (transport cam_transport (cam_plen - 1)))
                  (dens (cam_path 0)))
  else join_radiance path_space mats cam_path light_path emission lt
         cam_transport light_transport cam_plen light_plen.

End StrategyVocabulary.

(** ** Pixels *)

Section PixelVocabulary.
Variable i : nat.

(** The pixel [i] is black in the radiance vector [rad]. *)
Definition black (rad : list (vec3 F)) : Prop := rad !! i = Some (vconst c_0).

End PixelVocabulary.

End Vocabulary.

(** * A concrete scene: two facing planes

    The floor [z = 0] (normal [+z], geometry 0) and the emissive ceiling
    [z = 1] (normal [-z], geometry 1).  Scalars are primitive floats.  The
    generator is a tape of the numbers it is going to return: [draw] pops the
    next one, and the material (a mirror that reflects along the normal) pops
    the density of its next sample.  The light emits from the point [(0,0,1)]
    straight down and consumes no randomness. *)

Module TwoPlanes.
#[local] Set Warnings "-inexact-float".
Local Open Scope float_scope.

#[export] Instance float_scalar : Scalar float := {
  c_0 := 0;
  c_1 := 1;
  c_half := 0.5;
  c_2 := 2;
  c_1e_4 := 1e-4;
  c_1e_3 := 1e-3;
  fadd := PrimFloat.add;
  fsub := PrimFloat.sub;
  fmul := PrimFloat.mul;
  fdiv := PrimFloat.div;
  fneg := PrimFloat.opp;
  fsqrt := PrimFloat.sqrt;
  fltb := PrimFloat.ltb;
  fleb := PrimFloat.leb;
  feqb := PrimFloat.eqb;
  fequals := PrimFloat.eqb;
  of_uint := fun k => PrimFloat.of_uint63 (Uint63.of_Z (Z.of_nat k));
}.

Definition tape : Type := list float.

Definition draw (r : tape) : float * tape :=
  match r with
  | x :: r' => (x, r')
  | [] => (0.75, [])
  end.

Definition vec_equals (a b : vec3 float) : bool :=
  PrimFloat.eqb (vx a) (vx b) && PrimFloat.eqb (vy a) (vy b) && PrimFloat.eqb (vz a) (vz b).

Definition uv0 : vec2 float := mk_vec2 0 0.
Definition up : vec3 float := mk_vec3 0 0 1.
Definition down : vec3 float := mk_vec3 0 0 (-1).

Definition miss : @intersect_info float nat :=
  mk_intersect_info false (vconst 0) (vconst 0) uv0 0 0%nat.

Definition planes_intersect (ry : @ray float) : @intersect_info float nat :=
  let dz := vz (ray_v ry) in
  let oz := vz (ray_o ry) in
  if PrimFloat.ltb 0 dz then
    let t := (1 - oz) / dz in
    mk_intersect_info true (vadd (ray_o ry) (vscale (ray_v ry) t)) down uv0 t 1%nat
  else if PrimFloat.ltb dz 0 then
    let t := (0 - oz) / dz in
    mk_intersect_info true (vadd (ray_o ry) (vscale (ray_v ry) t)) up uv0 t 0%nat
  else miss.

Definition planes : @if_path_space float nat :=
  mk_path_space planes_intersect (fun _ _ _ => false) (mk_vec3 (-4) (-4) 0) (mk_vec3 4 4 1).

(** A reflectance that depends on the outgoing direction only: it is not
    symmetric in its two directions. *)
Definition mirror : @if_material float tape :=
  mk_material
    (fun _ _ o _ => if PrimFloat.ltb 0 (vx o) then vconst 2 else vconst 1)
    (fun r _ nrm _ =>
       match r with
       | x :: r' => (nrm, x, r')
       | [] => (nrm, 0, [])
       end).

Definition materials : @if_material_container float tape nat :=
  mk_material_container (fun g => g) (fun _ => mirror).

Definition lamp_surface : @surface_sample float := mk_surface_sample up down 1.

Definition lamp : @if_light float tape :=
  mk_light
    (fun _ _ _ => vconst 1)
    (fun _ _ => vconst 1)
    (fun _ _ => vconst 1)
    (fun r => (mk_emission_surface_sample lamp_surface, r))
    (fun r => (mk_emission_sample lamp_surface down 1, r)).

Definition lights : @if_light_sources float tape nat :=
  mk_light_sources
    (fun r => (lamp, 1, r))
    (fun g => if Nat.eqb g 1 then Some lamp else None).

(** A camera ray that reaches the floor at the origin, and its first hit as
    [compute_first_hit] reports it. *)
Definition cam_ray : @ray float := mk_ray (mk_vec3 0.6 0 0.8) (mk_vec3 (-0.6) 0 (-0.8)).
Definition floor_hit : @hit float tape nat :=
  mk_hit (mk_intersect_info true (vconst 0) up uv0 1 0%nat) None.

(** A pixel whose camera ray leaves the scene sideways, and its first hit. *)
Definition stray_ray : @ray float := mk_ray (mk_vec3 0 0 0.5) (mk_vec3 1 0 0).
Definition no_hit : @hit float tape nat := mk_hit miss None.

(** The ray along which the lamp emits. *)
Definition lamp_ray : @ray float := mk_ray up down.

(** Scratch arrays as [new sampled_pathlet[...]] leaves them. *)
Definition fresh_buf : nat -> @sampled_pathlet float tape nat :=
  fun _ => mk_sampled_pathlet (vconst 0) 0 miss None.

(** A point of the floor one unit away from the origin, and a point of the
    ceiling above it. *)
Definition floor_point : @intersect_info float nat :=
  mk_intersect_info true (mk_vec3 1 0 0) up uv0 1 0%nat.
Definition ceiling_point : @intersect_info float nat :=
  mk_intersect_info true (mk_vec3 1 0 1) down uv0 1 1%nat.

(** A ray that leaves the floor at the origin and reaches the ceiling, whose
    geometry carries the lamp. *)
Definition up_ray : @ray float := mk_ray (vconst 0) up.

(** A tape on which every number is 1. *)
Definition steady : tape := [1; 1; 1].

(** The camera walk of three pathlets that starts at [floor_hit], every
    sample having density 1; the array it leaves behind. *)
Definition cam_walk : option (nat * (nat -> @sampled_pathlet float tape nat) * tape) :=
  sample_path_entry planes materials 3 steady fresh_buf (from_first_hit cam_ray floor_hit) 3.
Definition cam_buf : nat -> @sampled_pathlet float tape nat :=
  match cam_walk with
  | Some (_, buf, _) => buf
  | None => fresh_buf
  end.

(** The emission that [sample_illum_source] draws from the lamp, and the light
    walk of three pathlets along it. *)
Definition lamp_emission : @emission_sample float := mk_emission_sample lamp_surface down 1.
Definition light_walk : option (nat * (nat -> @sampled_pathlet float tape nat) * tape) :=
  sample_path_entry planes materials 3 steady fresh_buf (from_direction lamp_ray 1) 3.
Definition light_buf : nat -> @sampled_pathlet float tape nat :=
  match light_walk with
  | Some (_, buf, _) => buf
  | None => fresh_buf
  end.

(** A camera ray that looks straight down from the ceiling, and its first
    hit, the point [floor_point]. *)
Definition view_ray : @ray float := mk_ray (mk_vec3 1 0 1) down.
Definition view_hit : @hit float tape nat := mk_hit floor_point None.

(** A tape on which the first material sample reports the density 0 and the
    next number, 0.75, fails the roulette. *)
Definition absorbed : tape := [0; 0.75].

End TwoPlanes.

(** * Further parts of the model *)

Section MoreModel.
Context {F : Type} `{Scalar F} {rng geometry : Type}.
Variable vequals : vec3 F -> vec3 F -> bool.
Variable path_space : if_path_space (F:=F) (geometry:=geometry).
Variable mats : if_material_container (F:=F) (rng:=rng) (geometry:=geometry).
Variable light_sources : if_light_sources (F:=F) (rng:=rng) (geometry:=geometry).

Abbreviation path_buf := (nat -> sampled_pathlet (F:=F) (rng:=rng) (geometry:=geometry)).

(** ** [subpath_density] *)

(** The factor [d] of the loop at index [k]. *)
Definition subpath_density_factor (sampled_path : path_buf) (k : nat) : F :=
  fdiv (fmul (fmul (dens (sampled_path k))
                   (inner (normal (vert (sampled_path (k - 1)))) (towards (sampled_path k))))
             (inner (normal (vert (sampled_path k))) (towards_prev (sampled_path k))))
       (fmul (hit_t (vert (sampled_path k))) (hit_t (vert (sampled_path k)))).

(** [for (k = ...; k < path_end; k++)], entered with [count] iterations left. *)
Fixpoint subpath_density_loop (sampled_path : path_buf) (count k : nat) (acc : F) : F :=
  match count with
  | O => acc
  | S count' =>
    subpath_density_loop sampled_path count' (k + 1)
      (fmul acc (subpath_density_factor sampled_path k))
  end.

(** The density given to the first vertex: the source reads
    [src * dens * cos / t * t], that is [((src * dens * cos) / t) * t]. *)
Definition subpath_density_head (src_point_dens : F) (sampled_path : path_buf) : F :=
  fmul (fdiv (fmul (fmul src_point_dens (dens (sampled_path 0)))
                   (inner (normal (vert (sampled_path 0))) (towards_prev (sampled_path 0))))
             (hit_t (vert (sampled_path 0))))
       (hit_t (vert (sampled_path 0))).

Definition subpath_density (src_point_dens : F) (sampled_path : path_buf) (path_end : nat) : F :=
  if Nat.eqb path_end 0 then c_0 else
  subpath_density_loop sampled_path (path_end - 1) 1
    (subpath_density_head src_point_dens sampled_path).

(** ** Vocabulary of the further properties *)

(** Pathlet [k] of [buf] continues pathlet [k - 1]: some state of the
    generator makes the material at vertex [k - 1] sample the direction [i]
    with the density [w_dens], and pathlet [k] holds the vector [-i], the
    intersection of the ray cast from vertex [k - 1] along [i], the density
    [w_dens] and no light. *)
Definition walk_link (buf : path_buf) (k : nat) : Prop :=
  exists (r : rng) (i : vec3 F) (w_dens : F) (r' : rng),
    pathlet_sample_brdf mats r (buf (k - 1)) = (i, w_dens, r')
    /\ buf k = sampled_pathlet_of (vneg i)
                 (intersect path_space (mk_ray (vertex (vert (buf (k - 1)))) i)) None w_dens.

(** The number of strategies of the partition [plen] that carry a weight, for
    a camera path of [tC] and a light path of [tL] pathlets. *)
Definition partition_weight_count (tC tL plen : nat) : nat :=
  if Nat.leb (plen - 1) tC
  then 1 + Nat.min (plen - 2) tL
  else Nat.min tC (tC + tL + 2 - plen).

(** The strategy [(cam_plen, light_plen)] carries a weight. *)
Definition weighted (cl : nat * nat) : bool := negb (Nat.eqb cl.1 0) || Nat.eqb cl.2 0.

(** The image of the direct integrator, pixel after pixel: a pixel without a
    valid first hit is black and draws nothing; a pixel with one holds the
    direct illumination of its first hit plus the projected radiance of the
    light it hits, if any; the generator is handed from pixel to pixel. *)
Fixpoint direct_pixels (r : rng) (pixels : list (ray (F:=F) * hit (F:=F) (rng:=rng) (geometry:=geometry)))
    : list (color3 F) * rng :=
  match pixels with
  | [] => ([], r)
  | (ry, h) :: pixels' =>
    let '(c, r1) :=
      if valid (hit_intersect h) then
        let '(d, r1) :=
          transport_direct_illum vequals path_space mats light_sources r
            (vneg (ray_v ry)) (hit_intersect h) 1 in
        (match hit_light h with
         | Some l0 => vadd d (projected_radiance l0 (vneg (ray_v ry)) (normal (hit_intersect h)))
         | None => d
         end, r1)
      else (vzero, r) in
    let '(cs, r2) := direct_pixels r1 pixels' in
    (c :: cs, r2)
  end.

(** No first hit of the frame is valid. *)
Definition all_invalid (first_hits : list (hit (F:=F) (rng:=rng) (geometry:=geometry))) : Prop :=
  forall i h, first_hits !! i = Some h -> valid (hit_intersect h) = false.

End MoreModel.

(** ** An empty scene

    Nothing is hit; the lamp of the two planes still emits. *)

Module Void.
Import TwoPlanes.

Definition void : @if_path_space float nat :=
  mk_path_space (fun _ => miss) (fun _ _ _ => false) (vconst 0%float) (vconst 0%float).

Definition void_rays : list (@ray float) := [cam_ray; stray_ray].

Definition void_hits : list (@hit float tape nat) := compute_first_hit void lights miss void_rays.

End Void.

(** * Scene objects ([obj.cpp])

    [obj.h] is not among the sources.  The members of [if_obj] are read off
    their uses: [m_blueprint] is a sequence of stages (a name and a matrix),
    [m_children] a set of object pointers, scanned with [find], [insert] and
    [erase].  Matrices are kept abstract: [mat44_scale_one] stands for
    [e8util::mat44_scale(1.0f)] and [mat_neq] for [operator!=]. *)

Module Obj.
Section ObjModel.
Context {mat44 : Type}.
Variable mat44_scale_one : mat44.
Variable mat_neq : mat44 -> mat44 -> bool.

(** ** [next_obj_id]

    The counter [g_obj_id_counter] is an [obj_id_t] of [id_bits] bits; the
    mutex serialises the callers, which the model runs one after the other. *)
Variable id_bits : N.

Definition g_obj_id_counter_init : N := 101.

Definition next_obj_id (g_obj_id_counter : N) : N * N :=
  (g_obj_id_counter, ((g_obj_id_counter + 1) mod 2 ^ id_bits)%N).

(** [count] calls in a row: the identifiers returned and the counter left. *)
Fixpoint next_obj_ids (count : nat) (g_obj_id_counter : N) : list N * N :=
  match count with
  | O => ([], g_obj_id_counter)
  | S count' =>
    let '(next_id, c1) := next_obj_id g_obj_id_counter in
    let '(ids, c2) := next_obj_ids count' c1 in
    (next_id :: ids, c2)
  end.

(** ** [if_obj] *)

Abbreviation obj_ptr := positive.
Abbreviation transform_stage_t := (string * mat44)%type.

Record if_obj : Type := mk_if_obj {
  m_id : N;
  m_mgr : option positive;
  m_parent : option obj_ptr;
  m_dirty : bool;
  m_blueprint : list transform_stage_t;
  m_children : gset obj_ptr;
}.

(** [if_obj(obj_id_t id)]; the containers start empty. *)
Definition new_if_obj (id : N) : if_obj := mk_if_obj id None None true [] ∅.

(** [if_obj()] draws its identifier from the counter. *)
Definition new_if_obj_default (g_obj_id_counter : N) : if_obj * N :=
  let '(id, c1) := next_obj_id g_obj_id_counter in (new_if_obj id, c1).

Definition id (o : if_obj) : N := m_id o.

Definition mark_dirty (o : if_obj) : if_obj :=
  mk_if_obj (m_id o) (m_mgr o) (m_parent o) true (m_blueprint o) (m_children o).

Definition mark_clean (o : if_obj) : if_obj :=
  mk_if_obj (m_id o) (m_mgr o) (m_parent o) false (m_blueprint o) (m_children o).

Definition dirty (o : if_obj) : bool := m_dirty o.

Definition manage_by (o : if_obj) : option positive := m_mgr o.

Definition managed_by (o : if_obj) (mgr : option positive) : if_obj :=
  mk_if_obj (m_id o) mgr (m_parent o) (m_dirty o) (m_blueprint o) (m_children o).

(** [init_blueprint].  The assertion compares the size of the set of the
    stage names with their number; a failed assertion aborts ([None]). *)
Definition init_blueprint (o : if_obj) (stages : list string) : option if_obj :=
  if Nat.eqb (size (list_to_set stages : gset string)) (length stages) then
    Some (mk_if_obj (m_id o) (m_mgr o) (m_parent o) (m_dirty o)
            (map (fun s => (s, mat44_scale_one)) stages) (m_children o))
  else None.

(** The scan of [update_stage]: the first stage with the name of [stage] and
    a different matrix takes the matrix of [stage]. *)
Fixpoint update_blueprint (blueprint : list transform_stage_t) (stage : transform_stage_t)
    : option (list transform_stage_t) :=
  match blueprint with
  | [] => None
  | it :: rest =>
    if bool_decide (it.1 = stage.1) && mat_neq it.2 stage.2
    then Some ((it.1, stage.2) :: rest)
    else match update_blueprint rest stage with
         | Some rest' => Some (it :: rest')
         | None => None
         end
  end.

Definition update_stage (o : if_obj) (stage : transform_stage_t) : bool * if_obj :=
  match update_blueprint (m_blueprint o) stage with
  | Some blueprint' =>
    (true, mark_dirty (mk_if_obj (m_id o) (m_mgr o) (m_parent o) (m_dirty o) blueprint'
                         (m_children o)))
  | None => (false, o)
  end.

(** ** Children

    [add_child] and [remove_child] write through the pointers [this] and
    [child], which may be equal: the objects live in a store.  A pointer that
    is not in the store cannot be followed ([None]). *)
Abbreviation store := (gmap positive if_obj).

Definition set_parent (o : if_obj) (parent : option obj_ptr) : if_obj :=
  mk_if_obj (m_id o) (m_mgr o) parent (m_dirty o) (m_blueprint o) (m_children o).

Definition set_children (o : if_obj) (children : gset obj_ptr) : if_obj :=
  mk_if_obj (m_id o) (m_mgr o) (m_parent o) (m_dirty o) (m_blueprint o) children.

Definition add_child (st : store) (this child : obj_ptr) : option (bool * store) :=
  match st !! this with
  | None => None
  | Some this_obj =>
    if bool_decide (child ∈ m_children this_obj) then Some (false, st) else
    match st !! child with
    | None => None
    | Some child_obj =>
      let st1 := <[child := set_parent child_obj (Some this)]> st in
      match st1 !! this with
      | None => None
      | Some this_obj1 =>
        Some (true, <[this := set_children this_obj1 ({[child]} ∪ m_children this_obj1)]> st1)
      end
    end
  end.

Definition remove_child (st : store) (this child : obj_ptr) : option (bool * store) :=
  match st !! this with
  | None => None
  | Some this_obj =>
    if bool_decide (child ∈ m_children this_obj) then
      match st !! child with
      | None => None
      | Some child_obj =>
        let st1 := <[child := set_parent child_obj None]> st in
        match st1 !! this with
        | None => None
        | Some this_obj1 =>
          Some (true, <[this := set_children this_obj1 (m_children this_obj1 ∖ {[child]})]> st1)
        end
      end
    else Some (false, st)
  end.

(** Every object that names a parent is among the children of that parent. *)
Definition parents_know_children (st : store) : Prop :=
  forall c c_obj q,
    st !! c = Some c_obj -> m_parent c_obj = Some q ->
    exists q_obj, st !! q = Some q_obj /\ c ∈ m_children q_obj.

End ObjModel.
End Obj.

(** * A concrete object tree

    Three objects with the identifiers that [next_obj_id] hands out first,
    and matrices as the rows of their sixteen single floats. *)
Module Rig.

Abbreviation mat44 := (list float).

Definition mat44_scale (s : float) : mat44 :=
  [s; 0; 0; 0;  0; s; 0; 0;  0; 0; s; 0;  0; 0; 0; 1]%float.

Definition mat44_neq (a b : mat44) : bool :=
  negb (forallb (fun p : float * float => PrimFloat.eqb p.1 p.2) (zip a b)).

Definition stage_names : list string := ["scale"; "rotate"; "translate"]%string.

Definition arm : Obj.if_obj (mat44:=mat44) := Obj.new_if_obj 101.

Definition posed_arm : Obj.if_obj (mat44:=mat44) :=
  default arm (Obj.init_blueprint (mat44_scale 1) arm stage_names).

Definition objs : gmap positive (Obj.if_obj (mat44:=mat44)) :=
  <[1%positive := Obj.new_if_obj 101]>
    (<[2%positive := Obj.new_if_obj 102]>
       (<[3%positive := Obj.new_if_obj 103]> ∅)).

(** The store after object 2 became a child of object 1. *)
Definition objs_1_2 : gmap positive (Obj.if_obj (mat44:=mat44)) :=
  match Obj.add_child objs 1%positive 2%positive with
  | Some (_, st) => st
  | None => objs
  end.

(** The store after object 2 was then added to object 3 as well. *)
Definition objs_3_2 : gmap positive (Obj.if_obj (mat44:=mat44)) :=
  match Obj.add_child objs_1_2 3%positive 2%positive with
  | Some (_, st) => st
  | None => objs_1_2
  end.

End Rig.

(** * Properties *)

Section Walk.
Context {F : Type} `{Scalar F} {rng geometry : Type}.
Variable path_space : if_path_space (F:=F) (geometry:=geometry).
Variable mats : if_material_container (F:=F) (rng:=rng) (geometry:=geometry).

Abbreviation path_buf := (nat -> sampled_pathlet (F:=F) (rng:=rng) (geometry:=geometry)).

(** ** The random walk *)

Lemma sample_path_total (fuel : nat) :
  forall (r : rng) (buf : path_buf) (depth max_depth : nat),
    depth <= max_depth -> max_depth - depth < fuel ->
    exists len buf' r',
      sample_path path_space mats fuel r buf depth max_depth = Some (len, buf', r')
      /\ depth <= len <= max_depth.
Proof.
  induction fuel as [|fuel IH]; intros r buf depth max_depth Hle Hfuel; [lia|].
  cbn [sample_path].
  destruct (Nat.eqb_spec depth max_depth) as [->|Hne].
  { eauto 10 with lia. }
  destruct (pathlet_sample_brdf mats r (buf (depth - 1))) as [[i w_dens] r1].
  destruct (fequals w_dens c_0); [eauto 10 with lia|].
  destruct (valid _ && fltb _ _); [|eauto 10 with lia].
  destruct (IH r1 (<[depth := sampled_pathlet_of (vneg i)
                       (intersect path_space (mk_ray (vertex (vert (buf (depth - 1)))) i))
                       None w_dens]> buf) (depth + 1) max_depth)
    as (len & buf' & r' & Heq & Hlen); [lia|lia|].
  exists len, buf', r'. split; [exact Heq|lia].
Qed.

Lemma sample_path_frame (fuel : nat) :
  forall (r : rng) (buf : path_buf) (depth max_depth len : nat) (buf' : path_buf) (r' : rng),
    sample_path path_space mats fuel r buf depth max_depth = Some (len, buf', r') ->
    depth <= len
    /\ (forall k, k < depth -> buf' k = buf k)
    /\ (forall k, len <= k -> buf' k = buf k)
    /\ (forall k, depth <= k < len -> walk_pathlet_ok (buf' k)).
Proof.
  induction fuel as [|fuel IH]; intros r buf depth max_depth len buf' r' Hrun; [discriminate|].
  cbn [sample_path] in Hrun.
  destruct (Nat.eqb depth max_depth).
  { injection Hrun as <- <- <-. repeat split; auto; intros; lia. }
  destruct (pathlet_sample_brdf mats r (buf (depth - 1))) as [[i w_dens] r1].
  destruct (fequals w_dens c_0) eqn:Hdens.
  { injection Hrun as <- <- <-. repeat split; auto; intros; lia. }
  destruct (valid _ && fltb _ _) eqn:Hfront.
  2:{ injection Hrun as <- <- <-. repeat split; auto; intros; lia. }
  apply IH in Hrun as (Hlen & Hlow & Hhigh & Hok).
  apply andb_true_iff in Hfront as [Hvalid Hcos].
  split; [lia|]. split; [|split].
  - intros k Hk. rewrite Hlow by lia. apply fn_lookup_insert_ne. lia.
  - intros k Hk. rewrite Hhigh by lia. apply fn_lookup_insert_ne. lia.
  - intros k Hk. destruct (decide (k = depth)) as [->|Hne].
    + rewrite Hlow by lia. rewrite fn_lookup_insert.
      repeat split; assumption.
    + apply Hok. lia.
Qed.

(** The run of the recursive core, activation by activation.  The core passes
    an index only when the direction sampled there, in the state the
    generator has reached, is not blocked; and it returns either at the depth
    cap, before drawing, or at the first blocked sample, after drawing it. *)
Lemma sample_path_run (fuel : nat) :
  forall (r : rng) (buf : path_buf) (depth max_depth len : nat) (buf' : path_buf) (r' : rng),
    1 <= depth ->
    sample_path path_space mats fuel r buf depth max_depth = Some (len, buf', r') ->
    (forall k, depth <= k < len ->
       ~ walk_blocked path_space mats buf' k (walk_rng mats buf' r depth (k - depth)))
    /\ (if Nat.eqb len max_depth
        then r' = walk_rng mats buf' r depth (len - depth)
        else walk_blocked path_space mats buf' len (walk_rng mats buf' r depth (len - depth))
             /\ r' = (pathlet_sample_brdf mats (walk_rng mats buf' r depth (len - depth))
                        (buf' (len - 1))).2).
Proof.
  induction fuel as [|fuel IH]; intros r buf depth max_depth len buf' r' Hdepth Hrun;
    [discriminate|].
  pose proof (sample_path_frame (S fuel) _ _ _ _ _ _ _ Hrun) as (Hge & Hlow & _ & _).
  cbn [sample_path] in Hrun.
  destruct (Nat.eqb depth max_depth) eqn:Hcap.
  { injection Hrun as <- <- <-. split; [intros; lia|].
    rewrite Hcap, Nat.sub_diag. reflexivity. }
  destruct (pathlet_sample_brdf mats r (buf (depth - 1))) as [[i w_dens] r1] eqn:Hs.
  destruct (fequals w_dens c_0) eqn:Hdens.
  { injection Hrun as <- <- <-. split; [intros; lia|].
    rewrite Hcap, Nat.sub_diag. cbn [walk_rng]. unfold walk_blocked. rewrite Hs.
    split; [left; exact Hdens|reflexivity]. }
  destruct (valid _ && fltb _ _) eqn:Hfront.
  2:{ injection Hrun as <- <- <-. split; [intros; lia|].
      rewrite Hcap, Nat.sub_diag. cbn [walk_rng]. unfold walk_blocked. rewrite Hs.
      split; [right; exact Hfront|reflexivity]. }
  pose proof (sample_path_frame fuel _ _ _ _ _ _ _ Hrun) as (Hge' & Hlow' & _ & _).
  assert (Hprev : buf' (depth - 1) = buf (depth - 1)).
  { rewrite Hlow' by lia. apply fn_lookup_insert_ne. lia. }
  assert (Hstep : forall n, walk_rng mats buf' r depth (S n) = walk_rng mats buf' r1 (depth + 1) n).
  { intros n. cbn [walk_rng]. rewrite Hprev, Hs. reflexivity. }
  apply IH in Hrun as (Hpass & Hend); [|lia].
  split.
  - intros k Hk. destruct (decide (k = depth)) as [->|Hne].
    + rewrite Nat.sub_diag. cbn [walk_rng]. unfold walk_blocked. rewrite Hprev, Hs.
      intros [Hzero|Hmiss]; congruence.
    + replace (k - depth) with (S (k - (depth + 1))) by lia. rewrite Hstep.
      apply Hpass. lia.
  - replace (len - depth) with (S (len - (depth + 1))) by lia. rewrite Hstep. exact Hend.
Qed.

Lemma sample_path_dens0_total (fuel : nat) (r : rng) (buf : path_buf) (r0 : ray)
    (dens0 : F) (max_depth : nat) :
  max_depth <= fuel ->
  exists len buf' r',
    sample_path_dens0 path_space mats fuel r buf r0 dens0 max_depth = Some (len, buf', r').
Proof.
  intros Hfuel. unfold sample_path_dens0.
  destruct (negb _ || _); cbn [orb]; [eauto|].
  destruct (Nat.eqb_spec max_depth 0) as [->|Hpos]; [eauto|].
  destruct (sample_path_total fuel r
              (<[0 := sampled_pathlet_of (vneg (ray_v r0)) (intersect path_space r0) None dens0]>
                 buf) 1 max_depth)
    as (len & buf' & r' & Hrun & _); [lia|lia|eauto].
Qed.

(** The walk bootstrapped from a first hit completes within its budget, and
    is empty when the hit is invalid. *)
Lemma sample_path_first_hit_total (fuel : nat) (r : rng) (buf : path_buf) (r0 : ray)
    (h : hit) (max_depth : nat) :
  max_depth <= fuel ->
  exists len buf' r',
    sample_path_first_hit path_space mats fuel r buf r0 h max_depth = Some (len, buf', r')
    /\ (valid (hit_intersect h) = false -> len = 0).
Proof.
  intros Hfuel. unfold sample_path_first_hit.
  destruct (valid (hit_intersect h)); cbn [negb orb]; [|eauto 10].
  destruct (Nat.eqb_spec max_depth 0) as [->|Hpos]; [eauto 10|].
  destruct (sample_path_total fuel r
              (<[0 := sampled_pathlet_of (vneg (ray_v r0)) (hit_intersect h) (hit_light h) c_1]>
                 buf) 1 max_depth)
    as (len & buf' & r' & Hrun & _); [lia|lia|].
  exists len, buf', r'. split; [exact Hrun|discriminate].
Qed.

(** C8 -- Path-walk termination.  Every entry form of [sample_path] returns
    after at most [max_depth] activations of the recursive core, with a
    length between 0 and [max_depth].  A refused bootstrap (miss or back
    face) and a zero depth cap return 0 at once and leave the array and the
    generator as they were.  Otherwise the walk passes an index only when the
    direction sampled there, in the state that the generator has reached by
    then, has a density that the zero test rejects and hits a front face;
    and it returns either at the depth cap, without a further draw, or at
    the first sample of zero density, miss or back face, right after that
    draw.  The length is thus the least index at which one of the four stop
    events occurs. *)
Theorem sample_path_terminates (fuel : nat) (r : rng) (buf : path_buf)
    (e : entry_form) (max_depth : nat) :
  entry_wf e max_depth ->
  max_depth <= fuel ->
  exists len buf' r',
    sample_path_entry path_space mats fuel r buf e max_depth = Some (len, buf', r')
    /\ 0 <= len <= max_depth
    /\ (bootstrap_refused path_space e \/ max_depth = 0 -> len = 0 /\ buf' = buf /\ r' = r)
    /\ (~ bootstrap_refused path_space e -> max_depth <> 0 ->
        first_walk_index e <= len
        /\ (forall k, first_walk_index e <= k < len ->
              ~ walk_blocked path_space mats buf' k
                  (walk_rng mats buf' r (first_walk_index e) (k - first_walk_index e)))
        /\ (if Nat.eqb len max_depth
            then r' = walk_rng mats buf' r (first_walk_index e) (len - first_walk_index e)
            else walk_blocked path_space mats buf' len
                   (walk_rng mats buf' r (first_walk_index e) (len - first_walk_index e))
                 /\ r' = (pathlet_sample_brdf mats
                            (walk_rng mats buf' r (first_walk_index e)
                               (len - first_walk_index e))
                            (buf' (len - 1))).2)).
Proof.
  intros Hwf Hfuel.
  assert (Hcore : forall buf1 depth, 1 <= depth <= max_depth ->
            exists len buf' r',
              sample_path path_space mats fuel r buf1 depth max_depth = Some (len, buf', r')
              /\ 0 <= len <= max_depth
              /\ depth <= len
              /\ (forall k, depth <= k < len ->
                    ~ walk_blocked path_space mats buf' k (walk_rng mats buf' r depth (k - depth)))
              /\ (if Nat.eqb len max_depth
                  then r' = walk_rng mats buf' r depth (len - depth)
                  else walk_blocked path_space mats buf' len
                         (walk_rng mats buf' r depth (len - depth))
                       /\ r' = (pathlet_sample_brdf mats
                                  (walk_rng mats buf' r depth (len - depth))
                                  (buf' (len - 1))).2)).
  { intros buf1 depth Hd.
    destruct (sample_path_total fuel r buf1 depth max_depth) as (len & buf' & r' & Hrun & Hlen);
      [lia|lia|].
    exists len, buf', r'. split; [exact Hrun|]. split; [lia|]. split; [lia|].
    eapply sample_path_run; [|exact Hrun]. lia. }
  destruct e as [r0 dens0|r0 h|depth];
    cbn [sample_path_entry entry_wf bootstrap_refused first_walk_index] in *.
  - unfold sample_path_dens0.
    destruct (valid (intersect path_space r0)) eqn:Hvalid; cbn [negb orb].
    2:{ exists 0, buf, r. split; [reflexivity|]. split; [lia|]. split; [auto|].
        intros Hno. exfalso. apply Hno. left. reflexivity. }
    destruct (fleb _ c_0) eqn:Hback; cbn [orb].
    { exists 0, buf, r. split; [reflexivity|]. split; [lia|]. split; [auto|].
      intros Hno. exfalso. apply Hno. right. reflexivity. }
    destruct (Nat.eqb_spec max_depth 0) as [->|Hpos].
    { exists 0, buf, r. split; [reflexivity|]. split; [lia|]. split; [auto|].
      intros _ Hno. exfalso. apply Hno. reflexivity. }
    destruct (Hcore (<[0 := sampled_pathlet_of (vneg (ray_v r0)) (intersect path_space r0)
                            None dens0]> buf) 1)
      as (len & buf' & r' & Hrun & Hlen & Hfirst & Hpass & Hend); [lia|].
    exists len, buf', r'. split; [exact Hrun|]. split; [exact Hlen|]. split.
    + intros [[Hmiss|Hface]|Hzero]; [discriminate|discriminate|lia].
    + intros _ _. split; [exact Hfirst|]. split; [exact Hpass|exact Hend].
  - unfold sample_path_first_hit.
    destruct (valid (hit_intersect h)) eqn:Hvalid; cbn [negb orb].
    2:{ exists 0, buf, r. split; [reflexivity|]. split; [lia|]. split; [auto|].
        intros Hno. exfalso. apply Hno. reflexivity. }
    destruct (Nat.eqb_spec max_depth 0) as [->|Hpos].
    { exists 0, buf, r. split; [reflexivity|]. split; [lia|]. split; [auto|].
      intros _ Hno. exfalso. apply Hno. reflexivity. }
    destruct (Hcore (<[0 := sampled_pathlet_of (vneg (ray_v r0)) (hit_intersect h)
                            (hit_light h) c_1]> buf) 1)
      as (len & buf' & r' & Hrun & Hlen & Hfirst & Hpass & Hend); [lia|].
    exists len, buf', r'. split; [exact Hrun|]. split; [exact Hlen|]. split.
    + intros [Hmiss|Hzero]; [discriminate|lia].
    + intros _ _. split; [exact Hfirst|]. split; [exact Hpass|exact Hend].
  - destruct (Hcore buf depth Hwf) as (len & buf' & r' & Hrun & Hlen & Hfirst & Hpass & Hend).
    exists len, buf', r'. split; [exact Hrun|]. split; [exact Hlen|]. split.
    + intros [[]|Hzero]. lia.
    + intros _ _. split; [exact Hfirst|]. split; [exact Hpass|exact Hend].
Qed.

(** C9 -- Invariant of the written prefix.  When an entry form returns the
    length [len], every pathlet that the recursive core wrote (index 1 up to
    [len - 1] for the two bootstrapping forms) has a valid intersection, faces
    its stored vector ([normal . v > 0]), was sampled with a density that the
    zero test rejects, and records no light; and the array is untouched from
    index [len] on. *)
Theorem sample_path_prefix_invariant (fuel : nat) (r : rng) (buf : path_buf)
    (e : entry_form) (max_depth len : nat) (buf' : path_buf) (r' : rng) :
  sample_path_entry path_space mats fuel r buf e max_depth = Some (len, buf', r') ->
  (forall k, first_walk_index e <= k < len -> walk_pathlet_ok (buf' k))
  /\ (forall k, len <= k -> buf' k = buf k).
Proof.
  intros Hrun.
  destruct e as [r0 dens0|r0 h|depth];
    cbn [sample_path_entry first_walk_index] in *.
  - unfold sample_path_dens0 in Hrun.
    destruct (negb _ || _ || _).
    { injection Hrun as <- <- <-. split; [intros; lia|reflexivity]. }
    apply sample_path_frame in Hrun as (Hlen & _ & Hhigh & Hok).
    split; [exact Hok|].
    intros k Hk. rewrite Hhigh by lia. apply fn_lookup_insert_ne. lia.
  - unfold sample_path_first_hit in Hrun.
    destruct (negb _ || _).
    { injection Hrun as <- <- <-. split; [intros; lia|reflexivity]. }
    apply sample_path_frame in Hrun as (Hlen & _ & Hhigh & Hok).
    split; [exact Hok|].
    intros k Hk. rewrite Hhigh by lia. apply fn_lookup_insert_ne. lia.
  - apply sample_path_frame in Hrun as (Hlen & _ & Hhigh & Hok). auto.
Qed.

(** C3 (amended) -- Pathlet 0.  A bootstrap that is accepted emits pathlet 0
    with [v = -r0.dir].  Entered with a ray of density [dens0], the walk stores
    the intersection of [r0], the density [dens0] and no light; entered with
    a first hit, it stores that hit, the density 1 and the hit's light.  In
    both cases the walk then runs to completion and leaves pathlet 0 alone. *)
Theorem sample_path_pathlet0 (fuel : nat) (r : rng) (buf : path_buf) (max_depth : nat) :
  max_depth <= fuel ->
  max_depth <> 0 ->
  (forall r0 dens0,
     valid (intersect path_space r0) = true ->
     fleb (inner (normal (intersect path_space r0)) (vneg (ray_v r0))) c_0 = false ->
     exists len buf' r',
       sample_path_dens0 path_space mats fuel r buf r0 dens0 max_depth = Some (len, buf', r')
       /\ 1 <= len
       /\ buf' 0 = sampled_pathlet_of (vneg (ray_v r0)) (intersect path_space r0) None dens0)
  /\ (forall r0 h,
        valid (hit_intersect h) = true ->
        exists len buf' r',
          sample_path_first_hit path_space mats fuel r buf r0 h max_depth = Some (len, buf', r')
          /\ 1 <= len
          /\ buf' 0 = sampled_pathlet_of (vneg (ray_v r0)) (hit_intersect h) (hit_light h) c_1).
Proof.
  intros Hfuel Hpos.
  assert (Hcore : forall sp,
            exists len buf' r',
              sample_path path_space mats fuel r (<[0 := sp]> buf) 1 max_depth
                = Some (len, buf', r')
              /\ 1 <= len /\ buf' 0 = sp).
  { intros sp.
    destruct (sample_path_total fuel r (<[0 := sp]> buf) 1 max_depth)
      as (len & buf' & r' & Hrun & Hlen); [lia|lia|].
    exists len, buf', r'. split; [exact Hrun|]. split; [lia|].
    apply sample_path_frame in Hrun as (_ & Hlow & _).
    rewrite Hlow by lia. apply fn_lookup_insert. }
  apply Nat.eqb_neq in Hpos.
  split.
  - intros r0 dens0 Hvalid Hfront. unfold sample_path_dens0.
    rewrite Hvalid, Hfront, Hpos. cbn [negb orb]. apply Hcore.
  - intros r0 h Hvalid. unfold sample_path_first_hit.
    rewrite Hvalid, Hpos. cbn [negb orb]. apply Hcore.
Qed.

End Walk.

(** ** Runs of the random walk on the two planes *)

Section WalkRuns.
Import TwoPlanes.

(** With a depth cap of 5 the walk from [floor_hit] stops at length 4: the
    tape [steady] holds three densities, so the fourth sample has density 0. *)
Lemma cam_walk_stops_on_zero_density :
  option_map (fun run => run.1.1)
    (sample_path_entry planes materials 5 steady fresh_buf (from_first_hit cam_ray floor_hit) 5)
  = Some 4.
Proof. vm_compute. reflexivity. Qed.

Lemma sample_path_terminates_witness :
  exists len buf' r',
    sample_path_entry planes materials 5 steady fresh_buf
      (from_first_hit cam_ray floor_hit) 5 = Some (len, buf', r')
    /\ 0 <= len <= 5
    /\ (bootstrap_refused planes (from_first_hit cam_ray floor_hit) \/ 5 = 0 ->
        len = 0 /\ buf' = fresh_buf /\ r' = steady)
    /\ (~ bootstrap_refused planes (from_first_hit cam_ray floor_hit) -> 5 <> 0 ->
        first_walk_index (from_first_hit cam_ray floor_hit) <= len
        /\ (forall k, first_walk_index (from_first_hit cam_ray floor_hit) <= k < len ->
              ~ walk_blocked planes materials buf' k
                  (walk_rng materials buf' steady
                     (first_walk_index (from_first_hit cam_ray floor_hit))
                     (k - first_walk_index (from_first_hit cam_ray floor_hit))))
        /\ (if Nat.eqb len 5
            then r' = walk_rng materials buf' steady
                        (first_walk_index (from_first_hit cam_ray floor_hit))
                        (len - first_walk_index (from_first_hit cam_ray floor_hit))
            else walk_blocked planes materials buf' len
                   (walk_rng materials buf' steady
                      (first_walk_index (from_first_hit cam_ray floor_hit))
                      (len - first_walk_index (from_first_hit cam_ray floor_hit)))
                 /\ r' = (pathlet_sample_brdf materials
                            (walk_rng materials buf' steady
                               (first_walk_index (from_first_hit cam_ray floor_hit))
                               (len - first_walk_index (from_first_hit cam_ray floor_hit)))
                            (buf' (len - 1))).2)).
Proof.
  apply (sample_path_terminates planes materials 5 steady fresh_buf
           (from_first_hit cam_ray floor_hit) 5).
  - exact I.
  - lia.
Defined.

Lemma sample_path_prefix_invariant_witness :
  (forall k, 1 <= k < 3 -> walk_pathlet_ok (cam_buf k))
  /\ (forall k, 3 <= k -> cam_buf k = fresh_buf k).
Proof.
  apply (sample_path_prefix_invariant planes materials 3 steady fresh_buf
           (from_first_hit cam_ray floor_hit) 3 3 cam_buf [1%float]).
  vm_compute. reflexivity.
Defined.

Lemma sample_path_pathlet0_witness :
  (exists len buf' r',
     sample_path_dens0 planes materials 3 steady fresh_buf lamp_ray 1%float 3
       = Some (len, buf', r')
     /\ 1 <= len
     /\ buf' 0 = sampled_pathlet_of (vneg (ray_v lamp_ray)) (intersect planes lamp_ray) None 1%float)
  /\ (exists len buf' r',
        sample_path_first_hit planes materials 3 steady fresh_buf cam_ray floor_hit 3
          = Some (len, buf', r')
        /\ 1 <= len
        /\ buf' 0 = sampled_pathlet_of (vneg (ray_v cam_ray)) (hit_intersect floor_hit)
                          (hit_light floor_hit) 1%float).
Proof.
  destruct (sample_path_pathlet0 planes materials 3 steady fresh_buf 3) as [Hdir Hhit].
  - lia.
  - lia.
  - split.
    + apply Hdir; reflexivity.
    + apply Hhit; reflexivity.
Defined.

(** C3 (as stated) fails for the entry form conditioned on a ray: the ray
    [up_ray] reaches the ceiling, whose geometry carries the lamp, and pathlet
    0 records no light. *)
Lemma sample_path_dens0_drops_emitter :
  exists len buf' r',
    sample_path_dens0 planes materials 3 steady fresh_buf up_ray 1%float 3 = Some (len, buf', r')
    /\ 1 <= len
    /\ vert (buf' 0) = intersect planes up_ray
    /\ obj_light lights (geo (intersect planes up_ray)) = Some lamp
    /\ light (buf' 0) = None
    /\ light (buf' 0) <> obj_light lights (geo (intersect planes up_ray)).
Proof.
  eexists _, _, _. split; [vm_compute; reflexivity|].
  split; [lia|].
  split; [vm_compute; reflexivity|].
  split; [vm_compute; reflexivity|].
  split; [vm_compute; reflexivity|].
  vm_compute. discriminate.
Qed.

End WalkRuns.

(** ** Precomputed throughputs of the bidirectional MIS integrator *)

Section Transport.
Context {F : Type} `{Scalar F} {rng geometry : Type}.
Variable mats : if_material_container (F:=F) (rng:=rng) (geometry:=geometry).

Abbreviation path_buf := (nat -> sampled_pathlet (F:=F) (rng:=rng) (geometry:=geometry)).

Lemma prefix_transport_loop_spec (IMPORTANCE : bool) (path : path_buf) (count : nat) :
  forall (k : nat) (t0 : color3 F) (prefix : list (color3 F)),
    prefix !! k = Some t0 ->
    k + count < length prefix ->
    let res := prefix_transport_loop mats IMPORTANCE path count k t0 prefix in
    length res = length prefix
    /\ (forall j, j <= k -> res !! j = prefix !! j)
    /\ (forall j, k <= j < k + count ->
          exists t, res !! j = Some t
                    /\ res !! (j + 1) = Some (vmul t (transport_factor mats IMPORTANCE path j))).
Proof.
  induction count as [|count IH]; intros k t0 prefix Hk Hlen; cbn [prefix_transport_loop].
  { split; [reflexivity|]. split; [reflexivity|]. intros j Hj. lia. }
  set (t1 := vmul t0 (transport_factor mats IMPORTANCE path k)).
  destruct (IH (k + 1) t1 (<[k + 1 := t1]> prefix)) as (Hlen' & Hlow & Hstep).
  { apply list_lookup_insert_eq. lia. }
  { rewrite length_insert. lia. }
  rewrite length_insert in Hlen'.
  split; [exact Hlen'|]. split.
  - intros j Hj. rewrite Hlow by lia. apply list_lookup_insert_ne. lia.
  - intros j Hj. destruct (decide (j = k)) as [->|Hne].
    + exists t0. split.
      * rewrite Hlow by lia. rewrite list_lookup_insert_ne by lia. exact Hk.
      * rewrite Hlow by lia. apply list_lookup_insert_eq. lia.
    + apply Hstep. lia.
Qed.

Lemma transport_recurrence (IMPORTANCE : bool) (path : path_buf) (len : nat) :
  0 < len ->
  let info := make_light_transport_info mats IMPORTANCE path len in
  transport info 0 = vconst c_1
  /\ (forall k, k + 1 < len ->
        transport info (k + 1)
          = vmul (transport info k) (transport_factor mats IMPORTANCE path k)).
Proof.
  intros Hlen. unfold make_light_transport_info.
  destruct (Nat.eqb_spec len 0) as [->|_]; [lia|].
  destruct (prefix_transport_loop_spec IMPORTANCE path (len - 1) 0 (vconst c_1)
              (<[0 := vconst c_1]> (replicate len vzero)))
    as (_ & Hlow & Hstep).
  { apply list_lookup_insert_eq. rewrite length_replicate. lia. }
  { rewrite length_insert, length_replicate. lia. }
  unfold transport; cbn [m_prefix_transport]. split.
  - rewrite Hlow by lia. rewrite list_lookup_insert_eq; [reflexivity|].
    rewrite length_replicate. lia.
  - intros k Hk. destruct (Hstep k) as (t & Ht & Ht'); [lia|].
    rewrite Ht, Ht'. reflexivity.
Qed.

(** C1 (amended) -- Precomputed throughputs.  Both tables start at 1.  The
    camera table multiplies by the reflectance evaluated with the direction
    towards the previous vertex first and the direction towards the next
    vertex second, [f_r(cam[k], cam[k].towards_prev, cam[k+1].towards)]; the
    light table uses the two directions in the other order,
    [f_r(light[k], light[k+1].towards, light[k].towards_prev)].  Either
    factor carries the cosine at vertex [k] towards vertex [k+1] and is
    divided by the density of pathlet [k+1]. *)
Theorem transport_tables_recurrence (cam light0 : path_buf) (tC tL k : nat) :
  let cam_transport := make_light_transport_info mats false cam tC in
  let light_transport := make_light_transport_info mats true light0 tL in
  (k + 1 < tC ->
     transport cam_transport 0 = vconst c_1
     /\ transport cam_transport (k + 1)
        = vmul (transport cam_transport k)
            (vsdiv (vscale (brdf mats (vert (cam k)) (towards_prev (cam k)) (towards (cam (k + 1))))
                           (inner (normal (vert (cam k))) (towards (cam (k + 1)))))
                   (dens (cam (k + 1)))))
  /\ (k + 1 < tL ->
        transport light_transport 0 = vconst c_1
        /\ transport light_transport (k + 1)
           = vmul (transport light_transport k)
               (vsdiv (vscale (brdf mats (vert (light0 k)) (towards (light0 (k + 1)))
                                 (towards_prev (light0 k)))
                              (inner (normal (vert (light0 k))) (towards (light0 (k + 1)))))
                      (dens (light0 (k + 1))))).
Proof.
  cbv zeta. split; intros Hk.
  - destruct (transport_recurrence false cam tC) as [H0 Hstep]; [lia|].
    split; [exact H0|]. rewrite (Hstep k Hk). reflexivity.
  - destruct (transport_recurrence true light0 tL) as [H0 Hstep]; [lia|].
    split; [exact H0|]. rewrite (Hstep k Hk). reflexivity.
Qed.

End Transport.

Section TransportRuns.
Import TwoPlanes.

Lemma transport_tables_recurrence_witness :
  let cam_transport := make_light_transport_info materials false cam_buf 3 in
  let light_transport := make_light_transport_info materials true cam_buf 3 in
  (transport cam_transport 0 = vconst c_1
   /\ transport cam_transport 1
      = vmul (transport cam_transport 0)
          (vsdiv (vscale (brdf materials (vert (cam_buf 0)) (towards_prev (cam_buf 0))
                            (towards (cam_buf 1)))
                         (inner (normal (vert (cam_buf 0))) (towards (cam_buf 1))))
                 (dens (cam_buf 1))))
  /\ (transport light_transport 0 = vconst c_1
      /\ transport light_transport 1
         = vmul (transport light_transport 0)
             (vsdiv (vscale (brdf materials (vert (cam_buf 0)) (towards (cam_buf 1))
                               (towards_prev (cam_buf 0)))
                            (inner (normal (vert (cam_buf 0))) (towards (cam_buf 1))))
                    (dens (cam_buf 1)))).
Proof.
  destruct (transport_tables_recurrence materials cam_buf cam_buf 3 3 0) as [Hcam Hlight].
  split.
  - apply Hcam. lia.
  - apply Hlight. lia.
Defined.

(** Two floats that the comparison [eqb] tells apart are different. *)
Lemma float_eqb_false_neq (a b : float) : PrimFloat.eqb a b = false ->
  PrimFloat.eqb b b = true -> a <> b.
Proof. intros Hab Hbb ->. rewrite Hbb in Hab. discriminate. Qed.

(** C1 (as stated) fails on the camera walk [cam_buf] with the one-sided
    reflectance of the two planes: the camera table holds 2 at index 1 where
    the stated formula gives 1, and the light table built from the same
    pathlets holds 1 where the stated formula gives 2. *)
Lemma transport_tables_stated_order_fails :
  let cam_transport := make_light_transport_info materials false cam_buf 3 in
  let light_transport := make_light_transport_info materials true cam_buf 3 in
  transport cam_transport 1 = vconst 2%float
  /\ vmul (transport cam_transport 0)
       (vsdiv (vscale (brdf materials (vert (cam_buf 0)) (towards (cam_buf 1))
                         (towards_prev (cam_buf 0)))
                      (inner (normal (vert (cam_buf 0))) (towards (cam_buf 1))))
              (dens (cam_buf 1))) = vconst 1%float
  /\ transport light_transport 1 = vconst 1%float
  /\ vmul (transport light_transport 0)
       (vsdiv (vscale (brdf materials (vert (cam_buf 0)) (towards_prev (cam_buf 0))
                         (towards (cam_buf 1)))
                      (inner (normal (vert (cam_buf 0))) (towards (cam_buf 1))))
              (dens (cam_buf 1))) = vconst 2%float
  /\ vconst 2%float <> vconst 1%float :> vec3 float.
Proof.
  cbv zeta. repeat split; try (vm_compute; reflexivity).
  intros Heq. apply (f_equal vx) in Heq. cbn in Heq. revert Heq.
  apply float_eqb_false_neq; vm_compute; reflexivity.
Qed.

End TransportRuns.

(** ** Direct illumination transport *)

Section Direct.
Context {F : Type} `{Scalar F} {rng geometry : Type}.
Variable vequals : vec3 F -> vec3 F -> bool.
Variable path_space : if_path_space (F:=F) (geometry:=geometry).
Variable mats : if_material_container (F:=F) (rng:=rng) (geometry:=geometry).
Variable light_sources : if_light_sources (F:=F) (rng:=rng) (geometry:=geometry).

Lemma sample_light_source_spec (r : rng) (vert0 : intersect_info) :
  let '(sample, r1) := sample_light_source light_sources r vert0 in
  spec_light_point light_sources r = (ls_light sample, ess_surface (ls_emission sample), r1).
Proof.
  unfold sample_light_source, spec_light_point.
  destruct (sample_light light_sources r) as [[lt p_L] r1].
  destruct (sample_emssion_surface lt r1) as [em r2]. reflexivity.
Qed.

Lemma direct_illum_term_spec (sample : light_sample) (o : vec3 F) (vert0 : intersect_info) :
  direct_illum_term vequals path_space mats sample o vert0
  = spec_direct_sample vequals path_space mats o vert0 (ls_light sample, ess_surface (ls_emission sample)).
Proof.
  unfold direct_illum_term, spec_direct_sample, transport_illum_source.
  destruct (vequals _ _); [reflexivity|].
  destruct (has_intersect _ _ _ _); reflexivity.
Qed.

Lemma direct_illum_loop_spec (o : vec3 F) (vert0 : intersect_info) (count : nat) :
  forall (r : rng) (rad : color3 F),
    direct_illum_loop vequals path_space mats light_sources count r o vert0 rad
    = let '(samples, r') := spec_light_points light_sources count r in
      (foldl vadd rad (map (spec_direct_sample vequals path_space mats o vert0) samples), r').
Proof.
  induction count as [|count IH]; intros r rad; cbn [direct_illum_loop spec_light_points].
  { reflexivity. }
  pose proof (sample_light_source_spec r vert0) as Hs.
  destruct (sample_light_source light_sources r vert0) as [sample r1].
  rewrite Hs, IH, direct_illum_term_spec.
  destruct (spec_light_points light_sources count r1) as [rest r2]. reflexivity.
Qed.

(** C6 -- Direct illumination.  [transport_direct_illum] returns the average
    over its [N] light samples of the contribution of each sample: zero when
    the light's [eval] is zero or the shadow ray (from the vertex along [i],
    with [t] between [1e-4] and [distance - 1e-3]) is occluded, and
    [illum * f_r(vert, o, i)] with no further geometric term otherwise, every
    sample divided by its area density scaled by the light's selection mass.
    The generator is left in the state reached after the [N] draws. *)
Theorem transport_direct_illum_average (r : rng) (o : vec3 F) (vert0 : intersect_info)
    (N : nat) :
  transport_direct_illum vequals path_space mats light_sources r o vert0 N
  = spec_transport_direct_illum vequals path_space mats light_sources r o vert0 N.
Proof.
  unfold transport_direct_illum, spec_transport_direct_illum.
  rewrite direct_illum_loop_spec.
  destruct (spec_light_points light_sources N r) as [samples r']. reflexivity.
Qed.

End Direct.

(** ** Strategy weights of the bidirectional MIS integrator *)

Section Enumeration.
Variable max_light_path_len : nat.

Lemma elem_of_visited (c l cam_plen : nat) :
  forall light_plen,
    (c, l) ∈ visited max_light_path_len cam_plen light_plen
    <-> c <= cam_plen /\ c + l = cam_plen + light_plen /\ l <= max_light_path_len.
Proof.
  induction cam_plen as [|cam_plen IH]; intros light_plen; cbn [visited];
    destruct (Nat.leb_spec light_plen max_light_path_len) as [Hle|Hgt]; cbn [negb].
  - rewrite list_elem_of_singleton. split.
    + intros [= -> ->]. lia.
    + intros (Hc & Hsum & Hl). f_equal; lia.
  - rewrite elem_of_nil. split; [tauto|]. lia.
  - rewrite elem_of_cons, IH. split.
    + intros [[= -> ->]|(Hc & Hsum & Hl)]; lia.
    + intros (Hc & Hsum & Hl).
      destruct (decide (c = S cam_plen)) as [->|Hne].
      * left. f_equal. lia.
      * right. lia.
  - rewrite elem_of_nil. split; [tauto|]. lia.
Qed.

End Enumeration.

Section Strategies.
Context {F : Type} `{Scalar F} {rng geometry : Type}.
Variable vequals : vec3 F -> vec3 F -> bool.
Variable path_space : if_path_space (F:=F) (geometry:=geometry).
Variable mats : if_material_container (F:=F) (rng:=rng) (geometry:=geometry).
Variable cam_path : nat -> sampled_pathlet (F:=F) (rng:=rng) (geometry:=geometry).
Variable max_cam_path_len : nat.
Variable light_path : nat -> sampled_pathlet (F:=F) (rng:=rng) (geometry:=geometry).
Variable max_light_path_len : nat.
Variable emission : emission_sample (F:=F).
Variable lt : if_light (F:=F) (rng:=rng).
Variable cam_transport : light_transport_info (F:=F).
Variable light_transport : light_transport_info (F:=F).

Abbreviation step := (strategy_step vequals path_space mats cam_path light_path emission lt
                        cam_transport light_transport).
Abbreviation loop := (strategy_loop vequals path_space mats cam_path light_path
                        max_light_path_len emission lt cam_transport light_transport).
Abbreviation partition_strategies := (strategies max_cam_path_len max_light_path_len).

Lemma strategy_loop_visited (cur_path_weight : F) (cam_plen : nat) :
  forall (light_plen : nat) (sums : color3 F * F),
    loop cur_path_weight cam_plen light_plen sums
    = foldl (fun s cl => step cur_path_weight cl.1 cl.2 s) sums
        (visited max_light_path_len cam_plen light_plen).
Proof.
  induction cam_plen as [|cam_plen IH]; intros light_plen sums;
    cbn [strategy_loop visited];
    destruct (Nat.leb light_plen max_light_path_len); cbn [negb foldl fst snd]; auto.
Qed.

(** The loop enumerates exactly the strategies of the partition: the pairs
    with [cam_plen + light_plen = plen - 1], [cam_plen <= tC], [light_plen <= tL]. *)
Lemma elem_of_strategies (plen c l : nat) :
  (c, l) ∈ partition_strategies plen
  <-> c + l = plen - 1 /\ c <= max_cam_path_len /\ l <= max_light_path_len.
Proof.
  unfold strategies. rewrite elem_of_visited. lia.
Qed.

(** C4 (amended) -- Uniform weights inside a partition.  The partition [plen]
    folds the loop body over its strategies, which are exactly the pairs with
    [cam_plen + light_plen = plen - 1], [cam_plen <= tC] and [light_plen <= tL],
    each with the weight 1.  A strategy with [cam_plen >= 1] or
    [light_plen = 0] adds its weight to [W] and its weighted radiance, if
    it has one, to [R].  The strategy with [cam_plen = 0] and [light_plen >= 1]
    adds nothing to either sum.  The partition adds [R / W] to the pixel when
    [W > 0] and nothing otherwise. *)
Theorem partition_uniform_weights (plen : nat) :
  partition_sums vequals path_space mats cam_path max_cam_path_len light_path
    max_light_path_len emission lt cam_transport light_transport plen
  = foldl (fun s cl => step c_1 cl.1 cl.2 s) (vconst c_0, c_0) (partition_strategies plen)
  /\ (forall c l, (c, l) ∈ partition_strategies plen
                  <-> c + l = plen - 1 /\ c <= max_cam_path_len /\ l <= max_light_path_len)
  /\ (forall w c l R W,
        c = 0 -> l <> 0 -> step w c l (R, W) = (R, W))
  /\ (forall w c l R W,
        c <> 0 \/ l = 0 ->
        step w c l (R, W)
        = (match strategy_radiance vequals path_space mats cam_path light_path emission lt cam_transport light_transport c l with
           | Some path_rad => vadd R (sscale w path_rad)
           | None => R
           end, fadd W w))
  /\ (forall rad,
        partition_step vequals path_space mats cam_path max_cam_path_len light_path
          max_light_path_len emission lt cam_transport light_transport plen rad
        = let '(R, W) := foldl (fun s cl => step c_1 cl.1 cl.2 s) (vconst c_0, c_0)
                           (partition_strategies plen) in
          if fltb c_0 W then vadd rad (vsdiv R W) else rad).
Proof.
  assert (Hsums : partition_sums vequals path_space mats cam_path max_cam_path_len light_path
                    max_light_path_len emission lt cam_transport light_transport plen
                  = foldl (fun s cl => step c_1 cl.1 cl.2 s) (vconst c_0, c_0)
                      (partition_strategies plen)).
  { unfold partition_sums, strategies. apply strategy_loop_visited. }
  split; [exact Hsums|]. split; [intros c l; apply elem_of_strategies|].
  split; [|split].
  - intros w c l R W -> Hl. unfold strategy_step.
    destruct (Nat.eqb_spec l 0) as [->|_]; [done|]. reflexivity.
  - intros w c l R W Hcl. unfold strategy_step, strategy_radiance.
    destruct (Nat.eqb_spec l 0) as [->|Hl], (Nat.eqb_spec c 0) as [->|Hc];
      cbn [andb]; try reflexivity.
    + destruct (light (cam_path 0)); reflexivity.
    + lia.
  - intros rad. unfold partition_step. rewrite Hsums. reflexivity.
Qed.

End Strategies.

Section StrategyRuns.
Import TwoPlanes.

(** C4 (as stated) fails on the camera and light walks of three pathlets
    each: the partition of length 2 enumerates the strategies [(1, 0)] and
    [(0, 1)], the body of the loop leaves both sums untouched at [(0, 1)], and
    the weights of the partition sum to 1, not to 2. *)
Lemma light_only_strategy_unweighted :
  let cam_transport := make_light_transport_info materials false cam_buf 3 in
  let light_transport := make_light_transport_info materials true light_buf 3 in
  strategies 3 3 2 = [(1, 0); (0, 1)]
  /\ strategy_step vec_equals planes materials cam_buf light_buf lamp_emission lamp
       cam_transport light_transport 1%float 0 1 (vconst 0%float, 0%float)
     = (vconst 0%float, 0%float)
  /\ fadd 0%float 1%float = 1%float
  /\ snd (partition_sums vec_equals planes materials cam_buf 3 light_buf 3 lamp_emission lamp
            cam_transport light_transport 2) = 1%float
  /\ fadd (fadd 0%float 1%float) 1%float = 2%float
  /\ 0%float <> 1%float
  /\ 1%float <> 2%float.
Proof.
  cbv zeta. repeat split; try (vm_compute; reflexivity);
    apply float_eqb_false_neq; vm_compute; reflexivity.
Qed.

End StrategyRuns.

(** ** The bidirectional integrator with one fixed connection *)

Section Lt2.
Context {F : Type} `{Scalar F} {rng geometry : Type}.
Variable rng_draw : rng -> F * rng.
Variable vequals : vec3 F -> vec3 F -> bool.
Variable path_space : if_path_space (F:=F) (geometry:=geometry).
Variable mats : if_material_container (F:=F) (rng:=rng) (geometry:=geometry).
Variable light_sources : if_light_sources (F:=F) (rng:=rng) (geometry:=geometry).

Lemma lt2_connection_cases (o : vec3 F) (poi : intersect_info) (lt : if_light)
    (light_prob_mass : F) (emission : emission_sample) (terminate : intersect_info) :
  lt2_connection path_space mats o poi lt light_prob_mass emission terminate
  = if connection_open path_space poi emission terminate
    then Some (connection_radiance mats o poi lt light_prob_mass emission terminate)
    else None.
Proof.
  unfold lt2_connection, connection_open, connection_radiance.
  destruct (_ && _ && _ && _); reflexivity.
Qed.

(** C2 (amended) -- The two-strategy combination.  Let [p1_direct] be the
    next-event term, and let the emitted light ray reach the valid vertex
    [terminate].  When the connection is open, the value is
    [0.5 * (p1_direct + p2_direct)] away from the primary vertex and
    [p1_direct + 0.5 * p2_direct] at the primary vertex.  When the connection
    is closed (a cosine is not positive or the join segment is occluded), the
    value is [p1_direct], with the weight 1. *)
Theorem join_with_light_paths_combination (r : rng) (o : vec3 F) (poi : intersect_info)
    (cam_path_len : nat) (p1_direct : color3 F) (r1 : rng) (lt : if_light)
    (light_prob_mass : F) (r2 : rng) (emission : emission_sample) (r3 : rng) :
  transport_direct_illum vequals path_space mats light_sources r o poi 1 = (p1_direct, r1) ->
  sample_light light_sources r1 = (lt, light_prob_mass, r2) ->
  sample_emssion lt r2 = (emission, r3) ->
  let terminate := intersect path_space (mk_ray (p (surface emission)) (w emission)) in
  let p2_direct := connection_radiance mats o poi lt light_prob_mass emission terminate in
  valid terminate = true ->
  join_with_light_paths vequals path_space mats light_sources r o poi cam_path_len
  = (if connection_open path_space poi emission terminate
     then if Nat.eqb cam_path_len 0
          then vadd p1_direct (sscale c_half p2_direct)
          else sscale c_half (vadd p1_direct p2_direct)
     else p1_direct, r3).
Proof.
  intros Hp1 Hlight Hem terminate p2_direct Hvalid.
  unfold join_with_light_paths. rewrite Hp1, Hlight, Hem.
  fold terminate. rewrite Hvalid. cbn [negb].
  rewrite lt2_connection_cases.
  destruct (connection_open path_space poi emission terminate); [|reflexivity].
  destruct (Nat.eqb cam_path_len 0); reflexivity.
Qed.

(** When the emitted light ray finds no valid vertex, the function returns
    zero: the next-event term it has computed is dropped. *)
Lemma join_with_light_paths_light_miss (r : rng) (o : vec3 F) (poi : intersect_info)
    (cam_path_len : nat) (p1_direct : color3 F) (r1 : rng) (lt : if_light)
    (light_prob_mass : F) (r2 : rng) (emission : emission_sample) (r3 : rng) :
  transport_direct_illum vequals path_space mats light_sources r o poi 1 = (p1_direct, r1) ->
  sample_light light_sources r1 = (lt, light_prob_mass, r2) ->
  sample_emssion lt r2 = (emission, r3) ->
  valid (intersect path_space (mk_ray (p (surface emission)) (w emission))) = false ->
  join_with_light_paths vequals path_space mats light_sources r o poi cam_path_len
  = (vconst c_0, r3).
Proof.
  intros Hp1 Hlight Hem Hvalid.
  unfold join_with_light_paths. rewrite Hp1, Hlight, Hem, Hvalid. reflexivity.
Qed.

(** *** Zero sampling density in the three recursive estimators *)

(** The unidirectional estimator returns the emission it has accumulated. *)
Lemma unidirect_zero_density (fuel : nat) (r : rng) (o : vec3 F) (vert0 : intersect_info)
    (depth : nat) (p_survive : F) (r1 : rng) (i : vec3 F) (proj_solid_dens : F) (r2 : rng) :
  russian_roulette rng_draw 2 depth r = (false, p_survive, r1) ->
  sample_brdf mats r1 vert0 o = (i, proj_solid_dens, r2) ->
  feqb proj_solid_dens c_0 = true ->
  unidirect_sample_indirect_illum rng_draw path_space mats light_sources (S fuel) r o vert0 depth
  = Some (vsdiv (match obj_light light_sources (geo vert0) with
                 | Some l0 => radiance l0 o (normal vert0)
                 | None => vzero
                 end) p_survive, r2).
Proof.
  intros Hrr Hs Hzero. cbn [unidirect_sample_indirect_illum].
  rewrite Hrr, Hs, Hzero. reflexivity.
Qed.

(** The estimator with next-event estimation leaves its splitting loop and
    returns the direct term. *)
Lemma unidirect_lt1_zero_density (fuel : nat) (r : rng) (o : vec3 F) (vert0 : intersect_info)
    (depth multi_light_samps : nat) (p_survive : F) (r1 : rng) (direct : color3 F) (r2 : rng)
    (i : vec3 F) (proj_solid_dens : F) (r3 : rng) :
  russian_roulette rng_draw 2 depth r = (false, p_survive, r1) ->
  transport_direct_illum vequals path_space mats light_sources r1 o vert0 multi_light_samps
    = (direct, r2) ->
  sample_brdf mats r2 vert0 o = (i, proj_solid_dens, r3) ->
  feqb proj_solid_dens c_0 = true ->
  unidirect_lt1_sample_indirect_illum rng_draw vequals path_space mats light_sources (S fuel)
    r o vert0 depth multi_light_samps 1
  = Some (vsdiv (vadd direct (vsdiv vzero (of_uint 1))) p_survive, r3).
Proof.
  intros Hrr Hd Hs Hzero. cbn [unidirect_lt1_sample_indirect_illum].
  rewrite Hrr, Hd.
  assert (Hsamps : (if Nat.leb 1 depth then 1 else 1) = 1) by (destruct (Nat.leb 1 depth); reflexivity).
  rewrite Hsamps. cbn [lt1_indirect_loop]. rewrite Hs, Hzero. reflexivity.
Qed.

(** The bidirectional estimator never inspects the density: whatever the
    material reports, the indirect term is divided by it. *)
Lemma bidirect_lt2_divides_by_density (fuel : nat) (r : rng) (o : vec3 F)
    (vert0 : intersect_info) (depth : nat) (p_survive : F) (r1 : rng) (bidirect : color3 F)
    (r2 : rng) (i : vec3 F) (mat_pdf : F) (r3 : rng) (indirect : color3 F) (r4 : rng) :
  russian_roulette rng_draw 1 depth r = (false, p_survive, r1) ->
  join_with_light_paths vequals path_space mats light_sources r1 o vert0 depth = (bidirect, r2) ->
  sample_brdf mats r2 vert0 o = (i, mat_pdf, r3) ->
  valid (intersect path_space (mk_ray (vertex vert0) i)) = true ->
  bidirect_lt2_sample_indirect_illum rng_draw vequals path_space mats light_sources fuel r3
    (vneg i) (intersect path_space (mk_ray (vertex vert0) i)) (depth + 1) = Some (indirect, r4) ->
  fltb (inner (normal vert0) i) c_0 = false ->
  bidirect_lt2_sample_indirect_illum rng_draw vequals path_space mats light_sources (S fuel)
    r o vert0 depth
  = Some (vsdiv (vadd bidirect
                   (vsdiv (vscale (vmul indirect (brdf mats vert0 o i)) (inner (normal vert0) i))
                          mat_pdf))
                p_survive, r4).
Proof.
  intros Hrr Hj Hs Hvalid Hrec Hcos. cbn [bidirect_lt2_sample_indirect_illum].
  rewrite Hrr, Hj, Hs, Hvalid, Hrec, Hcos. reflexivity.
Qed.

End Lt2.

Section Lt2Runs.
Import TwoPlanes.

Lemma join_with_light_paths_combination_witness :
  join_with_light_paths vec_equals planes materials lights [] down ceiling_point 1
  = (sscale c_half
       (vadd (vconst 1%float)
             (connection_radiance materials down ceiling_point lamp 1%float lamp_emission
                (intersect planes lamp_ray))), []).
Proof.
  rewrite (join_with_light_paths_combination vec_equals planes materials lights
             [] down ceiling_point 1 (vconst 1%float) [] lamp 1%float [] lamp_emission []);
    reflexivity.
Defined.

(** C2 (as stated) fails away from the primary vertex at the point
    [floor_point]: the lamp's ray reaches the floor, the join runs along the
    floor so that the connection is closed, the next-event term is 1, and the
    value returned is 1, not one half. *)
Lemma closed_connection_keeps_whole_direct_term :
  valid (intersect planes lamp_ray) = true
  /\ connection_open planes floor_point lamp_emission (intersect planes lamp_ray) = false
  /\ transport_direct_illum vec_equals planes materials lights [] up floor_point 1
     = (vconst 1%float, [])
  /\ join_with_light_paths vec_equals planes materials lights [] up floor_point 1
     = (vconst 1%float, [])
  /\ vsdiv (vadd (vconst 1%float) (vconst 0%float)) 2%float = vconst 0.5%float
  /\ vconst 1%float <> vconst 0.5%float :> vec3 float.
Proof.
  repeat split; try (vm_compute; reflexivity).
  intros Heq. apply (f_equal vx) in Heq. cbn in Heq. revert Heq.
  apply float_eqb_false_neq; vm_compute; reflexivity.
Qed.

(** C5 -- the failing run.  The pixel looks down at [floor_point]; the
    material reports the density 0 for the first sample, whose ray reaches the
    ceiling; the recursive call is ended by the roulette and returns zero.
    The bidirectional estimator divides by the density and the pixel is not a
    number, where the two unidirectional estimators return finite values. *)
Theorem bidirect_lt2_zero_density_not_finite :
  sample_brdf materials absorbed floor_point up = (up, 0%float, [0.75%float])
  /\ (exists q,
        bidirect_lt2_path_tracer_sample draw vec_equals planes materials lights 2 absorbed
          [view_ray] [view_hit] = Some ([q], [])
        /\ vall PrimFloat.is_nan q = true
        /\ vall PrimFloat.is_finite q = false)
  /\ unidirect_path_tracer_sample draw planes materials lights 2 absorbed
       [view_ray] [view_hit] = Some ([vconst 0%float], [0.75%float])
  /\ unidirect_lt1_path_tracer_sample draw vec_equals planes materials lights 2 absorbed
       [view_ray] [view_hit] = Some ([vconst 1%float], [0.75%float]).
Proof.
  split; [vm_compute; reflexivity|]. split.
  - eexists. split; [vm_compute; reflexivity|]. split; vm_compute; reflexivity.
  - split; vm_compute; reflexivity.
Qed.

End Lt2Runs.

(** ** Pixels without a first hit, and the two debugging tracers *)

Section Loops.
Context {F : Type} `{Scalar F} {rng : Type}.

Lemma pixel_loop_invariant (P : list (vec3 F) -> Prop)
    (body : nat -> list (vec3 F) -> list (vec3 F)) :
  (forall j rad, P rad -> P (body j rad)) ->
  forall count j rad, P rad -> P (pixel_loop body count j rad).
Proof.
  intros Hbody. induction count as [|count IH]; intros j rad Hrad; cbn [pixel_loop]; auto.
Qed.

Lemma sampling_loop_invariant (P : list (vec3 F) -> Prop)
    (body : nat -> rng -> list (vec3 F) -> option (list (vec3 F) * rng)) :
  (forall j r rad rad' r', body j r rad = Some (rad', r') -> P rad -> P rad') ->
  forall count j r rad rad' r',
    sampling_loop body count j r rad = Some (rad', r') -> P rad -> P rad'.
Proof.
  intros Hbody. induction count as [|count IH]; intros j r rad rad' r' Hrun Hrad;
    cbn [sampling_loop] in Hrun.
  { injection Hrun as <- <-. exact Hrad. }
  destruct (body j r rad) as [[rad1 r1]|] eqn:Hstep; [|discriminate].
  eapply IH; [exact Hrun|]. eapply Hbody; eauto.
Qed.

Lemma sampling_loop_total
    (body : nat -> rng -> list (vec3 F) -> option (list (vec3 F) * rng)) :
  (forall j r rad, is_Some (body j r rad)) ->
  forall count j r rad, is_Some (sampling_loop body count j r rad).
Proof.
  intros Hbody. induction count as [|count IH]; intros j r rad; cbn [sampling_loop].
  { eauto. }
  destruct (Hbody j r rad) as [[rad1 r1] ->]. apply IH.
Qed.

End Loops.

Section Pixels.
Context {F : Type} `{Scalar F} {rng geometry : Type}.
Variable rng_draw : rng -> F * rng.
Variable vequals : vec3 F -> vec3 F -> bool.
Variable path_space : if_path_space (F:=F) (geometry:=geometry).
Variable mats : if_material_container (F:=F) (rng:=rng) (geometry:=geometry).
Variable light_sources : if_light_sources (F:=F) (rng:=rng) (geometry:=geometry).
Variable rays : list (ray (F:=F)).
Variable first_hits : list (hit (F:=F) (rng:=rng) (geometry:=geometry)).
Variable i : nat.
Variable h : hit (F:=F) (rng:=rng) (geometry:=geometry).

(** Once every case of a pixel body is laid out, the pixel [i] is seen to be
    left alone. *)
Ltac pixel_cases :=
  repeat (case_match; simplify_eq);
  try done;
  try (rewrite list_lookup_insert_ne by done; done).

Lemma position_pixel_black (j : nat) (rad : list (vec3 F)) :
  first_hits !! i = Some h -> valid (hit_intersect h) = false ->
  black i rad -> black i (position_pixel path_space first_hits j rad).
Proof.
  unfold black, position_pixel. intros Hh Hv Hrad.
  pose proof (lookup_lt_Some _ _ _ Hrad) as Hlen.
  destruct (decide (j = i)) as [->|Hne].
  - rewrite Hh, Hv. apply list_lookup_insert_eq. exact Hlen.
  - pixel_cases.
Qed.

Lemma normal_pixel_black (j : nat) (rad : list (vec3 F)) :
  first_hits !! i = Some h -> valid (hit_intersect h) = false ->
  black i rad -> black i (normal_pixel first_hits j rad).
Proof.
  unfold black, normal_pixel. intros Hh Hv Hrad.
  pose proof (lookup_lt_Some _ _ _ Hrad) as Hlen.
  destruct (decide (j = i)) as [->|Hne].
  - rewrite Hh, Hv. apply list_lookup_insert_eq. exact Hlen.
  - pixel_cases.
Qed.

Lemma direct_pixel_black (j : nat) (r : rng) (rad rad' : list (vec3 F)) (r' : rng) :
  first_hits !! i = Some h -> valid (hit_intersect h) = false ->
  direct_pixel vequals path_space mats light_sources rays first_hits j r rad = Some (rad', r') ->
  black i rad -> black i rad'.
Proof.
  unfold black, direct_pixel. intros Hh Hv Hrun Hrad.
  destruct (decide (j = i)) as [->|Hne].
  - rewrite Hh, Hv in Hrun. pixel_cases.
  - pixel_cases.
Qed.

Lemma direct_pixel_total (j : nat) (r : rng) (rad : list (vec3 F)) :
  is_Some (direct_pixel vequals path_space mats light_sources rays first_hits j r rad).
Proof. unfold direct_pixel. pixel_cases; eauto. Qed.

Lemma unidirect_pixel_black (fuel j : nat) (r : rng) (rad rad' : list (vec3 F)) (r' : rng) :
  first_hits !! i = Some h -> valid (hit_intersect h) = false ->
  unidirect_pixel rng_draw path_space mats light_sources fuel rays first_hits j r rad
    = Some (rad', r') ->
  black i rad -> black i rad'.
Proof.
  unfold black, unidirect_pixel. intros Hh Hv Hrun Hrad.
  destruct (decide (j = i)) as [->|Hne].
  - rewrite Hh, Hv in Hrun. pixel_cases.
  - pixel_cases.
Qed.

Lemma unidirect_lt1_pixel_black (fuel j : nat) (r : rng) (rad rad' : list (vec3 F)) (r' : rng) :
  first_hits !! i = Some h -> valid (hit_intersect h) = false ->
  unidirect_lt1_pixel rng_draw vequals path_space mats light_sources fuel rays first_hits j r rad
    = Some (rad', r') ->
  black i rad -> black i rad'.
Proof.
  unfold black, unidirect_lt1_pixel. intros Hh Hv Hrun Hrad.
  destruct (decide (j = i)) as [->|Hne].
  - rewrite Hh, Hv in Hrun. pixel_cases.
  - pixel_cases.
Qed.

Lemma bidirect_lt2_pixel_black (fuel j : nat) (r : rng) (rad rad' : list (vec3 F)) (r' : rng) :
  first_hits !! i = Some h -> valid (hit_intersect h) = false ->
  bidirect_lt2_pixel rng_draw vequals path_space mats light_sources fuel rays first_hits j r rad
    = Some (rad', r') ->
  black i rad -> black i rad'.
Proof.
  unfold black, bidirect_lt2_pixel. intros Hh Hv Hrun Hrad.
  destruct (decide (j = i)) as [->|Hne].
  - rewrite Hh, Hv in Hrun. pixel_cases.
  - pixel_cases.
Qed.

(** A pixel of the bidirectional MIS integrator always completes: both walks
    run within their budget.  It keeps the pixel [i] black. *)
Lemma bidirect_mis_pixel_black (m_max_path_len j : nat) (st : mis_state) :
  first_hits !! i = Some h -> valid (hit_intersect h) = false ->
  black i (mis_rad st) ->
  exists st',
    bidirect_mis_pixel vequals path_space mats light_sources m_max_path_len rays first_hits j st
      = Some st'
    /\ black i (mis_rad st').
Proof.
  unfold black, bidirect_mis_pixel. intros Hh Hv Hrad.
  pose proof (lookup_lt_Some _ _ _ Hrad) as Hlen.
  destruct (rays !! j) as [cam_path0|]; [|eauto].
  destruct (first_hits !! j) as [hj|] eqn:Hj; [|eauto].
  destruct (sample_path_first_hit_total path_space mats m_max_path_len (mis_rng st)
              (mis_cam_path st) cam_path0 hj m_max_path_len)
    as (cam_len & cam_path & r1 & Hcam & Hzero); [lia|].
  rewrite Hcam.
  destruct (sample_illum_source light_sources r1) as [[lt emission] r2].
  destruct (sample_path_dens0_total path_space mats m_max_path_len r2 (mis_light_path st)
              (mk_ray (p (surface emission)) (w emission)) (solid_angle_dens emission)
              m_max_path_len)
    as (light_len & light_path & r3 & Hlight); [lia|].
  rewrite Hlight. eexists. split; [reflexivity|]. cbn [mis_rad].
  destruct (decide (j = i)) as [->|Hne].
  - rewrite Hh in Hj. injection Hj as <-. rewrite (Hzero Hv).
    apply list_lookup_insert_eq. exact Hlen.
  - rewrite list_lookup_insert_ne by done. exact Hrad.
Qed.

Lemma bidirect_mis_loop_black (m_max_path_len count : nat) :
  first_hits !! i = Some h -> valid (hit_intersect h) = false ->
  forall j st,
    black i (mis_rad st) ->
    exists st',
      bidirect_mis_loop vequals path_space mats light_sources m_max_path_len rays first_hits
        count j st = Some st'
      /\ black i (mis_rad st').
Proof.
  intros Hh Hv. induction count as [|count IH]; intros j st Hrad; cbn [bidirect_mis_loop].
  { eauto. }
  destruct (bidirect_mis_pixel_black m_max_path_len j st Hh Hv Hrad) as (st1 & -> & Hrad1).
  apply IH. exact Hrad1.
Qed.

(** C7 -- Invalid first hit.  Let the first hit of the pixel [i] be invalid.
    Every integrator leaves the pixel at exactly [(0,0,0)]: the two debugging
    tracers, the direct integrator and the bidirectional MIS integrator,
    which always complete, and the three recursive estimators, whose pixel
    body returns at once, without drawing a number and whatever the budget,
    so that the pixel is black in every radiance vector they return. *)
Theorem invalid_first_hit_is_black (ry : ray) (r : rng) :
  rays !! i = Some ry ->
  first_hits !! i = Some h ->
  valid (hit_intersect h) = false ->
  black i (position_tracer_sample path_space r rays first_hits).1
  /\ black i (normal_tracer_sample r rays first_hits).1
  /\ (exists rad r',
        direct_path_tracer_sample vequals path_space mats light_sources r rays first_hits
          = Some (rad, r')
        /\ black i rad)
  /\ (forall fuel,
        (forall r0 rad0,
           unidirect_pixel rng_draw path_space mats light_sources fuel rays first_hits i r0 rad0
             = Some (rad0, r0))
        /\ (forall rad r',
              unidirect_path_tracer_sample rng_draw path_space mats light_sources fuel r rays
                first_hits = Some (rad, r') ->
              black i rad))
  /\ (forall fuel,
        (forall r0 rad0,
           unidirect_lt1_pixel rng_draw vequals path_space mats light_sources fuel rays
             first_hits i r0 rad0 = Some (rad0, r0))
        /\ (forall rad r',
              unidirect_lt1_path_tracer_sample rng_draw vequals path_space mats light_sources
                fuel r rays first_hits = Some (rad, r') ->
              black i rad))
  /\ (forall fuel,
        (forall r0 rad0,
           bidirect_lt2_pixel rng_draw vequals path_space mats light_sources fuel rays
             first_hits i r0 rad0 = Some (rad0, r0))
        /\ (forall rad r',
              bidirect_lt2_path_tracer_sample rng_draw vequals path_space mats light_sources
                fuel r rays first_hits = Some (rad, r') ->
              black i rad))
  /\ (forall m_max_path_len cam_buf light_buf,
        exists rad r',
          bidirect_mis_path_tracer_sample vequals path_space mats light_sources m_max_path_len
            cam_buf light_buf r rays first_hits = Some (rad, r')
          /\ black i rad).
Proof.
  intros Hray Hh Hv.
  pose proof (lookup_lt_Some _ _ _ Hray) as Hrays.
  pose proof (lookup_lt_Some _ _ _ Hh) as Hhits.
  assert (Hinit_rays : black i (replicate (length rays) vzero)).
  { apply lookup_replicate_2. exact Hrays. }
  assert (Hinit_hits : black i (replicate (length first_hits) vzero)).
  { apply lookup_replicate_2. exact Hhits. }
  split; [|split; [|split; [|split; [|split; [|split]]]]].
  - cbn [position_tracer_sample fst]. apply pixel_loop_invariant; [|exact Hinit_hits].
    intros j rad. apply position_pixel_black; assumption.
  - cbn [normal_tracer_sample fst]. apply pixel_loop_invariant; [|exact Hinit_hits].
    intros j rad. apply normal_pixel_black; assumption.
  - unfold direct_path_tracer_sample.
    destruct (sampling_loop_total
                (direct_pixel vequals path_space mats light_sources rays first_hits)
                direct_pixel_total (length rays) 0 r (replicate (length first_hits) vzero))
      as [[rad r'] Hrun].
    exists rad, r'. split; [exact Hrun|].
    eapply sampling_loop_invariant; [|exact Hrun|exact Hinit_hits].
    intros j r0 rad0 rad1 r1. apply direct_pixel_black; assumption.
  - intros fuel. split.
    + intros r0 rad0. unfold unidirect_pixel. rewrite Hray, Hh, Hv. reflexivity.
    + intros rad r' Hrun. unfold unidirect_path_tracer_sample in Hrun.
      eapply sampling_loop_invariant; [|exact Hrun|exact Hinit_rays].
      intros j r0 rad0 rad1 r1. apply unidirect_pixel_black; assumption.
  - intros fuel. split.
    + intros r0 rad0. unfold unidirect_lt1_pixel. rewrite Hray, Hh, Hv. reflexivity.
    + intros rad r' Hrun. unfold unidirect_lt1_path_tracer_sample in Hrun.
      eapply sampling_loop_invariant; [|exact Hrun|exact Hinit_rays].
      intros j r0 rad0 rad1 r1. apply unidirect_lt1_pixel_black; assumption.
  - intros fuel. split.
    + intros r0 rad0. unfold bidirect_lt2_pixel. rewrite Hray, Hh, Hv. reflexivity.
    + intros rad r' Hrun. unfold bidirect_lt2_path_tracer_sample in Hrun.
      eapply sampling_loop_invariant; [|exact Hrun|exact Hinit_rays].
      intros j r0 rad0 rad1 r1. apply bidirect_lt2_pixel_black; assumption.
  - intros m_max_path_len cam_buf light_buf. unfold bidirect_mis_path_tracer_sample.
    destruct (bidirect_mis_loop_black m_max_path_len (length rays) Hh Hv 0
                (mk_mis_state (replicate (length rays) vzero) cam_buf light_buf r) Hinit_rays)
      as (st' & -> & Hblack).
    eauto.
Qed.

End Pixels.

Section FirstHits.
Context {F : Type} `{Scalar F} {rng geometry : Type}.
Variable path_space : if_path_space (F:=F) (geometry:=geometry).
Variable light_sources : if_light_sources (F:=F) (rng:=rng) (geometry:=geometry).
Variable no_intersect : intersect_info (F:=F) (geometry:=geometry).

(** In a scene where no ray intersects anything, the first-hit pass reports an
    invalid first hit for every pixel, provided that the default-constructed
    record is invalid. *)
Lemma empty_scene_first_hits (rays : list ray) (i : nat) (h : hit) :
  (forall ry, valid (intersect path_space ry) = false) ->
  valid no_intersect = false ->
  compute_first_hit path_space light_sources no_intersect rays !! i = Some h ->
  valid (hit_intersect h) = false.
Proof.
  intros Hempty Hdefault Hh. unfold compute_first_hit in Hh.
  rewrite list_lookup_fmap in Hh.
  destruct (rays !! i) as [ry|]; [|discriminate].
  injection Hh as <-. unfold first_hit_of.
  destruct (fleb _ c_0); [exact Hdefault|].
  rewrite Hempty. apply Hempty.
Qed.

End FirstHits.

Section Debugging.
Context {F : Type} `{Scalar F} {rng geometry : Type}.
Variable path_space : if_path_space (F:=F) (geometry:=geometry).

(** A loop that stores [f] of the [i]-th hit in the [i]-th pixel paints the
    pixels it has not reached yet with the image of the remaining hits. *)
Lemma pixel_loop_map (f : hit (F:=F) (rng:=rng) (geometry:=geometry) -> vec3 F)
    (first_hits : list hit) (body : nat -> list (vec3 F) -> list (vec3 F)) :
  (forall i h rad, first_hits !! i = Some h -> body i rad = <[i := f h]> rad) ->
  forall count i rad,
    i + count = length first_hits ->
    length rad = length first_hits ->
    pixel_loop body count i rad = take i rad ++ map f (drop i first_hits).
Proof.
  intros Hbody. induction count as [|count IH]; intros i rad Hi Hlen; cbn [pixel_loop].
  - rewrite drop_ge by lia. rewrite take_ge by lia. cbn. rewrite app_nil_r. reflexivity.
  - destruct (lookup_lt_is_Some_2 first_hits i) as [h Hh]; [lia|].
    rewrite (Hbody i h rad Hh), IH by (rewrite ?length_insert; lia).
    rewrite (drop_S first_hits h i Hh). cbn [map].
    replace (i + 1) with (S i) by lia.
    rewrite (take_S_r (<[i := f h]> rad) i (f h)) by (apply list_lookup_insert_eq; lia).
    rewrite take_insert_ge by lia. rewrite <- app_assoc. reflexivity.
Qed.

Lemma vec3_eta (a : vec3 F) : mk_vec3 (vx a) (vy a) (vz a) = a.
Proof. destruct a. reflexivity. Qed.

(** C10 -- The position and normal tracers are deterministic.  The image of
    either tracer is the list of the colours of the first hits, a function of
    the first hits (and of the scene bounds) alone.  Hence two runs on the
    same rays and first hits return the same image whatever the states of the
    generator, and each run leaves the generator as it found it: neither
    tracer draws a number. *)
Theorem debug_tracers_deterministic (r1 r2 : rng) (rays : list (ray (F:=F)))
    (first_hits : list (hit (F:=F) (rng:=rng) (geometry:=geometry))) :
  position_tracer_sample path_space r1 rays first_hits = (map (position_colour path_space) first_hits, r1)
  /\ normal_tracer_sample r1 rays first_hits = (map normal_colour first_hits, r1)
  /\ (position_tracer_sample path_space r1 rays first_hits).1
     = (position_tracer_sample path_space r2 rays first_hits).1
  /\ (normal_tracer_sample r1 rays first_hits).1 = (normal_tracer_sample r2 rays first_hits).1.
Proof.
  assert (Hposition : forall r : rng,
            position_tracer_sample path_space r rays first_hits
            = (map (position_colour path_space) first_hits, r)).
  { intros r. unfold position_tracer_sample. f_equal.
    rewrite (pixel_loop_map (position_colour path_space) first_hits); rewrite ?length_replicate; try lia.
    - reflexivity.
    - intros i h rad Hh. unfold position_pixel, position_colour. rewrite Hh.
      destruct (valid (hit_intersect h)); [rewrite vec3_eta|]; reflexivity. }
  assert (Hnormal : forall r : rng,
            normal_tracer_sample r rays first_hits = (map normal_colour first_hits, r)).
  { intros r. unfold normal_tracer_sample. f_equal.
    rewrite (pixel_loop_map normal_colour first_hits); rewrite ?length_replicate; try lia.
    - reflexivity.
    - intros i h rad Hh. unfold normal_pixel, normal_colour. rewrite Hh.
      destruct (valid (hit_intersect h)); [rewrite vec3_eta|]; reflexivity. }
  split; [apply Hposition|]. split; [apply Hnormal|].
  rewrite !Hposition, !Hnormal. split; reflexivity.
Qed.

End Debugging.

Section PixelRuns.
Import TwoPlanes.

Lemma invalid_first_hit_is_black_witness :
  black 1 (position_tracer_sample planes steady [cam_ray; stray_ray] [floor_hit; no_hit]).1
  /\ (exists rad r',
        direct_path_tracer_sample vec_equals planes materials lights steady
          [cam_ray; stray_ray] [floor_hit; no_hit] = Some (rad, r')
        /\ black 1 rad)
  /\ (exists rad r',
        bidirect_mis_path_tracer_sample vec_equals planes materials lights 3
          fresh_buf fresh_buf steady [cam_ray; stray_ray] [floor_hit; no_hit] = Some (rad, r')
        /\ black 1 rad).
Proof.
  destruct (invalid_first_hit_is_black draw vec_equals planes materials lights
              [cam_ray; stray_ray] [floor_hit; no_hit] 1 no_hit stray_ray steady)
    as (Hposition & _ & Hdirect & _ & _ & _ & Hmis).
  - reflexivity.
  - reflexivity.
  - reflexivity.
  - split; [exact Hposition|]. split; [exact Hdirect|]. exact (Hmis 3 fresh_buf fresh_buf).
Defined.

(** The first hits used in the runs are those of the first-hit pass. *)
Example first_hits_of_the_pixels :
  compute_first_hit planes lights miss [cam_ray; stray_ray; view_ray]
  = [floor_hit; no_hit; view_hit].
Proof. vm_compute. reflexivity. Qed.

(** The image of the two pixels under the direct integrator: the pixel that
    sees the floor is lit, the stray pixel is black. *)
Example direct_image :
  direct_path_tracer_sample vec_equals planes materials lights steady
    [cam_ray; stray_ray] [floor_hit; no_hit]
  = Some ([vconst 2%float; vconst 0%float], steady).
Proof. vm_compute. reflexivity. Qed.

End PixelRuns.

(** * Further properties of the integrators *)

Section WalkLinks.
Context {F : Type} `{Scalar F} {rng geometry : Type}.
Variable path_space : if_path_space (F:=F) (geometry:=geometry).
Variable mats : if_material_container (F:=F) (rng:=rng) (geometry:=geometry).

Abbreviation path_buf := (nat -> sampled_pathlet (F:=F) (rng:=rng) (geometry:=geometry)).

Lemma sample_path_links (fuel : nat) :
  forall (r : rng) (buf : path_buf) (depth max_depth len : nat) (buf' : path_buf) (r' : rng),
    1 <= depth ->
    sample_path path_space mats fuel r buf depth max_depth = Some (len, buf', r') ->
    forall k, depth <= k < len -> walk_link path_space mats buf' k.
Proof.
  induction fuel as [|fuel IH]; intros r buf depth max_depth len buf' r' Hdepth Hrun;
    [discriminate|].
  cbn [sample_path] in Hrun.
  destruct (Nat.eqb depth max_depth).
  { injection Hrun as <- <- <-. intros k Hk. lia. }
  destruct (pathlet_sample_brdf mats r (buf (depth - 1))) as [[i w_dens] r1] eqn:Hs.
  destruct (fequals w_dens c_0).
  { injection Hrun as <- <- <-. intros k Hk. lia. }
  destruct (valid _ && fltb _ _).
  2:{ injection Hrun as <- <- <-. intros k Hk. lia. }
  intros k Hk. destruct (decide (k = depth)) as [->|Hne].
  - apply sample_path_frame in Hrun as (_ & Hlow & _).
    exists r, i, w_dens, r1.
    rewrite !Hlow by lia. rewrite fn_lookup_insert.
    rewrite fn_lookup_insert_ne by lia. split; [exact Hs|reflexivity].
  - eapply IH; [|exact Hrun|]; lia.
Qed.

(** X1 -- The walk is a chain.  When an entry form returns the length [len],
    every pathlet written by the recursive core continues the pathlet before
    it: it holds the vector opposite to a direction sampled by the material at
    the previous vertex, the intersection of the ray cast from the previous
    vertex along that direction, and the density of that sample. *)
Theorem sample_path_chain (fuel : nat) (r : rng) (buf : path_buf) (e : entry_form)
    (max_depth len : nat) (buf' : path_buf) (r' : rng) :
  entry_wf e max_depth ->
  sample_path_entry path_space mats fuel r buf e max_depth = Some (len, buf', r') ->
  forall k, first_walk_index e <= k < len -> walk_link path_space mats buf' k.
Proof.
  intros Hwf Hrun.
  destruct e as [r0 dens0|r0 h|depth]; cbn [sample_path_entry first_walk_index entry_wf] in *.
  - unfold sample_path_dens0 in Hrun.
    destruct (negb _ || _ || _).
    { injection Hrun as <- <- <-. intros k Hk. lia. }
    eapply sample_path_links; [|exact Hrun]. lia.
  - unfold sample_path_first_hit in Hrun.
    destruct (negb _ || _).
    { injection Hrun as <- <- <-. intros k Hk. lia. }
    eapply sample_path_links; [|exact Hrun]. lia.
  - eapply sample_path_links; [|exact Hrun]. lia.
Qed.

End WalkLinks.

Section FirstHitPass.
Context {F : Type} `{Scalar F} {rng geometry : Type}.
Variable path_space : if_path_space (F:=F) (geometry:=geometry).
Variable light_sources : if_light_sources (F:=F) (rng:=rng) (geometry:=geometry).
Variable no_intersect : intersect_info (F:=F) (geometry:=geometry).


End FirstHitPass.

Section Tables.
Context {F : Type} `{Scalar F} {rng geometry : Type}.
Variable mats : if_material_container (F:=F) (rng:=rng) (geometry:=geometry).

Abbreviation path_buf := (nat -> sampled_pathlet (F:=F) (rng:=rng) (geometry:=geometry)).

Lemma prefix_transport_loop_length (IMPORTANCE : bool) (path : path_buf) (count : nat) :
  forall k t0 prefix,
    length (prefix_transport_loop mats IMPORTANCE path count k t0 prefix) = length prefix.
Proof.
  induction count as [|count IH]; intros k t0 prefix; cbn [prefix_transport_loop].
  - reflexivity.
  - rewrite IH. apply length_insert.
Qed.

Lemma cond_density_loop_spec (path : path_buf) (count : nat) :
  forall k cd,
    k + count <= length cd ->
    let res := cond_density_loop path count k cd in
    length res = length cd
    /\ (forall j, j < k -> res !! j = cd !! j)
    /\ (forall j, k <= j < k + count -> res !! j = Some (cond_density_at path j)).
Proof.
  induction count as [|count IH]; intros k cd Hlen; cbn [cond_density_loop].
  { split; [reflexivity|]. split; [reflexivity|]. intros j Hj. lia. }
  destruct (IH (k + 1) (<[k := cond_density_at path k]> cd)) as (Hlen' & Hlow & Hnew).
  { rewrite length_insert. lia. }
  rewrite length_insert in Hlen'.
  split; [exact Hlen'|]. split.
  - intros j Hj. rewrite Hlow by lia. apply list_lookup_insert_ne. lia.
  - intros j Hj. destruct (decide (j = k)) as [->|Hne].
    + rewrite Hlow by lia. apply list_lookup_insert_eq. lia.
    + apply Hnew. lia.
Qed.

(** X3 -- The tables of [light_transport_info].  Both tables hold one entry
    per pathlet (none for an empty path).  The conditional density of vertex
    [k] is [dens_k * (n_k . towards_prev_k) / t_k^2], whether importance or
    radiance is transported. *)
Theorem light_transport_info_tables (IMPORTANCE : bool) (path : path_buf) (len : nat) :
  let info := make_light_transport_info mats IMPORTANCE path len in
  length (m_prefix_transport info) = len
  /\ length (m_cond_density info) = len
  /\ forall k, k < len ->
       conditional_density info k
       = fdiv (fmul (dens (path k)) (inner (normal (vert (path k))) (towards_prev (path k))))
              (fmul (hit_t (vert (path k))) (hit_t (vert (path k)))).
Proof.
  unfold make_light_transport_info.
  destruct (Nat.eqb_spec len 0) as [->|Hlen]; cbn [m_prefix_transport m_cond_density].
  { repeat split. intros k Hk. lia. }
  destruct (cond_density_loop_spec path len 0 (replicate len c_0)) as (Hcd & _ & Hnew).
  { rewrite length_replicate. lia. }
  rewrite length_replicate in Hcd.
  split; [|split].
  - rewrite prefix_transport_loop_length, length_insert. apply length_replicate.
  - exact Hcd.
  - intros k Hk. unfold conditional_density; cbn [m_cond_density].
    rewrite Hnew by lia. reflexivity.
Qed.

(** X4 -- Prefix transports are running products.  Entry [k] of a transport
    table is the product, taken from the left starting at 1, of the factors of
    the steps [0 .. k-1]; hence it does not depend on how much longer the
    path is: the tables of a path and of any longer extension agree on their
    common indices. *)
Theorem transport_is_running_product (IMPORTANCE : bool) (path : path_buf) (len len' k : nat) :
  k < len ->
  len <= len' ->
  transport (make_light_transport_info mats IMPORTANCE path len) k
  = foldl vmul (vconst c_1) (map (transport_factor mats IMPORTANCE path) (seq 0 k))
  /\ transport (make_light_transport_info mats IMPORTANCE path len) k
     = transport (make_light_transport_info mats IMPORTANCE path len') k.
Proof.
  intros Hk Hlen.
  assert (Hprod : forall n j, j < n ->
            transport (make_light_transport_info mats IMPORTANCE path n) j
            = foldl vmul (vconst c_1) (map (transport_factor mats IMPORTANCE path) (seq 0 j))).
  { intros n j Hj. destruct (transport_recurrence mats IMPORTANCE path n) as [H0 Hstep]; [lia|].
    induction j as [|j IH]; [exact H0|].
    replace (S j) with (j + 1) by lia.
    rewrite Hstep by lia. rewrite IH by lia.
    rewrite seq_app, map_app, foldl_app. reflexivity. }
  split; [apply Hprod; lia|].
  rewrite !Hprod by lia. reflexivity.
Qed.

End Tables.

Section Weights.
Context {F : Type} `{Scalar F} {rng geometry : Type}.
Variable vequals : vec3 F -> vec3 F -> bool.
Variable path_space : if_path_space (F:=F) (geometry:=geometry).
Variable mats : if_material_container (F:=F) (rng:=rng) (geometry:=geometry).
Variable cam_path : nat -> sampled_pathlet (F:=F) (rng:=rng) (geometry:=geometry).
Variable max_cam_path_len : nat.
Variable light_path : nat -> sampled_pathlet (F:=F) (rng:=rng) (geometry:=geometry).
Variable max_light_path_len : nat.
Variable emission : emission_sample (F:=F).
Variable lt : if_light (F:=F) (rng:=rng).
Variable cam_transport : light_transport_info (F:=F).
Variable light_transport : light_transport_info (F:=F).

Abbreviation step := (strategy_step vequals path_space mats cam_path light_path emission lt
                        cam_transport light_transport).

Lemma strategy_step_weight (w : F) (c l : nat) (sums : color3 F * F) :
  (step w c l sums).2 = if weighted (c, l) then fadd sums.2 w else sums.2.
Proof.
  destruct sums as [R W]. unfold strategy_step, weighted. cbn [fst snd].
  destruct (Nat.eqb l 0), (Nat.eqb c 0); reflexivity.
Qed.

Lemma foldl_step_weight (w : F) (cls : list (nat * nat)) :
  forall sums,
    (foldl (fun s cl => step w cl.1 cl.2 s) sums cls).2
    = Nat.iter (length (filter (fun cl => weighted cl = true) cls)) (fun x => fadd x w) sums.2.
Proof.
  induction cls as [|[c l] cls IH]; intros sums; cbn [foldl fst snd].
  { reflexivity. }
  rewrite IH, strategy_step_weight, filter_cons.
  destruct (decide (weighted (c, l) = true)) as [Hw|Hw].
  - rewrite Hw. cbn [length]. rewrite Nat.iter_succ_r. reflexivity.
  - apply not_true_is_false in Hw. rewrite Hw. reflexivity.
Qed.

End Weights.

Section WeightCount.
Variable tL : nat.

Lemma weighted_spec (c l : nat) : weighted (c, l) = true <-> c <> 0 \/ l = 0.
Proof.
  unfold weighted. cbn [fst snd].
  destruct (Nat.eqb_spec c 0), (Nat.eqb_spec l 0); cbn [negb orb]; split; intros Hw;
    first [reflexivity | lia | discriminate | tauto].
Qed.

Lemma weighted_visited_tail (c : nat) :
  forall l, 1 <= l ->
    length (filter (fun cl => weighted cl = true) (visited tL c l)) = Nat.min c (tL + 1 - l).
Proof.
  induction c as [|c IH]; intros l Hl; cbn [visited];
    destruct (Nat.leb_spec l tL) as [Hle|Hgt]; cbn [negb].
  - rewrite filter_cons.
    destruct (decide (weighted (0, l) = true)) as [Hw|Hw]; [apply weighted_spec in Hw; lia|].
    reflexivity.
  - rewrite filter_nil. cbn [length]. lia.
  - rewrite filter_cons.
    destruct (decide (weighted (S c, l) = true)) as [Hw|Hw].
    2:{ exfalso. apply Hw, weighted_spec. lia. }
    cbn [length]. rewrite IH by lia. lia.
  - rewrite filter_nil. cbn [length]. lia.
Qed.

Lemma weighted_strategies_count (tC plen : nat) :
  length (filter (fun cl => weighted cl = true) (strategies tC tL plen))
  = partition_weight_count tC tL plen.
Proof.
  unfold strategies, partition_weight_count.
  destruct (Nat.leb_spec (plen - 1) tC) as [Hle|Hgt].
  - replace (Nat.min (plen - 1) tC) with (plen - 1) by lia.
    replace (plen - 1 - (plen - 1)) with 0 by lia.
    destruct (plen - 1) as [|c] eqn:Hc; cbn [visited Nat.leb negb].
    + rewrite filter_cons.
      destruct (decide (weighted (0, 0) = true)) as [Hw|Hw].
      2:{ exfalso. apply Hw, weighted_spec. lia. }
      cbn. lia.
    + rewrite filter_cons.
      destruct (decide (weighted (S c, 0) = true)) as [Hw|Hw].
      2:{ exfalso. apply Hw, weighted_spec. lia. }
      cbn [length]. rewrite weighted_visited_tail by lia. lia.
  - replace (Nat.min (plen - 1) tC) with tC by lia.
    rewrite weighted_visited_tail by lia. lia.
Qed.

End WeightCount.

Section PartitionWeight.
Context {F : Type} `{Scalar F} {rng geometry : Type}.
Variable vequals : vec3 F -> vec3 F -> bool.
Variable path_space : if_path_space (F:=F) (geometry:=geometry).
Variable mats : if_material_container (F:=F) (rng:=rng) (geometry:=geometry).

(** X5 -- The weight of a partition depends on the lengths alone.  Whatever
    the scene, the paths and the emission, the weight sum [W] of the partition
    [plen] is 1 added to 0 as many times as the partition has weighted
    strategies, and that number is a function of [plen], [tC] and [tL]:
    [1 + min (plen - 2) tL] when [plen - 1 <= tC], and
    [min tC (tC + tL + 2 - plen)] otherwise. *)
Theorem partition_weight_sum_count
    (cam_path light_path : nat -> sampled_pathlet (F:=F) (rng:=rng) (geometry:=geometry))
    (tC tL : nat) (emission : emission_sample (F:=F)) (lt : if_light (F:=F) (rng:=rng))
    (cam_transport light_transport : light_transport_info (F:=F)) (plen : nat) :
  (partition_sums vequals path_space mats cam_path tC light_path tL emission lt
     cam_transport light_transport plen).2
  = Nat.iter (partition_weight_count tC tL plen) (fun x => fadd x c_1) c_0.
Proof.
  unfold partition_sums.
  rewrite (strategy_loop_visited vequals path_space mats cam_path light_path tL emission lt
             cam_transport light_transport).
  rewrite foldl_step_weight. cbn [snd].
  f_equal. apply (weighted_strategies_count tL tC plen).
Qed.

End PartitionWeight.

Section DirectDraws.
Context {F : Type} `{Scalar F} {rng geometry : Type}.
Variable vequals : vec3 F -> vec3 F -> bool.
Variable path_space : if_path_space (F:=F) (geometry:=geometry).
Variable mats : if_material_container (F:=F) (rng:=rng) (geometry:=geometry).
Variable light_sources : if_light_sources (F:=F) (rng:=rng) (geometry:=geometry).

(** X6 -- What the direct estimator draws.  [transport_direct_illum] advances
    the generator by its [N] light samples and by nothing else: the state it
    returns is the one reached by selecting a light and sampling a point of
    its surface [N] times, whatever the target vertex, the outgoing direction,
    the geometry and the materials. *)
Theorem transport_direct_illum_draws (r : rng) (o : vec3 F) (vert0 : intersect_info) (N : nat) :
  (transport_direct_illum vequals path_space mats light_sources r o vert0 N).2
  = (spec_light_points light_sources N r).2.
Proof.
  unfold transport_direct_illum. rewrite direct_illum_loop_spec.
  destruct (spec_light_points light_sources N r) as [samples r']. reflexivity.
Qed.

End DirectDraws.

Section Density.
Context {F : Type} `{Scalar F} {rng geometry : Type}.

Abbreviation path_buf := (nat -> sampled_pathlet (F:=F) (rng:=rng) (geometry:=geometry)).

Lemma subpath_density_loop_product (sampled_path : path_buf) (count : nat) :
  forall k acc,
    subpath_density_loop sampled_path count k acc
    = foldl fmul acc (map (subpath_density_factor sampled_path) (seq k count)).
Proof.
  induction count as [|count IH]; intros k acc; cbn [subpath_density_loop seq map foldl].
  - reflexivity.
  - rewrite IH. replace (k + 1) with (S k) by lia. reflexivity.
Qed.

(** X7 -- [subpath_density].  The density of the empty subpath is 0.  The
    density of a subpath of [n + 1] pathlets is the density given to the first
    vertex multiplied, from the left, by the factors of the vertices
    [1 .. n]; in particular a subpath one pathlet longer has the density of
    the shorter one times the factor of the added vertex. *)
Theorem subpath_density_product (src_point_dens : F) (sampled_path : path_buf) (n : nat) :
  subpath_density src_point_dens sampled_path 0 = c_0
  /\ subpath_density src_point_dens sampled_path (S n)
     = foldl fmul (subpath_density_head src_point_dens sampled_path)
         (map (subpath_density_factor sampled_path) (seq 1 n))
  /\ subpath_density src_point_dens sampled_path (S (S n))
     = fmul (subpath_density src_point_dens sampled_path (S n))
            (subpath_density_factor sampled_path (S n)).
Proof.
  assert (Hprod : forall m,
            subpath_density src_point_dens sampled_path (S m)
            = foldl fmul (subpath_density_head src_point_dens sampled_path)
                (map (subpath_density_factor sampled_path) (seq 1 m))).
  { intros m. unfold subpath_density. cbn [Nat.eqb].
    replace (S m - 1) with m by lia. apply subpath_density_loop_product. }
  split; [reflexivity|]. split; [apply Hprod|].
  rewrite !Hprod. rewrite seq_S, map_app, foldl_app. reflexivity.
Qed.

End Density.

Section Images.
Context {F : Type} `{Scalar F} {rng geometry : Type}.
Variable rng_draw : rng -> F * rng.
Variable vequals : vec3 F -> vec3 F -> bool.
Variable path_space : if_path_space (F:=F) (geometry:=geometry).
Variable mats : if_material_container (F:=F) (rng:=rng) (geometry:=geometry).
Variable light_sources : if_light_sources (F:=F) (rng:=rng) (geometry:=geometry).
Variable rays : list (ray (F:=F)).
Variable first_hits : list (hit (F:=F) (rng:=rng) (geometry:=geometry)).

(** Every case of a pixel body stores at most one pixel. *)
Ltac pixel_length :=
  repeat (case_match; simplify_eq);
  rewrite ?length_insert; done.

Lemma position_pixel_length (j : nat) (rad : list (vec3 F)) :
  length (position_pixel path_space first_hits j rad) = length rad.
Proof. unfold position_pixel. pixel_length. Qed.

Lemma normal_pixel_length (j : nat) (rad : list (vec3 F)) :
  length (normal_pixel first_hits j rad) = length rad.
Proof. unfold normal_pixel. pixel_length. Qed.

Lemma direct_pixel_length (j : nat) (r : rng) (rad rad' : list (vec3 F)) (r' : rng) :
  direct_pixel vequals path_space mats light_sources rays first_hits j r rad = Some (rad', r') ->
  length rad' = length rad.
Proof. unfold direct_pixel. intros Hrun. pixel_length. Qed.

Lemma unidirect_pixel_length (fuel j : nat) (r : rng) (rad rad' : list (vec3 F)) (r' : rng) :
  unidirect_pixel rng_draw path_space mats light_sources fuel rays first_hits j r rad
    = Some (rad', r') ->
  length rad' = length rad.
Proof. unfold unidirect_pixel. intros Hrun. pixel_length. Qed.

Lemma unidirect_lt1_pixel_length (fuel j : nat) (r : rng) (rad rad' : list (vec3 F)) (r' : rng) :
  unidirect_lt1_pixel rng_draw vequals path_space mats light_sources fuel rays first_hits j r rad
    = Some (rad', r') ->
  length rad' = length rad.
Proof. unfold unidirect_lt1_pixel. intros Hrun. pixel_length. Qed.

Lemma bidirect_lt2_pixel_length (fuel j : nat) (r : rng) (rad rad' : list (vec3 F)) (r' : rng) :
  bidirect_lt2_pixel rng_draw vequals path_space mats light_sources fuel rays first_hits j r rad
    = Some (rad', r') ->
  length rad' = length rad.
Proof. unfold bidirect_lt2_pixel. intros Hrun. pixel_length. Qed.

(** A pixel of the bidirectional MIS integrator completes for every state of
    the generator and of the scratch arrays. *)
Lemma bidirect_mis_pixel_total (m_max_path_len j : nat) (st : mis_state) :
  exists st',
    bidirect_mis_pixel vequals path_space mats light_sources m_max_path_len rays first_hits j st
      = Some st'
    /\ length (mis_rad st') = length (mis_rad st).
Proof.
  unfold bidirect_mis_pixel.
  destruct (rays !! j) as [cam_path0|]; [|eauto].
  destruct (first_hits !! j) as [hj|]; [|eauto].
  destruct (sample_path_first_hit_total path_space mats m_max_path_len (mis_rng st)
              (mis_cam_path st) cam_path0 hj m_max_path_len)
    as (cam_len & cam_path & r1 & Hcam & _); [lia|].
  rewrite Hcam.
  destruct (sample_illum_source light_sources r1) as [[lt emission] r2].
  destruct (sample_path_dens0_total path_space mats m_max_path_len r2 (mis_light_path st)
              (mk_ray (p (surface emission)) (w emission)) (solid_angle_dens emission)
              m_max_path_len)
    as (light_len & light_path & r3 & Hlight); [lia|].
  rewrite Hlight. eexists. split; [reflexivity|]. cbn [mis_rad]. apply length_insert.
Qed.

Lemma bidirect_mis_loop_total (m_max_path_len count : nat) :
  forall j st,
    exists st',
      bidirect_mis_loop vequals path_space mats light_sources m_max_path_len rays first_hits
        count j st = Some st'
      /\ length (mis_rad st') = length (mis_rad st).
Proof.
  induction count as [|count IH]; intros j st; cbn [bidirect_mis_loop].
  { eauto. }
  destruct (bidirect_mis_pixel_total m_max_path_len j st) as (st1 & -> & Hlen1).
  destruct (IH (j + 1) st1) as (st2 & Hrun & Hlen2).
  exists st2. split; [exact Hrun|]. congruence.
Qed.

(** X8 -- One radiance per pixel.  The two debugging tracers and the direct
    integrator return as many radiances as there are first hits, the other
    integrators as many as there are rays.  The direct and the bidirectional
    MIS integrators complete on every input; the three recursive estimators
    may exhaust any given recursion budget, and return an image of that size
    whenever they return. *)
Theorem images_have_one_entry_per_pixel (r : rng) :
  length (position_tracer_sample path_space r rays first_hits).1 = length first_hits
  /\ length (normal_tracer_sample r rays first_hits).1 = length first_hits
  /\ (exists rad r',
        direct_path_tracer_sample vequals path_space mats light_sources r rays first_hits
          = Some (rad, r')
        /\ length rad = length first_hits)
  /\ (forall fuel rad r',
        unidirect_path_tracer_sample rng_draw path_space mats light_sources fuel r rays
          first_hits = Some (rad, r') ->
        length rad = length rays)
  /\ (forall fuel rad r',
        unidirect_lt1_path_tracer_sample rng_draw vequals path_space mats light_sources fuel r
          rays first_hits = Some (rad, r') ->
        length rad = length rays)
  /\ (forall fuel rad r',
        bidirect_lt2_path_tracer_sample rng_draw vequals path_space mats light_sources fuel r
          rays first_hits = Some (rad, r') ->
        length rad = length rays)
  /\ (forall m_max_path_len cam_buf light_buf,
        exists rad r',
          bidirect_mis_path_tracer_sample vequals path_space mats light_sources m_max_path_len
            cam_buf light_buf r rays first_hits = Some (rad, r')
          /\ length rad = length rays).
Proof.
  split; [|split; [|split; [|split; [|split; [|split]]]]].
  - cbn [position_tracer_sample fst].
    apply (pixel_loop_invariant (fun rad => length rad = length first_hits)).
    + intros j rad Hrad. rewrite position_pixel_length. exact Hrad.
    + apply length_replicate.
  - cbn [normal_tracer_sample fst].
    apply (pixel_loop_invariant (fun rad => length rad = length first_hits)).
    + intros j rad Hrad. rewrite normal_pixel_length. exact Hrad.
    + apply length_replicate.
  - unfold direct_path_tracer_sample.
    destruct (sampling_loop_total
                (direct_pixel vequals path_space mats light_sources rays first_hits)
                (direct_pixel_total vequals path_space mats light_sources rays first_hits)
                (length rays) 0 r (replicate (length first_hits) vzero))
      as [[rad r'] Hrun].
    exists rad, r'. split; [exact Hrun|].
    eapply (sampling_loop_invariant (fun rad => length rad = length first_hits));
      [|exact Hrun|apply length_replicate].
    intros j r0 rad0 rad1 r1 Hstep Hrad. rewrite (direct_pixel_length _ _ _ _ _ Hstep). exact Hrad.
  - intros fuel rad r' Hrun. unfold unidirect_path_tracer_sample in Hrun.
    eapply (sampling_loop_invariant (fun rad => length rad = length rays));
      [|exact Hrun|apply length_replicate].
    intros j r0 rad0 rad1 r1 Hstep Hrad.
    rewrite (unidirect_pixel_length _ _ _ _ _ _ Hstep). exact Hrad.
  - intros fuel rad r' Hrun. unfold unidirect_lt1_path_tracer_sample in Hrun.
    eapply (sampling_loop_invariant (fun rad => length rad = length rays));
      [|exact Hrun|apply length_replicate].
    intros j r0 rad0 rad1 r1 Hstep Hrad.
    rewrite (unidirect_lt1_pixel_length _ _ _ _ _ _ Hstep). exact Hrad.
  - intros fuel rad r' Hrun. unfold bidirect_lt2_path_tracer_sample in Hrun.
    eapply (sampling_loop_invariant (fun rad => length rad = length rays));
      [|exact Hrun|apply length_replicate].
    intros j r0 rad0 rad1 r1 Hstep Hrad.
    rewrite (bidirect_lt2_pixel_length _ _ _ _ _ _ Hstep). exact Hrad.
  - intros m_max_path_len cam_buf light_buf. unfold bidirect_mis_path_tracer_sample.
    destruct (bidirect_mis_loop_total m_max_path_len (length rays) 0
                (mk_mis_state (replicate (length rays) vzero) cam_buf light_buf r))
      as (st' & -> & Hlen).
    exists (mis_rad st'), (mis_rng st'). split; [reflexivity|].
    rewrite Hlen. cbn [mis_rad]. apply length_replicate.
Qed.

Lemma take_S_insert {A : Type} (l : list A) (i : nat) (x : A) :
  i < length l -> take (S i) (<[i := x]> l) = take i l ++ [x].
Proof.
  intros Hi. rewrite (take_S_r (<[i := x]> l) i x) by (apply list_lookup_insert_eq; lia).
  rewrite take_insert_ge by lia. reflexivity.
Qed.

(** The loop of the direct integrator paints the pixels from left to right. *)
Lemma direct_loop_pixels (count : nat) :
  length rays = length first_hits ->
  forall i r rad,
    i + count = length rays ->
    length rad = length rays ->
    (forall j, i <= j < length rays -> rad !! j = Some vzero) ->
    sampling_loop (direct_pixel vequals path_space mats light_sources rays first_hits)
      count i r rad
    = let '(cs, r') :=
        direct_pixels vequals path_space mats light_sources r (drop i (zip rays first_hits)) in
      Some (take i rad ++ cs, r').
Proof.
  intros Hsame. induction count as [|count IH]; intros i r rad Hi Hlen Hzero;
    cbn [sampling_loop].
  { rewrite drop_ge by (rewrite length_zip; lia). cbn [direct_pixels].
    rewrite take_ge by lia. rewrite app_nil_r. reflexivity. }
  destruct (lookup_lt_is_Some_2 rays i) as [ry Hry]; [lia|].
  destruct (lookup_lt_is_Some_2 first_hits i) as [h Hh]; [lia|].
  assert (Hzip : zip rays first_hits !! i = Some (ry, h)).
  { apply lookup_zip_with_Some. eauto. }
  rewrite (drop_S _ _ _ Hzip). cbn [direct_pixels].
  unfold direct_pixel at 1. rewrite Hry, Hh.
  replace (i + 1) with (S i) by lia.
  destruct (valid (hit_intersect h)).
  - destruct (transport_direct_illum vequals path_space mats light_sources r
                (vneg (ray_v ry)) (hit_intersect h) 1) as [d r1].
    destruct (hit_light h) as [l0|].
    + rewrite IH; rewrite ?length_insert; try lia.
      2:{ intros j Hj. rewrite list_lookup_insert_ne by lia. apply Hzero. lia. }
      destruct (direct_pixels _ _ _ _ r1 _) as [cs r2].
      rewrite take_S_insert by lia. rewrite <- app_assoc. reflexivity.
    + rewrite IH; rewrite ?length_insert; try lia.
      2:{ intros j Hj. rewrite list_lookup_insert_ne by lia. apply Hzero. lia. }
      destruct (direct_pixels _ _ _ _ r1 _) as [cs r2].
      rewrite take_S_insert by lia. rewrite <- app_assoc. reflexivity.
  - rewrite IH; try lia.
    2:{ intros j Hj. apply Hzero. lia. }
    destruct (direct_pixels _ _ _ _ r _) as [cs r2].
    rewrite (take_S_r rad i vzero) by (apply Hzero; lia).
    rewrite <- app_assoc. reflexivity.
Qed.

(** X9 -- The image of the direct integrator.  Given one first hit per ray,
    the image is computed pixel after pixel, the generator being handed from
    each pixel to the next: a pixel without a valid first hit is black and
    draws nothing; a pixel with one holds [transport_direct_illum] with one
    light sample at its first hit, towards [-dir], plus the projected radiance
    of the light recorded in the hit, if any. *)
Theorem direct_image_pixel_by_pixel (r : rng) :
  length rays = length first_hits ->
  direct_path_tracer_sample vequals path_space mats light_sources r rays first_hits
  = Some (direct_pixels vequals path_space mats light_sources r (zip rays first_hits)).
Proof.
  intros Hsame. unfold direct_path_tracer_sample.
  rewrite direct_loop_pixels; rewrite ?length_replicate; try lia.
  - rewrite drop_0. destruct (direct_pixels _ _ _ _ r _) as [cs r']. reflexivity.
  - intros j Hj. apply lookup_replicate_2. lia.
Qed.

End Images.

Section EmptyScene.
Context {F : Type} `{Scalar F} {rng geometry : Type}.
Variable rng_draw : rng -> F * rng.
Variable vequals : vec3 F -> vec3 F -> bool.
Variable path_space : if_path_space (F:=F) (geometry:=geometry).
Variable mats : if_material_container (F:=F) (rng:=rng) (geometry:=geometry).
Variable light_sources : if_light_sources (F:=F) (rng:=rng) (geometry:=geometry).
Variable rays : list (ray (F:=F)).
Variable first_hits : list (hit (F:=F) (rng:=rng) (geometry:=geometry)).

Lemma sampling_loop_skip
    (body : nat -> rng -> list (vec3 F) -> option (list (vec3 F) * rng)) :
  (forall j r rad, body j r rad = Some (rad, r)) ->
  forall count i r rad, sampling_loop body count i r rad = Some (rad, r).
Proof.
  intros Hbody. induction count as [|count IH]; intros i r rad; cbn [sampling_loop].
  - reflexivity.
  - rewrite Hbody. apply IH.
Qed.

Lemma pixel_loop_skip (body : nat -> list (vec3 F) -> list (vec3 F)) (rad : list (vec3 F)) :
  (forall j, body j rad = rad) ->
  forall count i, pixel_loop body count i rad = rad.
Proof.
  intros Hbody. induction count as [|count IH]; intros i; cbn [pixel_loop].
  - reflexivity.
  - rewrite Hbody. apply IH.
Qed.

Ltac skip_pixel Hinvalid :=
  repeat match goal with
         | |- context [match ?l !! ?j with _ => _ end] => destruct (l !! j) eqn:?
         end;
  try reflexivity;
  match goal with
  | Hh : first_hits !! _ = Some _ |- _ => rewrite (Hinvalid _ _ Hh); reflexivity
  end.

Lemma bidirect_mis_loop_black_image (m_max_path_len n count : nat) :
  all_invalid first_hits ->
  forall j st,
    mis_rad st = replicate n vzero ->
    exists st',
      bidirect_mis_loop vequals path_space mats light_sources m_max_path_len rays first_hits
        count j st = Some st'
      /\ mis_rad st' = replicate n vzero.
Proof.
  intros Hinvalid. induction count as [|count IH]; intros j st Hrad; cbn [bidirect_mis_loop].
  { eauto. }
  assert (Hpixel : exists st1,
            bidirect_mis_pixel vequals path_space mats light_sources m_max_path_len rays
              first_hits j st = Some st1
            /\ mis_rad st1 = replicate n vzero).
  { unfold bidirect_mis_pixel.
    destruct (rays !! j) as [cam_path0|]; [|eauto].
    destruct (first_hits !! j) as [hj|] eqn:Hj; [|eauto].
    destruct (sample_path_first_hit_total path_space mats m_max_path_len (mis_rng st)
                (mis_cam_path st) cam_path0 hj m_max_path_len)
      as (cam_len & cam_path & r1 & Hcam & Hzero); [lia|].
    rewrite Hcam, (Hzero (Hinvalid _ _ Hj)).
    destruct (sample_illum_source light_sources r1) as [[lt emission] r2].
    destruct (sample_path_dens0_total path_space mats m_max_path_len r2 (mis_light_path st)
                (mk_ray (p (surface emission)) (w emission)) (solid_angle_dens emission)
                m_max_path_len)
      as (light_len & light_path & r3 & Hlight); [lia|].
    rewrite Hlight. eexists. split; [reflexivity|]. cbn [mis_rad].
    rewrite Hrad. apply insert_replicate. }
  destruct Hpixel as (st1 & -> & Hrad1). apply IH. exact Hrad1.
Qed.

(** X10 -- A frame without first hits is black.  When no first hit is valid,
    every integrator returns the image whose radiances are all [(0,0,0)].
    The recursive estimators do so whatever their recursion budget, and no
    integrator but the bidirectional MIS one, which samples a light for every
    pixel, advances the generator. *)
Theorem no_first_hit_black_image (r : rng) :
  all_invalid first_hits ->
  position_tracer_sample path_space r rays first_hits
    = (replicate (length first_hits) vzero, r)
  /\ normal_tracer_sample r rays first_hits = (replicate (length first_hits) vzero, r)
  /\ direct_path_tracer_sample vequals path_space mats light_sources r rays first_hits
     = Some (replicate (length first_hits) vzero, r)
  /\ (forall fuel,
        unidirect_path_tracer_sample rng_draw path_space mats light_sources fuel r rays
          first_hits = Some (replicate (length rays) vzero, r))
  /\ (forall fuel,
        unidirect_lt1_path_tracer_sample rng_draw vequals path_space mats light_sources fuel r
          rays first_hits = Some (replicate (length rays) vzero, r))
  /\ (forall fuel,
        bidirect_lt2_path_tracer_sample rng_draw vequals path_space mats light_sources fuel r
          rays first_hits = Some (replicate (length rays) vzero, r))
  /\ (forall m_max_path_len cam_buf light_buf,
        exists r',
          bidirect_mis_path_tracer_sample vequals path_space mats light_sources m_max_path_len
            cam_buf light_buf r rays first_hits = Some (replicate (length rays) vzero, r')).
Proof.
  intros Hinvalid.
  split; [|split; [|split; [|split; [|split; [|split]]]]].
  - unfold position_tracer_sample. f_equal. apply pixel_loop_skip.
    intros j. unfold position_pixel.
    destruct (first_hits !! j) as [h|] eqn:Hh; [|reflexivity].
    rewrite (Hinvalid _ _ Hh). apply insert_replicate.
  - unfold normal_tracer_sample. f_equal. apply pixel_loop_skip.
    intros j. unfold normal_pixel.
    destruct (first_hits !! j) as [h|] eqn:Hh; [|reflexivity].
    rewrite (Hinvalid _ _ Hh). apply insert_replicate.
  - unfold direct_path_tracer_sample. apply sampling_loop_skip.
    intros j r0 rad. unfold direct_pixel. skip_pixel Hinvalid.
  - intros fuel. unfold unidirect_path_tracer_sample. apply sampling_loop_skip.
    intros j r0 rad. unfold unidirect_pixel. skip_pixel Hinvalid.
  - intros fuel. unfold unidirect_lt1_path_tracer_sample. apply sampling_loop_skip.
    intros j r0 rad. unfold unidirect_lt1_pixel. skip_pixel Hinvalid.
  - intros fuel. unfold bidirect_lt2_path_tracer_sample. apply sampling_loop_skip.
    intros j r0 rad. unfold bidirect_lt2_pixel. skip_pixel Hinvalid.
  - intros m_max_path_len cam_buf light_buf. unfold bidirect_mis_path_tracer_sample.
    destruct (bidirect_mis_loop_black_image m_max_path_len (length rays) (length rays)
                Hinvalid 0
                (mk_mis_state (replicate (length rays) vzero) cam_buf light_buf r) eq_refl)
      as (st' & -> & Hrad).
    exists (mis_rng st'). rewrite Hrad. reflexivity.
Qed.

End EmptyScene.

Section FurtherRuns.
Import TwoPlanes Void.

Lemma sample_path_chain_witness :
  walk_link planes materials cam_buf 1 /\ walk_link planes materials cam_buf 2.
Proof.
  assert (Hrun : sample_path_entry planes materials 3 steady fresh_buf
                   (from_first_hit cam_ray floor_hit) 3 = Some (3, cam_buf, [1%float])).
  { vm_compute. reflexivity. }
  split.
  - apply (sample_path_chain planes materials 3 steady fresh_buf
             (from_first_hit cam_ray floor_hit) 3 3 cam_buf [1%float] I Hrun 1).
    cbn. lia.
  - apply (sample_path_chain planes materials 3 steady fresh_buf
             (from_first_hit cam_ray floor_hit) 3 3 cam_buf [1%float] I Hrun 2).
    cbn. lia.
Defined.

Lemma transport_is_running_product_witness :
  transport (make_light_transport_info materials false cam_buf 2) 1
  = foldl vmul (vconst c_1) (map (transport_factor materials false cam_buf) (seq 0 1))
  /\ transport (make_light_transport_info materials false cam_buf 2) 1
     = transport (make_light_transport_info materials false cam_buf 3) 1.
Proof.
  apply (transport_is_running_product materials false cam_buf 2 3 1); lia.
Defined.

Lemma direct_image_pixel_by_pixel_witness :
  direct_path_tracer_sample vec_equals planes materials lights steady
    [cam_ray; stray_ray] [floor_hit; no_hit]
  = Some (direct_pixels vec_equals planes materials lights steady
            (zip [cam_ray; stray_ray] [floor_hit; no_hit])).
Proof.
  apply (direct_image_pixel_by_pixel vec_equals planes materials lights
           [cam_ray; stray_ray] [floor_hit; no_hit] steady).
  reflexivity.
Defined.

Lemma void_hits_invalid : all_invalid void_hits.
Proof.
  intros i h Hh.
  apply (empty_scene_first_hits void lights miss void_rays i h); [reflexivity|reflexivity|exact Hh].
Defined.

Lemma no_first_hit_black_image_witness :
  direct_path_tracer_sample vec_equals void materials lights steady void_rays void_hits
    = Some (replicate 2 vzero, steady)
  /\ exists r',
       bidirect_mis_path_tracer_sample vec_equals void materials lights 3 fresh_buf fresh_buf
         steady void_rays void_hits = Some (replicate 2 vzero, r').
Proof.
  destruct (no_first_hit_black_image draw vec_equals void materials lights void_rays void_hits
              steady void_hits_invalid)
    as (_ & _ & Hdirect & _ & _ & _ & Hmis).
  split; [exact Hdirect|]. exact (Hmis 3 fresh_buf fresh_buf).
Defined.

End FurtherRuns.

(** * Properties of the scene objects *)

Section ObjIds.
Variable id_bits : N.

Lemma next_obj_ids_run (count : nat) :
  forall c : N,
    (c + N.of_nat count <= 2 ^ id_bits)%N ->
    (Obj.next_obj_ids id_bits count c).1 = map (fun k => (c + N.of_nat k)%N) (seq 0 count).
Proof.
  induction count as [|count IH]; intros c Hroom; cbn [Obj.next_obj_ids].
  { reflexivity. }
  unfold Obj.next_obj_id.
  destruct (Obj.next_obj_ids id_bits count ((c + 1) mod 2 ^ id_bits)%N) as [ids c2] eqn:Hrest.
  cbn [fst seq map]. f_equal; [f_equal; lia|].
  destruct count as [|count'].
  { cbn [Obj.next_obj_ids] in Hrest. injection Hrest as <- _. reflexivity. }
  rewrite N.mod_small in Hrest by lia.
  change ids with (ids, c2).1. rewrite <- Hrest. rewrite IH by lia.
  rewrite <- seq_shift, map_map. apply map_ext. intros k. lia.
Qed.

(** X11 -- Fresh identifiers.  As long as the counter does not pass the
    largest [obj_id_t], the identifiers handed out by [count] calls of
    [next_obj_id] in a row are the consecutive numbers starting at the value
    of the counter (101 at start-up): no identifier is handed out twice. *)
Theorem next_obj_ids_fresh (count : nat) (c : N) :
  (c + N.of_nat count <= 2 ^ id_bits)%N ->
  (Obj.next_obj_ids id_bits count c).1 = map (fun k => (c + N.of_nat k)%N) (seq 0 count)
  /\ NoDup (Obj.next_obj_ids id_bits count c).1.
Proof.
  intros Hroom. rewrite (next_obj_ids_run count c Hroom). split; [reflexivity|].
  apply NoDup_fmap_2; [|apply NoDup_seq].
  intros k1 k2 Heq. lia.
Qed.

End ObjIds.

Section StageNames.

Lemma size_list_to_set_le (l : list string) : size (list_to_set l : gset string) <= length l.
Proof.
  induction l as [|x l IH]; cbn [list_to_set length].
  - rewrite size_empty. lia.
  - destruct (decide (x ∈ (list_to_set l : gset string))) as [Hin|Hnin].
    + assert (Hsame : {[x]} ∪ list_to_set l = (list_to_set l : gset string)).
      { apply subseteq_union_1_L, singleton_subseteq_l. exact Hin. }
      rewrite Hsame. lia.
    + rewrite size_union by set_solver. rewrite size_singleton. lia.
Qed.

Lemma size_list_to_set_NoDup (l : list string) :
  size (list_to_set l : gset string) = length l <-> NoDup l.
Proof.
  split; [|apply size_list_to_set].
  induction l as [|x l IH]; cbn [list_to_set length]; intros Hsize; [constructor|].
  pose proof (size_list_to_set_le l) as Hle.
  destruct (decide (x ∈ (list_to_set l : gset string))) as [Hin|Hnin].
  - assert (Hsame : {[x]} ∪ list_to_set l = (list_to_set l : gset string)).
    { apply subseteq_union_1_L, singleton_subseteq_l. exact Hin. }
    rewrite Hsame in Hsize. lia.
  - rewrite size_union in Hsize by set_solver. rewrite size_singleton in Hsize.
    constructor; [set_solver|]. apply IH. lia.
Qed.

End StageNames.

Section ObjInit.
Context {mat44 : Type}.
Variable mat44_scale_one : mat44.

Abbreviation if_obj := (Obj.if_obj (mat44:=mat44)).

(** X12 -- [init_blueprint].  It goes through exactly when the stage names
    are pairwise different.  It then replaces the blueprint, whatever it was,
    by the given stages in their order, each with the matrix
    [mat44_scale(1)], and touches nothing else; in particular it does not
    mark the object dirty. *)
Theorem init_blueprint_spec (o : if_obj) (stages : list string) :
  (is_Some (Obj.init_blueprint mat44_scale_one o stages) <-> NoDup stages)
  /\ forall o',
       Obj.init_blueprint mat44_scale_one o stages = Some o' ->
       Obj.m_blueprint o' = map (fun s => (s, mat44_scale_one)) stages
       /\ map fst (Obj.m_blueprint o') = stages
       /\ Obj.m_id o' = Obj.m_id o /\ Obj.m_mgr o' = Obj.m_mgr o
       /\ Obj.m_parent o' = Obj.m_parent o /\ Obj.m_dirty o' = Obj.m_dirty o
       /\ Obj.m_children o' = Obj.m_children o.
Proof.
  unfold Obj.init_blueprint. split.
  - rewrite <- size_list_to_set_NoDup.
    destruct (Nat.eqb_spec (size (list_to_set stages : gset string)) (length stages)).
    + split; [auto|eauto].
    + split; [intros [? [=]]|tauto].
  - intros o' Hinit. destruct (Nat.eqb _ _); [|discriminate].
    injection Hinit as <-. cbn. repeat split.
    rewrite map_map. cbn. apply map_id.
Qed.

Lemma init_blueprint_names (o : if_obj) (stages : list string) :
  is_Some (Obj.init_blueprint mat44_scale_one o stages) -> NoDup stages.
Proof.
  unfold Obj.init_blueprint. intros [o' Hinit].
  destruct (Nat.eqb_spec (size (list_to_set stages : gset string)) (length stages));
    [|discriminate].
  apply size_list_to_set_NoDup. assumption.
Qed.

End ObjInit.

Section ObjBlueprint.
Context {mat44 : Type}.
Variable mat44_scale_one : mat44.
Variable mat_neq : mat44 -> mat44 -> bool.

Abbreviation if_obj := (Obj.if_obj (mat44:=mat44)).
Abbreviation stage_t := (string * mat44)%type.

(** The scan leaves the blueprint alone exactly when no stage has the name of
    [stage] together with a different matrix. *)
Lemma update_blueprint_None (blueprint : list stage_t) (stage : stage_t) :
  Obj.update_blueprint mat_neq blueprint stage = None
  <-> forall it, it ∈ blueprint -> it.1 = stage.1 -> mat_neq it.2 stage.2 = false.
Proof.
  induction blueprint as [|it rest IH]; cbn [Obj.update_blueprint].
  { split; [intros _ it Hin; inversion Hin|reflexivity]. }
  destruct (bool_decide (it.1 = stage.1) && mat_neq it.2 stage.2) eqn:Hhead.
  - split; [discriminate|]. intros Hall.
    apply andb_true_iff in Hhead as [Hname Hneq]. apply bool_decide_eq_true in Hname.
    rewrite (Hall it) in Hneq; [discriminate|left|exact Hname].
  - destruct (Obj.update_blueprint mat_neq rest stage) as [rest'|] eqn:Hrest.
    + split; [discriminate|]. intros Hall.
      assert (Hcontra : Some rest' = None); [|discriminate].
      apply IH. intros it' Hin. apply Hall. right. exact Hin.
    + split; [|reflexivity]. intros _ it' Hin Hname.
      apply elem_of_cons in Hin as [->|Hin].
      * apply andb_false_iff in Hhead as [Hhead|Hhead]; [|exact Hhead].
        apply bool_decide_eq_false in Hhead. contradiction.
      * apply IH; auto.
Qed.

(** A successful scan rewrites one stage: the first one with that name and a
    different matrix. *)
Lemma update_blueprint_Some (blueprint blueprint' : list stage_t) (stage : stage_t) :
  Obj.update_blueprint mat_neq blueprint stage = Some blueprint' ->
  exists k m,
    blueprint !! k = Some (stage.1, m)
    /\ mat_neq m stage.2 = true
    /\ blueprint' = <[k := stage]> blueprint
    /\ forall j it, j < k -> blueprint !! j = Some it ->
         it.1 = stage.1 -> mat_neq it.2 stage.2 = false.
Proof.
  revert blueprint'. induction blueprint as [|it rest IH]; intros blueprint' Hscan;
    cbn [Obj.update_blueprint] in Hscan; [discriminate|].
  destruct (bool_decide (it.1 = stage.1) && mat_neq it.2 stage.2) eqn:Hhead.
  - injection Hscan as <-.
    apply andb_true_iff in Hhead as [Hname Hneq]. apply bool_decide_eq_true in Hname.
    exists 0, it.2. destruct it as [name m], stage as [sname sm]. cbn in *. subst name.
    repeat split; auto. intros j it Hj. lia.
  - destruct (Obj.update_blueprint mat_neq rest stage) as [rest'|]; [|discriminate].
    injection Hscan as <-.
    destruct (IH rest' eq_refl) as (k & m & Hk & Hneq & Hrest & Hfirst).
    exists (S k), m. repeat split; auto.
    + rewrite Hrest. reflexivity.
    + intros [|j] it' Hj Hit' Hname; cbn in Hit'.
      * injection Hit' as <-.
        apply andb_false_iff in Hhead as [Hhead|Hhead]; [|exact Hhead].
        apply bool_decide_eq_false in Hhead. contradiction.
      * apply (Hfirst j it'); [lia|exact Hit'|exact Hname].
Qed.

(** X13 -- [update_stage].  It returns [false], and then leaves the object
    exactly as it was, precisely when no stage of the blueprint has the given
    name together with a different matrix (an unknown name included).
    Otherwise it returns [true], marks the object dirty and rewrites a single
    stage, the first one with that name and a different matrix, which takes
    the given matrix: the names of the stages and their order never change. *)
Theorem update_stage_spec (o : if_obj) (stage : stage_t) :
  ((Obj.update_stage mat_neq o stage).1 = false
   <-> forall it, it ∈ Obj.m_blueprint o -> it.1 = stage.1 -> mat_neq it.2 stage.2 = false)
  /\ ((Obj.update_stage mat_neq o stage).1 = false -> (Obj.update_stage mat_neq o stage).2 = o)
  /\ ((Obj.update_stage mat_neq o stage).1 = true ->
      let o' := (Obj.update_stage mat_neq o stage).2 in
      Obj.dirty o' = true
      /\ map fst (Obj.m_blueprint o') = map fst (Obj.m_blueprint o)
      /\ Obj.m_id o' = Obj.m_id o /\ Obj.m_mgr o' = Obj.m_mgr o
      /\ Obj.m_parent o' = Obj.m_parent o /\ Obj.m_children o' = Obj.m_children o
      /\ exists k m,
           Obj.m_blueprint o !! k = Some (stage.1, m)
           /\ mat_neq m stage.2 = true
           /\ Obj.m_blueprint o' = <[k := stage]> (Obj.m_blueprint o)
           /\ forall j it, j < k -> Obj.m_blueprint o !! j = Some it ->
                it.1 = stage.1 -> mat_neq it.2 stage.2 = false).
Proof.
  unfold Obj.update_stage.
  destruct (Obj.update_blueprint mat_neq (Obj.m_blueprint o) stage) as [blueprint'|] eqn:Hscan;
    cbn [fst snd].
  - split; [|split]; [|discriminate|].
    + split; [discriminate|]. intros Hall. apply update_blueprint_None in Hall. congruence.
    + intros _. destruct (update_blueprint_Some _ _ _ Hscan) as (k & m & Hk & Hneq & Hnew & Hfirst).
      cbv zeta.
      cbn [Obj.mark_dirty Obj.dirty Obj.m_dirty Obj.m_blueprint Obj.m_id Obj.m_mgr Obj.m_parent
           Obj.m_children].
      repeat split.
      * rewrite Hnew. apply list_eq. intros j. rewrite !list_lookup_fmap.
        destruct (decide (j = k)) as [->|Hne].
        -- rewrite list_lookup_insert_eq by (eapply lookup_lt_Some; eauto). rewrite Hk. reflexivity.
        -- rewrite list_lookup_insert_ne by done. reflexivity.
      * exists k, m. auto.
  - split; [|split]; [|reflexivity|discriminate].
    split; [|reflexivity]. intros _. apply update_blueprint_None. exact Hscan.
Qed.

(** X14 -- [update_stage] is idempotent.  On a blueprint whose stage names are
    pairwise different (as [init_blueprint] leaves it), and for a matrix that
    does not differ from itself, a second call with the same stage returns
    [false] and changes nothing. *)
Theorem update_stage_twice (o : if_obj) (stage : stage_t) :
  NoDup (map fst (Obj.m_blueprint o)) ->
  mat_neq stage.2 stage.2 = false ->
  Obj.update_stage mat_neq (Obj.update_stage mat_neq o stage).2 stage
  = (false, (Obj.update_stage mat_neq o stage).2).
Proof.
  intros Hnames Hrefl.
  assert (Hnone : Obj.update_blueprint mat_neq
                    (Obj.m_blueprint (Obj.update_stage mat_neq o stage).2) stage = None).
  { unfold Obj.update_stage.
    destruct (Obj.update_blueprint mat_neq (Obj.m_blueprint o) stage) as [blueprint'|] eqn:Hscan;
      cbn [snd]; [|exact Hscan].
    cbn [Obj.mark_dirty Obj.m_blueprint].
    destruct (update_blueprint_Some _ _ _ Hscan) as (k & m & Hk & _ & -> & _).
    apply update_blueprint_None. intros it Hin Hname.
    apply list_elem_of_lookup in Hin as [j Hj].
    destruct (decide (j = k)) as [->|Hne].
    - rewrite list_lookup_insert_eq in Hj by (eapply lookup_lt_Some; eauto).
      injection Hj as <-. exact Hrefl.
    - rewrite list_lookup_insert_ne in Hj by done. exfalso. apply Hne.
      eapply NoDup_lookup; [exact Hnames| |].
      + rewrite list_lookup_fmap, Hj. reflexivity.
      + rewrite list_lookup_fmap, Hk. cbn. f_equal. symmetry. exact Hname. }
  unfold Obj.update_stage at 1. rewrite Hnone. reflexivity.
Qed.

(** X15 -- A stage set after [init_blueprint] is the only one to change.  On
    the blueprint that [init_blueprint] builds from the names [stages],
    setting the stage [s] of the list to a matrix [m] that differs from
    [mat44_scale(1)] succeeds, and leaves the blueprint that maps [s] to [m]
    and every other name to [mat44_scale(1)]. *)
Theorem update_stage_after_init (o o1 : if_obj) (stages : list string) (s : string) (m : mat44) :
  Obj.init_blueprint mat44_scale_one o stages = Some o1 ->
  s ∈ stages ->
  mat_neq mat44_scale_one m = true ->
  (Obj.update_stage mat_neq o1 (s, m)).1 = true
  /\ Obj.m_blueprint (Obj.update_stage mat_neq o1 (s, m)).2
     = map (fun s' => (s', if bool_decide (s' = s) then m else mat44_scale_one)) stages.
Proof.
  intros Hinit Hs Hneq.
  assert (Hnodup : NoDup stages).
  { apply (init_blueprint_names mat44_scale_one o stages). eauto. }
  unfold Obj.init_blueprint in Hinit. destruct (Nat.eqb _ _); [|discriminate].
  injection Hinit as <-. unfold Obj.update_stage. cbn [Obj.m_blueprint].
  assert (Hscan : Obj.update_blueprint mat_neq (map (fun s' => (s', mat44_scale_one)) stages) (s, m)
                  = Some (map (fun s' => (s', if bool_decide (s' = s) then m
                                              else mat44_scale_one)) stages)).
  { clear o. induction stages as [|x stages IH]; [inversion Hs|].
    cbn [map Obj.update_blueprint fst snd].
    apply NoDup_cons in Hnodup as [Hx Hnodup].
    destruct (bool_decide_reflect (x = s)) as [->|Hne]; cbn [andb].
    - rewrite Hneq. f_equal. f_equal.
      apply map_ext_in. intros s' Hin%list_elem_of_In.
      rewrite bool_decide_eq_false_2; [reflexivity|]. intros ->. contradiction.
    - apply elem_of_cons in Hs as [->|Hs]; [contradiction|].
      rewrite (IH Hs Hnodup). reflexivity. }
  rewrite Hscan. cbn. split; reflexivity.
Qed.

End ObjBlueprint.

Section ObjChildren.
Context {mat44 : Type}.

Abbreviation if_obj := (Obj.if_obj (mat44:=mat44)).
Abbreviation store := (gmap positive if_obj).

Lemma set_parent_set_parent (o : if_obj) (a b : option positive) :
  Obj.set_parent (Obj.set_parent o a) b = Obj.set_parent o b.
Proof. reflexivity. Qed.

Lemma set_children_same (o : if_obj) : Obj.set_children o (Obj.m_children o) = o.
Proof. destruct o. reflexivity. Qed.

(** What a successful [add_child] reads and writes. *)
Lemma add_child_true (st st' : store) (this child : positive) :
  Obj.add_child st this child = Some (true, st') ->
  exists this_obj child_obj,
    st !! this = Some this_obj
    /\ (child ∉ Obj.m_children this_obj)
    /\ st !! child = Some child_obj
    /\ st' = <[this := Obj.set_children
                         (if decide (this = child)
                          then Obj.set_parent child_obj (Some this) else this_obj)
                         ({[child]} ∪ Obj.m_children this_obj)]>
               (<[child := Obj.set_parent child_obj (Some this)]> st).
Proof.
  unfold Obj.add_child. intros Hadd.
  destruct (st !! this) as [this_obj|] eqn:Hthis; [|discriminate].
  destruct (bool_decide_reflect (child ∈ Obj.m_children this_obj)) as [Hin|Hnin];
    [discriminate|].
  destruct (st !! child) as [child_obj|] eqn:Hchild; [|discriminate].
  exists this_obj, child_obj. repeat split; auto.
  destruct (decide (this = child)) as [->|Hne].
  - rewrite lookup_insert_eq in Hadd. injection Hadd as <-.
    rewrite Hthis in Hchild. injection Hchild as <-. reflexivity.
  - rewrite lookup_insert_ne in Hadd by done. rewrite Hthis in Hadd.
    injection Hadd as <-. reflexivity.
Qed.

(** X16 -- [add_child].  When the object [this] does not hold [child] yet,
    [add_child] returns [true]; afterwards [child] is among the children of
    [this], which are otherwise unchanged, the parent of [child] is [this],
    and no other object has changed.  When [this] holds [child] already, it
    returns [false] and changes nothing. *)
Theorem add_child_spec (st : store) (this child : positive) (this_obj child_obj : if_obj) :
  st !! this = Some this_obj ->
  st !! child = Some child_obj ->
  (child ∈ Obj.m_children this_obj -> Obj.add_child st this child = Some (false, st))
  /\ (child ∉ Obj.m_children this_obj ->
      exists st' this_obj' child_obj',
        Obj.add_child st this child = Some (true, st')
        /\ st' !! this = Some this_obj'
        /\ Obj.m_children this_obj' = {[child]} ∪ Obj.m_children this_obj
        /\ st' !! child = Some child_obj'
        /\ Obj.m_parent child_obj' = Some this
        /\ (forall x, x <> this -> x <> child -> st' !! x = st !! x)).
Proof.
  intros Hthis Hchild. unfold Obj.add_child. rewrite Hthis. split; intros Hin.
  - rewrite bool_decide_eq_true_2 by done. reflexivity.
  - rewrite bool_decide_eq_false_2 by done. rewrite Hchild.
    destruct (decide (this = child)) as [->|Hne].
    + rewrite lookup_insert_eq.
      eexists _, _, _. split; [reflexivity|].
      rewrite !lookup_insert_eq. repeat split.
      * cbn. rewrite Hthis in Hchild. injection Hchild as <-. reflexivity.
      * intros x Hx _. rewrite !lookup_insert_ne by done. reflexivity.
    + rewrite lookup_insert_ne by done. rewrite Hthis.
      eexists _, _, _. split; [reflexivity|].
      rewrite lookup_insert_eq, lookup_insert_ne, lookup_insert_eq by done.
      repeat split.
      intros x Hx Hx'. rewrite !lookup_insert_ne by done. reflexivity.
Qed.

(** X17 -- Adding a child twice.  Whatever the first [add_child] returned, a
    second one with the same arguments returns [false] and changes nothing. *)
Theorem add_child_twice (st st' : store) (this child : positive) (b : bool) :
  Obj.add_child st this child = Some (b, st') ->
  Obj.add_child st' this child = Some (false, st').
Proof.
  intros Hadd. destruct b.
  - destruct (add_child_true _ _ _ _ Hadd) as (this_obj & child_obj & Hthis & Hnin & Hchild & ->).
    unfold Obj.add_child. rewrite lookup_insert_eq. cbn [Obj.set_children Obj.m_children].
    rewrite bool_decide_eq_true_2; [reflexivity|].
    apply elem_of_union_l, elem_of_singleton. reflexivity.
  - unfold Obj.add_child in Hadd |- *.
    destruct (st !! this) as [this_obj|] eqn:Hthis; [|discriminate].
    destruct (bool_decide_reflect (child ∈ Obj.m_children this_obj)) as [Hin|Hnin].
    + injection Hadd as <-. rewrite Hthis. rewrite bool_decide_eq_true_2 by done. reflexivity.
    + cbv zeta in Hadd. repeat case_match; discriminate.
Qed.

(** X18 -- Adding then removing a child.  After a successful [add_child],
    [remove_child] with the same arguments succeeds and restores the store,
    except that the child has no parent any more, whatever parent it had
    before it was added. *)
Theorem add_then_remove_child (st st' : store) (this child : positive) :
  Obj.add_child st this child = Some (true, st') ->
  exists child_obj,
    st !! child = Some child_obj
    /\ Obj.remove_child st' this child
       = Some (true, <[child := Obj.set_parent child_obj None]> st).
Proof.
  intros Hadd.
  destruct (add_child_true _ _ _ _ Hadd) as (this_obj & child_obj & Hthis & Hnin & Hchild & ->).
  exists child_obj. split; [exact Hchild|].
  assert (Hback : ({[child]} ∪ Obj.m_children this_obj) ∖ {[child]} = Obj.m_children this_obj).
  { apply set_eq. intros x.
    rewrite elem_of_difference, elem_of_union, elem_of_singleton.
    split; [tauto|]. intros Hx. split; [tauto|]. intros ->. exact (Hnin Hx). }
  assert (Hnow : child ∈ ({[child]} ∪ Obj.m_children this_obj : gset positive)).
  { apply elem_of_union_l, elem_of_singleton. reflexivity. }
  unfold Obj.remove_child. rewrite lookup_insert_eq.
  cbn [Obj.set_children Obj.m_children].
  rewrite bool_decide_eq_true_2 by exact Hnow.
  destruct (decide (this = child)) as [->|Hne].
  - rewrite !lookup_insert_eq. cbn [Obj.set_children Obj.set_parent Obj.m_children
      Obj.m_id Obj.m_mgr Obj.m_parent Obj.m_dirty Obj.m_blueprint].
    rewrite Hback. do 2 f_equal.
    rewrite Hthis in Hchild. injection Hchild as <-.
    rewrite !insert_insert_eq. reflexivity.
  - rewrite lookup_insert_ne, lookup_insert_eq by done.
    rewrite lookup_insert_ne, lookup_insert_eq by done.
    cbn [Obj.set_children Obj.set_parent Obj.m_children
      Obj.m_id Obj.m_mgr Obj.m_parent Obj.m_dirty Obj.m_blueprint].
    rewrite Hback. do 2 f_equal.
    apply map_eq. intros x.
    destruct (decide (x = this)) as [->|Hx]; [|destruct (decide (x = child)) as [->|Hx']].
    + rewrite lookup_insert_eq, lookup_insert_ne, Hthis by done.
      f_equal. destruct this_obj. reflexivity.
    + rewrite lookup_insert_ne, !lookup_insert_eq by done. reflexivity.
    + rewrite !lookup_insert_ne by done. reflexivity.
Qed.

Lemma remove_child_true (st st' : store) (this child : positive) :
  Obj.remove_child st this child = Some (true, st') ->
  exists this_obj child_obj,
    st !! this = Some this_obj
    /\ child ∈ Obj.m_children this_obj
    /\ st !! child = Some child_obj
    /\ st' = <[this := Obj.set_children
                         (if decide (this = child)
                          then Obj.set_parent child_obj None else this_obj)
                         (Obj.m_children this_obj ∖ {[child]})]>
               (<[child := Obj.set_parent child_obj None]> st).
Proof.
  unfold Obj.remove_child. intros Hrem.
  destruct (st !! this) as [this_obj|] eqn:Hthis; [|discriminate].
  destruct (bool_decide_reflect (child ∈ Obj.m_children this_obj)) as [Hin|Hnin];
    [|discriminate].
  destruct (st !! child) as [child_obj|] eqn:Hchild; [|discriminate].
  exists this_obj, child_obj. repeat split; auto.
  destruct (decide (this = child)) as [->|Hne].
  - rewrite lookup_insert_eq in Hrem. injection Hrem as <-.
    rewrite Hthis in Hchild. injection Hchild as <-. reflexivity.
  - rewrite lookup_insert_ne in Hrem by done. rewrite Hthis in Hrem.
    injection Hrem as <-. reflexivity.
Qed.

Lemma add_child_false (st st' : store) (this child : positive) :
  Obj.add_child st this child = Some (false, st') -> st' = st.
Proof.
  unfold Obj.add_child. intros Hadd. cbv zeta in Hadd.
  repeat case_match; simplify_eq; reflexivity.
Qed.

Lemma remove_child_false (st st' : store) (this child : positive) :
  Obj.remove_child st this child = Some (false, st') -> st' = st.
Proof.
  unfold Obj.remove_child. intros Hrem. cbv zeta in Hrem.
  repeat case_match; simplify_eq; reflexivity.
Qed.

(** X19 -- Parents know their children.  If every object that names a parent
    is among the children of that parent, this is still so after [add_child]
    and after [remove_child], whatever they return, also when an object is
    made a child of itself. *)
Theorem parents_know_children_kept (st st' : store) (this child : positive) (b : bool) :
  Obj.parents_know_children st ->
  Obj.add_child st this child = Some (b, st') \/ Obj.remove_child st this child = Some (b, st') ->
  Obj.parents_know_children st'.
Proof.
  intros Hinv [Hadd|Hrem].
  - destruct b; [|rewrite (add_child_false _ _ _ _ Hadd); exact Hinv].
    destruct (add_child_true _ _ _ _ Hadd) as (this_obj & child_obj & Hthis & Hnin & Hchild & ->).
    (* the children of an object only grow *)
    assert (Hgrow : forall q q_obj c, st !! q = Some q_obj -> c ∈ Obj.m_children q_obj ->
              exists q_obj',
                (<[this := Obj.set_children
                     (if decide (this = child)
                      then Obj.set_parent child_obj (Some this) else this_obj)
                     ({[child]} ∪ Obj.m_children this_obj)]>
                   (<[child := Obj.set_parent child_obj (Some this)]> st)) !! q = Some q_obj'
                /\ c ∈ Obj.m_children q_obj').
    { intros q q_obj c Hq Hc.
      destruct (decide (q = this)) as [->|Hq_this].
      - rewrite lookup_insert_eq. eexists. split; [reflexivity|].
        cbn [Obj.set_children Obj.m_children]. rewrite Hthis in Hq. injection Hq as <-.
        apply elem_of_union_r. exact Hc.
      - rewrite lookup_insert_ne by done.
        destruct (decide (q = child)) as [->|Hq_child].
        + rewrite lookup_insert_eq. eexists. split; [reflexivity|].
          rewrite Hchild in Hq. injection Hq as <-. exact Hc.
        + rewrite lookup_insert_ne by done. eauto. }
    assert (Hnew : exists q_obj',
                (<[this := Obj.set_children
                     (if decide (this = child)
                      then Obj.set_parent child_obj (Some this) else this_obj)
                     ({[child]} ∪ Obj.m_children this_obj)]>
                   (<[child := Obj.set_parent child_obj (Some this)]> st)) !! this = Some q_obj'
                /\ child ∈ Obj.m_children q_obj').
    { rewrite lookup_insert_eq. eexists. split; [reflexivity|].
      cbn [Obj.set_children Obj.m_children]. apply elem_of_union_l, elem_of_singleton. reflexivity. }
    intros c c_obj q Hc Hparent.
    destruct (decide (c = child)) as [->|Hc_child].
    + (* the new child names [this] *)
      assert (q = this) as ->; [|exact Hnew].
      destruct (decide (this = child)) as [->|Hne].
      * rewrite lookup_insert_eq in Hc. injection Hc as <-.
        cbn in Hparent. congruence.
      * rewrite lookup_insert_ne, lookup_insert_eq in Hc by done. injection Hc as <-.
        cbn in Hparent. congruence.
    + destruct (decide (c = this)) as [->|Hc_this].
      * rewrite lookup_insert_eq in Hc. injection Hc as <-.
        destruct (decide (this = child)) as [->|_]; [done|].
        cbn [Obj.set_children Obj.m_parent] in Hparent.
        destruct (Hinv _ _ _ Hthis Hparent) as (q_obj & Hq & Hin).
        eapply Hgrow; eauto.
      * rewrite !lookup_insert_ne in Hc by done.
        destruct (Hinv _ _ _ Hc Hparent) as (q_obj & Hq & Hin).
        eapply Hgrow; eauto.
  - destruct b; [|rewrite (remove_child_false _ _ _ _ Hrem); exact Hinv].
    destruct (remove_child_true _ _ _ _ Hrem) as (this_obj & child_obj & Hthis & Hin & Hchild & ->).
    (* an object loses no child but [child] *)
    assert (Hkeep : forall q q_obj c, c <> child -> st !! q = Some q_obj -> c ∈ Obj.m_children q_obj ->
              exists q_obj',
                (<[this := Obj.set_children
                     (if decide (this = child)
                      then Obj.set_parent child_obj None else this_obj)
                     (Obj.m_children this_obj ∖ {[child]})]>
                   (<[child := Obj.set_parent child_obj None]> st)) !! q = Some q_obj'
                /\ c ∈ Obj.m_children q_obj').
    { intros q q_obj c Hne Hq Hc.
      destruct (decide (q = this)) as [->|Hq_this].
      - rewrite lookup_insert_eq. eexists. split; [reflexivity|].
        cbn [Obj.set_children Obj.m_children]. rewrite Hthis in Hq. injection Hq as <-.
        apply elem_of_difference. split; [exact Hc|].
        rewrite elem_of_singleton. exact Hne.
      - rewrite lookup_insert_ne by done.
        destruct (decide (q = child)) as [->|Hq_child].
        + rewrite lookup_insert_eq. eexists. split; [reflexivity|].
          rewrite Hchild in Hq. injection Hq as <-. exact Hc.
        + rewrite lookup_insert_ne by done. eauto. }
    intros c c_obj q Hc Hparent.
    destruct (decide (c = child)) as [->|Hc_child].
    + (* the removed child names no parent *)
      destruct (decide (this = child)) as [->|Hne].
      * rewrite lookup_insert_eq in Hc. injection Hc as <-. cbn in Hparent. discriminate.
      * rewrite lookup_insert_ne, lookup_insert_eq in Hc by done. injection Hc as <-.
        cbn in Hparent. discriminate.
    + destruct (decide (c = this)) as [->|Hc_this].
      * rewrite lookup_insert_eq in Hc. injection Hc as <-.
        destruct (decide (this = child)) as [->|_]; [done|].
        cbn [Obj.set_children Obj.m_parent] in Hparent.
        destruct (Hinv _ _ _ Hthis Hparent) as (q_obj & Hq & Hin').
        eapply Hkeep; eauto.
      * rewrite !lookup_insert_ne in Hc by done.
        destruct (Hinv _ _ _ Hc Hparent) as (q_obj & Hq & Hin').
        eapply Hkeep; eauto.
Qed.

(** X20 -- A child is not taken from its former parent.  When [child] is among
    the children of [old] and is then added to another object [this], it
    stays among the children of [old], although its parent is now [this]:
    [remove_child] is what takes a child out of a set of children. *)
Theorem add_child_keeps_former_parent
  (st st' : store) (old this child : positive) (old_obj : if_obj) :
  old <> this ->
  st !! old = Some old_obj ->
  child ∈ Obj.m_children old_obj ->
  Obj.add_child st this child = Some (true, st') ->
  exists old_obj' child_obj',
    st' !! old = Some old_obj'
    /\ child ∈ Obj.m_children old_obj'
    /\ st' !! child = Some child_obj'
    /\ Obj.m_parent child_obj' = Some this.
Proof.
  intros Hne Hold Hin Hadd.
  destruct (add_child_true _ _ _ _ Hadd) as (this_obj & child_obj & Hthis & Hnin & Hchild & ->).
  rewrite (lookup_insert_ne _ this old) by done.
  destruct (decide (old = child)) as [->|Hoc].
  - rewrite lookup_insert_eq. rewrite Hchild in Hold. injection Hold as <-.
    eexists _, _. repeat split; [exact Hin|..].
    + rewrite lookup_insert_ne, lookup_insert_eq by done. reflexivity.
    + reflexivity.
  - rewrite lookup_insert_ne by done. rewrite Hold.
    destruct (decide (this = child)) as [->|Htc].
    + eexists _, _. repeat split; [exact Hin|..].
      * rewrite lookup_insert_eq. reflexivity.
      * reflexivity.
    + eexists _, _. repeat split; [exact Hin|..].
      * rewrite lookup_insert_ne, lookup_insert_eq by done. reflexivity.
      * reflexivity.
Qed.

End ObjChildren.

Section ObjRuns.
Import Rig.

Lemma next_obj_ids_fresh_witness :
  (Obj.next_obj_ids 32 3 101).1 = map (fun k => (101 + N.of_nat k)%N) (seq 0 3)
  /\ NoDup (Obj.next_obj_ids 32 3 101).1.
Proof.
  apply (next_obj_ids_fresh 32 3 101). vm_compute. discriminate.
Defined.

Lemma update_stage_twice_witness :
  Obj.update_stage mat44_neq
    (Obj.update_stage mat44_neq posed_arm ("rotate"%string, mat44_scale 2)).2
    ("rotate"%string, mat44_scale 2)
  = (false, (Obj.update_stage mat44_neq posed_arm ("rotate"%string, mat44_scale 2)).2).
Proof.
  apply (update_stage_twice mat44_neq posed_arm ("rotate"%string, mat44_scale 2)).
  - apply (bool_decide_unpack _). vm_compute. exact I.
  - vm_compute. reflexivity.
Defined.

Lemma update_stage_after_init_witness :
  (Obj.update_stage mat44_neq posed_arm ("rotate"%string, mat44_scale 2)).1 = true
  /\ Obj.m_blueprint (Obj.update_stage mat44_neq posed_arm ("rotate"%string, mat44_scale 2)).2
     = map (fun s' => (s', if bool_decide (s' = "rotate"%string)
                           then mat44_scale 2 else mat44_scale 1)) stage_names.
Proof.
  apply (update_stage_after_init (mat44_scale 1) mat44_neq arm posed_arm stage_names
           "rotate"%string (mat44_scale 2)).
  - vm_compute. reflexivity.
  - apply (bool_decide_unpack _). vm_compute. exact I.
  - vm_compute. reflexivity.
Defined.

Lemma add_child_spec_witness :
  (2%positive ∈ Obj.m_children (Obj.new_if_obj (mat44:=mat44) 101) ->
     Obj.add_child objs 1%positive 2%positive = Some (false, objs))
  /\ (2%positive ∉ Obj.m_children (Obj.new_if_obj (mat44:=mat44) 101) ->
      exists st' this_obj' child_obj',
        Obj.add_child objs 1%positive 2%positive = Some (true, st')
        /\ st' !! 1%positive = Some this_obj'
        /\ Obj.m_children this_obj'
           = {[2%positive]} ∪ Obj.m_children (Obj.new_if_obj (mat44:=mat44) 101)
        /\ st' !! 2%positive = Some child_obj'
        /\ Obj.m_parent child_obj' = Some 1%positive
        /\ (forall x, x <> 1%positive -> x <> 2%positive -> st' !! x = objs !! x)).
Proof.
  apply (add_child_spec objs 1%positive 2%positive (Obj.new_if_obj 101) (Obj.new_if_obj 102));
    reflexivity.
Defined.

Lemma add_child_twice_witness :
  Obj.add_child objs_1_2 1%positive 2%positive = Some (false, objs_1_2).
Proof.
  apply (add_child_twice objs objs_1_2 1%positive 2%positive true).
  vm_compute. reflexivity.
Defined.

Lemma add_then_remove_child_witness :
  exists child_obj,
    objs !! 2%positive = Some child_obj
    /\ Obj.remove_child objs_1_2 1%positive 2%positive
       = Some (true, <[2%positive := Obj.set_parent child_obj None]> objs).
Proof.
  apply (add_then_remove_child objs objs_1_2 1%positive 2%positive).
  vm_compute. reflexivity.
Defined.

Lemma objs_parents_know_children : Obj.parents_know_children objs.
Proof.
  intros c c_obj q Hc Hparent. exfalso.
  assert (Hall : map_Forall (fun _ (o : Obj.if_obj (mat44:=mat44)) => Obj.m_parent o = None) objs).
  { apply (bool_decide_unpack _). vm_compute. exact I. }
  rewrite (Hall c c_obj Hc) in Hparent. discriminate.
Defined.

Lemma parents_know_children_kept_witness : Obj.parents_know_children objs_1_2.
Proof.
  apply (parents_know_children_kept objs objs_1_2 1%positive 2%positive true).
  - exact objs_parents_know_children.
  - left. vm_compute. reflexivity.
Defined.

Lemma add_child_keeps_former_parent_witness :
  exists old_obj' child_obj',
    objs_3_2 !! 1%positive = Some old_obj'
    /\ 2%positive ∈ Obj.m_children old_obj'
    /\ objs_3_2 !! 2%positive = Some child_obj'
    /\ Obj.m_parent child_obj' = Some 3%positive.
Proof.
  apply (add_child_keeps_former_parent objs_1_2 objs_3_2 1%positive 3%positive 2%positive
           (Obj.set_children (Obj.new_if_obj 101) {[2%positive]})).
  - discriminate.
  - vm_compute. reflexivity.
  - apply (bool_decide_unpack _). vm_compute. exact I.
  - vm_compute. reflexivity.
Defined.

End ObjRuns.
